(** * A shallow embedding of draw.go

    The program keeps a grid of named colours (the [Display]), paints filled
    rectangles, circles and triangles on it through [drawPixel], and dumps the
    grid as an ASCII PPM file.

    Conventions of the embedding.
    - A Go [int] is a [Z]; the arithmetic the program performs on such values
      is written with the 64-bit two's-complement wrap-around ([GoInt.wrap]).
    - A Go [float64] is an IEEE-754 binary64 value, [spec_float] with
      precision 53 and maximal exponent 1024, rounded to nearest-even.
    - A method with a pointer receiver is a function of the state monad [M]
      over the receiver; a run ends by returning, by a run-time panic, or by
      never leaving a loop.
    - Slices are lists.  [make] is assumed to find the memory it asks for:
      only the negative-length panic of the allocator is modelled, neither
      its refusal of a size beyond the address space of the platform nor the
      exhaustion of the memory. *)

From Stdlib Require Import ZArith Lia Ascii SpecFloat.
From stdpp Require Import gmap strings list pretty.

Open Scope Z_scope.

(** ** Machine integers *)

Module GoInt.

Definition min_int : Z := - 2 ^ 63.
Definition max_int : Z := 2 ^ 63 - 1.

(** [is_int z]: [z] is a value of the Go type [int] (64 bits). *)
Definition is_int (z : Z) : Prop := min_int <= z <= max_int.

(** Two's-complement reduction of a mathematical result to an [int]. *)
Definition wrap (z : Z) : Z := (z + 2 ^ 63) mod 2 ^ 64 - 2 ^ 63.

Definition add (a b : Z) : Z := wrap (a + b).
Definition sub (a b : Z) : Z := wrap (a - b).
Definition mul (a b : Z) : Z := wrap (a * b).
Definition neg (a : Z) : Z := wrap (- a).

(** Go's [/] on ints truncates toward zero; the only division of the program
    is by the constant 2. *)
Definition quot (a b : Z) : Z := wrap (Z.quot a b).

End GoInt.

(** ** float64 *)

Module Float64.

Definition prec : Z := 53.
Definition emax : Z := 1024.

Definition float64 : Type := spec_float.

(** [float64(n)] for an int [n]: the nearest binary64 value. *)
Definition of_int (n : Z) : float64 := binary_normalize prec emax n 0 false.

Definition add (x y : float64) : float64 := SFadd prec emax x y.
Definition div (x y : float64) : float64 := SFdiv prec emax x y.

(** The integer part of a finite value (rounding toward zero). *)
Definition trunc (x : float64) : option Z :=
  match x with
  | S754_zero _ => Some 0
  | S754_finite s m e => Some (cond_Zopp s (Z.shiftl (Z.pos m) e))
  | S754_infinity _ | S754_nan => None
  end.

(** [int(x)]: truncation.  When the value does not fit in an [int] the Go
    specification leaves the result to the implementation; the amd64
    conversion instruction then yields the most negative integer. *)
Definition to_int (x : float64) : Z :=
  match trunc x with
  | Some z =>
      if (GoInt.min_int <=? z) && (z <=? GoInt.max_int) then z
      else GoInt.min_int
  | None => GoInt.min_int
  end.

End Float64.

(** ** Colours *)

Module RGB.
Record t : Type := mk { R : Z; G : Z; B : Z }.
End RGB.

(** [type Color int]: any integer is a value of the type; nine are named. *)
Definition Color : Type := Z.

Definition red : Color := 0.
Definition green : Color := 1.
Definition blue : Color := 2.
Definition yellow : Color := 3.
Definition orange : Color := 4.
Definition purple : Color := 5.
Definition brown : Color := 6.
Definition black : Color := 7.
Definition white : Color := 8.

Definition colorMap : gmap Z RGB.t :=
  list_to_map
    [ (red, RGB.mk 255 0 0);
      (green, RGB.mk 0 255 0);
      (blue, RGB.mk 0 0 255);
      (yellow, RGB.mk 255 255 0);
      (orange, RGB.mk 255 164 0);
      (purple, RGB.mk 128 0 128);
      (brown, RGB.mk 165 42 42);
      (black, RGB.mk 0 0 0);
      (white, RGB.mk 255 255 255) ].

Arguments colorMap : simpl never.

Record Point : Type := mkPoint { X : Z; Y : Z }.

(** ** Outcomes of a call *)

Inductive error : Type :=
  | PixelOutOfBounds            (* "pixel out of bounds" *)
  | ColorUnknown                (* "color unknown" *)
  | InvalidColor (x y : Z)      (* "invalid color at pixel [x, y]" *)
  | GeometryOutOfBounds         (* "geometry out of bounds" *)
  | CircleOutOfBounds           (* "Circle: geometry out of bounds" *)
  | IOError (path : string).    (* an error of package os *)

Inductive panic : Type :=
  | MakeSliceLen                (* makeslice: len out of range *)
  | MakeSliceCap                (* makeslice: cap out of range *)
  | IndexOutOfRange             (* index out of range *)
  | SliceBoundsOutOfRange.      (* slice bounds out of range *)

(** A run over a state [S] producing an [A]. *)
Inductive outcome (S A : Type) : Type :=
  | Returns (a : A) (s : S)
  | Panics (p : panic)
  | Diverges.

Arguments Returns {S A} a s.
Arguments Panics {S A} p.
Arguments Diverges {S A}.

Definition M (S A : Type) : Type := S -> outcome S A.

Definition ret {S A} (a : A) : M S A := fun s => Returns a s.

Definition bind {S A B} (m : M S A) (k : A -> M S B) : M S B :=
  fun s =>
    match m s with
    | Returns a s' => k a s'
    | Panics p => Panics p
    | Diverges => Diverges
    end.

Definition throw {S A} (p : panic) : M S A := fun _ => Panics p.

Definition diverge {S A} : M S A := fun _ => Diverges.

Notation "'let*' x ':=' m 'in' k" := (bind m (fun x => k))
  (at level 10, x pattern, m at level 100, k at level 200, only parsing).

(** A Go [error] result: [None] is [nil]. *)
Definition err : Type := option error.

(** ** Slices *)

(** [make([]T, n)]: [n] zero values, or the allocator's panic. *)
Definition make {A} (n : Z) (zero : A) : option (list A) :=
  if n <? 0 then None else Some (replicate (Z.to_nat n) zero).

(** [s[i]]: [None] stands for the index-out-of-range panic. *)
Definition index {A} (s : list A) (i : Z) : option A :=
  if i <? 0 then None else s !! Z.to_nat i.

(** [s[i] = v]. *)
Definition store {A} (s : list A) (i : Z) (v : A) : option (list A) :=
  match index s i with
  | Some _ => Some (<[Z.to_nat i := v]> s)
  | None => None
  end.

(** ** Loops *)

Section Loops.
Context {S : Type}.

(** The body of a loop whose only early exit is [return err]: it yields
    [Some e] to leave the function with [e], [None] to go on. *)
Fixpoint for_each {A} (vs : list A) (body : A -> M S err) : M S err :=
  match vs with
  | [] => ret None
  | v :: vs' =>
      fun s =>
        match body v s with
        | Returns None s' => for_each vs' body s'
        | r => r
        end
  end.

(** [for v := lo; v <= hi; v++ { body }].  While [hi] is below the largest
    int the counter runs through [lo..hi].  With [hi] the largest int the
    condition never fails: the counter wraps, and the loop is left only by
    the body.  No body of this program lets its exit depend on the state, so
    a full cycle without exit repeats for ever. *)
Definition for_le (lo hi : Z) (body : Z -> M S err) : M S err :=
  if hi <? GoInt.max_int then for_each (seqZ lo (hi - lo + 1)) body
  else
    let* e := for_each (seqZ lo (hi - lo + 1) ++ seqZ GoInt.min_int (2 ^ 64))
                       body in
    match e with
    | Some _ => ret e
    | None => diverge
    end.

End Loops.

(** ** The display *)

Module Display.

Record t : Type := mk { maxX : Z; maxY : Z; matrix : list (list Color) }.

(** The zero value of the struct ([var display Display]). *)
Definition zero : t := mk 0 0 [].

Definition set_matrix (m : list (list Color)) (d : t) : t :=
  mk (maxX d) (maxY d) m.

(** One turn of [for i := range d.matrix]: a fresh row of [maxX] cells, each
    then set to white. *)
Definition new_row (maxX : Z) : option (list Color) :=
  match make maxX red with
  | Some row => Some (map (λ _ : Color, white) row)
  | None => None
  end.

Definition initialize (maxX maxY : Z) : M t unit :=
  fun d =>
    let d := mk maxX maxY (matrix d) in
    match make maxY ([] : list Color) with
    | None => Panics MakeSliceLen
    | Some rows =>
        let d := set_matrix rows d in
        match mapM (λ _ : list Color, new_row maxX) (matrix d) with
        | None => Panics MakeSliceLen
        | Some m => Returns tt (set_matrix m d)
        end
    end.

Definition drawPixel (x y : Z) (c : Color) : M t err :=
  fun d =>
    let rotatedY := x in
    let rotatedX := y in
    if (rotatedX <? 0) || (rotatedY <? 0)
       || (rotatedX >=? maxX d) || (rotatedY >=? maxY d)
    then Returns (Some PixelOutOfBounds) d
    else
      match colorMap !! c with
      | None => Returns (Some ColorUnknown) d
      | Some _ =>
          match index (matrix d) rotatedY
                ≫= λ row : list Color, store row rotatedX c
                ≫= λ row' : list Color, store (matrix d) rotatedY row' with
          | Some m => Returns None (set_matrix m d)
          | None => Panics IndexOutOfRange
          end
      end.

Definition getPixel (x y : Z) : M t (Color * err) :=
  fun d =>
    if (x <? 0) || (y <? 0) || (x >=? maxX d) || (y >=? maxY d)
    then Returns (0, Some PixelOutOfBounds) d
    else
      match index (matrix d) y ≫= λ row : list Color, index row x with
      | Some c => Returns (c, None) d
      | None => Panics IndexOutOfRange
      end.

Definition clearScreen : M t unit :=
  fun d =>
    Returns tt
      (set_matrix (map (λ row : list Color, map (λ _ : Color, white) row)
                       (matrix d)) d).

Definition getMaxXY (d : t) : Z * Z := (maxX d, maxY d).

End Display.

(** [if err != nil { return err }] after a call. *)
Definition check {S} (m : M S err) (k : M S err) : M S err :=
  let* e := m in
  match e with
  | Some _ => ret e
  | None => k
  end.

Notation "'check!' m 'in' k" := (check m k)
  (at level 10, m at level 100, k at level 200, only parsing).

(** [s[i]] inside a run. *)
Definition at_index {S A} (s : list A) (i : Z) : M S A :=
  match index s i with
  | Some v => ret v
  | None => throw IndexOutOfRange
  end.

(** [s[i:]]. *)
Definition slice_from {S A} (s : list A) (i : Z) : M S (list A) :=
  if (i <? 0) || (Z.of_nat (length s) <? i) then throw SliceBoundsOutOfRange
  else ret (drop (Z.to_nat i) s).

(** [for v := lo; v < hi; v++ { body }]: the counter stays below [hi], so it
    never wraps. *)
Definition for_lt {S} (lo hi : Z) (body : Z -> M S err) : M S err :=
  for_each (seqZ lo (hi - lo)) body.

(** ** The file system seen by [screenShot] *)

Module OS.

(** [files] maps a path to the bytes of the file; [locked] holds the paths
    that cannot be created or truncated; no file may grow beyond [limit]
    bytes.  The last two are the sources of I/O failure. *)
Record t : Type := mk {
  files : gmap string string;
  locked : gset string;
  limit : nat
}.

Definition set_files (f : gmap string string) (o : t) : t :=
  mk f (locked o) (limit o).

(** [os.Create]: creates the file or truncates it. *)
Definition Create (path : string) : M t err :=
  fun o =>
    if decide (path ∈ locked o) then Returns (Some (IOError path)) o
    else Returns None (set_files (<[path := ""%string]> (files o)) o).

(** The first [n] bytes of [s], all of [s] when it is shorter. *)
Fixpoint first_bytes (n : nat) (s : string) : string :=
  match n, s with
  | S n', String c s' => String c (first_bytes n' s')
  | _, _ => ""
  end.

(** [fmt.Fprint] of [text] to the open file [path]: the text is formatted,
    then written in one go.  A write that would take the file beyond the
    limit leaves in the file the bytes that still fit, and fails. *)
Definition Fprint (path : string) (text : string) : M t err :=
  fun o =>
    match files o !! path with
    | None => Returns (Some (IOError path)) o
    | Some old =>
        if decide (String.length (old +:+ text) ≤ limit o)%nat
        then Returns None (set_files (<[path := old +:+ text]> (files o)) o)
        else
          let room := (limit o - String.length old)%nat in
          Returns (Some (IOError path))
            (set_files (<[path := old +:+ first_bytes room text]> (files o))
                       o)
    end.

End OS.

Definition nl : string := String "010"%char "".

Module Screen.

(** The text of one pixel, ["%d %d %d "]. *)
Definition triple (color : RGB.t) : string :=
  pretty (RGB.R color) +:+ " " +:+ pretty (RGB.G color) +:+ " "
  +:+ pretty (RGB.B color) +:+ " ".

(** ["P3\n%d %d\n255\n"]. *)
Definition header (maxX maxY : Z) : string :=
  "P3" +:+ nl +:+ pretty maxX +:+ " " +:+ pretty maxY +:+ nl
  +:+ "255" +:+ nl.

(** The method reads the display and writes to the file system. *)
Definition screenShot (filename : string) (d : Display.t) : M OS.t err :=
  let file := filename +:+ ".ppm" in
  check! OS.Create file in
  check! OS.Fprint file (header (Display.maxX d) (Display.maxY d)) in
  for_lt 0 (Display.maxY d) (λ y,
    check! for_lt 0 (Display.maxX d) (λ x,
      let* row := at_index (Display.matrix d) y in
      let* cell := at_index row x in
      match colorMap !! cell with
      | None => ret (Some (InvalidColor x y))
      | Some color => OS.Fprint file (triple color)
      end) in
    OS.Fprint file nl).

End Screen.

(** ** Shapes *)

Module Rectangle.

Record t : Type := mk { LL : Point; UR : Point; C : Color }.

(** The bounds check at the head of [draw]. *)
Definition out_of_bounds (r : t) (maxX maxY : Z) : bool :=
  (X (LL r) <? 0) || (Y (LL r) <? 0)
  || (X (UR r) >=? maxX) || (Y (UR r) >=? maxY).

Definition draw (r : t) : M Display.t err :=
  fun scn =>
    let '(maxX, maxY) := Display.getMaxXY scn in
    if out_of_bounds r maxX maxY
    then Returns (Some GeometryOutOfBounds) scn
    else
      for_le (Y (LL r)) (Y (UR r)) (λ y,
        for_le (X (LL r)) (X (UR r)) (λ x,
          Display.drawPixel x y (C r))) scn.

Definition shape (r : t) : string := "Rectangle".

End Rectangle.

Module Circle.

Record t : Type := mk { CP : Point; R : Z; C : Color }.

Definition shape (c : t) : string := "Circle".

(** The bounds check at the head of [draw]. *)
Definition out_of_bounds (c : t) (maxX maxY : Z) : bool :=
  (GoInt.sub (X (CP c)) (R c) <? 0)
  || (GoInt.add (X (CP c)) (R c) >=? maxX)
  || (GoInt.sub (Y (CP c)) (R c) <? 0)
  || (GoInt.add (Y (CP c)) (R c) >=? maxY).

(** The test of the inner loop: offset [(x, y)] is in the disk. *)
Definition in_disk (c : t) (x y : Z) : bool :=
  GoInt.add (GoInt.mul x x) (GoInt.mul y y) <=? GoInt.mul (R c) (R c).

Definition draw (c : t) : M Display.t err :=
  fun scn =>
    let '(maxX, maxY) := Display.getMaxXY scn in
    if out_of_bounds c maxX maxY
    then Returns (Some CircleOutOfBounds) scn
    else
      for_le (GoInt.neg (R c)) (R c) (λ y,
        for_le (GoInt.neg (R c)) (R c) (λ x,
          if in_disk c x y
          then Display.drawPixel (GoInt.add (X (CP c)) x)
                                 (GoInt.add (Y (CP c)) y) (C c)
          else ret None)) scn.

End Circle.

Module Triangle.

Record t : Type := mk { Pt0 : Point; Pt1 : Point; Pt2 : Point; C : Color }.

(** The loop of [interpolate] after [n] more turns: [d] is the running
    value, [a] the slope. *)
Fixpoint values (n : nat) (d a : Float64.float64) : list Z :=
  match n with
  | O => []
  | S n' => Float64.to_int d :: values n' (Float64.add d a) a
  end.

(** [interpolate(y0, x0, y1, x1)].  A negative capacity makes [make] panic;
    any other capacity is granted, as for every [make] of this model.  The
    float division by zero of the case [y0 == y1] is not a fault: it gives
    an infinity or a NaN.  With [y1] the largest int the condition of the
    loop never fails and the loop appends for ever.  [Triangle.draw] calls
    [interpolate] after its bounds check only, with a capacity of at most
    the number of rows of the display. *)
Definition interpolate {S} (y0 x0 y1 x1 : Z) : M S (list Z) :=
  if GoInt.add (GoInt.sub y1 y0) 1 <? 0 then throw MakeSliceCap
  else
    let a := Float64.div (Float64.of_int (GoInt.sub x1 x0))
                         (Float64.of_int (GoInt.sub y1 y0)) in
    let d := Float64.of_int x0 in
    if (y0 <=? y1) && (y1 =? GoInt.max_int) then diverge
    else ret (values (Z.to_nat (y1 - y0 + 1)) d a).

(** The three conditional swaps that order the vertices by [Y]. *)
Definition sorted (t : t) : (Z * Z) * (Z * Z) * (Z * Z) :=
  let '(x0, y0) := (X (Pt0 t), Y (Pt0 t)) in
  let '(x1, y1) := (X (Pt1 t), Y (Pt1 t)) in
  let '(x2, y2) := (X (Pt2 t), Y (Pt2 t)) in
  let '(x0, y0, x1, y1) :=
    if y1 <? y0 then (x1, y1, x0, y0) else (x0, y0, x1, y1) in
  let '(x0, y0, x2, y2) :=
    if y2 <? y0 then (x2, y2, x0, y0) else (x0, y0, x2, y2) in
  let '(x1, y1, x2, y2) :=
    if y2 <? y1 then (x2, y2, x1, y1) else (x1, y1, x2, y2) in
  ((x0, y0), (x1, y1), (x2, y2)).

(** The bounds check on the ordered vertices. *)
Definition out_of_bounds (x0 y0 x1 y1 x2 y2 maxX maxY : Z) : bool :=
  (x0 <? 0) || (x1 <? 0) || (x2 <? 0)
  || (y0 <? 0) || (y1 <? 0) || (y2 <? 0)
  || (x0 >=? maxX) || (x1 >=? maxX) || (x2 >=? maxX)
  || (y0 >=? maxY) || (y1 >=? maxY) || (y2 >=? maxY).

(** The rest of [draw], after the check: the edges and the scanlines. *)
Definition fill (c : Color) (x0 y0 x1 y1 x2 y2 : Z) : M Display.t err :=
  let* x01 := interpolate y0 x0 y1 x1 in
  let* x12 := interpolate y1 x1 y2 x2 in
  let* x02 := interpolate y0 x0 y2 x2 in
  let* x12_tail := slice_from x12 1 in
  let x012 := x01 ++ x12_tail in
  let m := GoInt.quot (Z.of_nat (length x012)) 2 in
  let* x02_m := at_index x02 m in
  let* x012_m := at_index x012 m in
  let '(x_left, x_right) :=
    if x02_m <? x012_m then (x02, x012) else (x012, x02) in
  for_le y0 y2 (λ y,
    let* lo := at_index x_left (GoInt.sub y y0) in
    let* hi := at_index x_right (GoInt.sub y y0) in
    for_le lo hi (λ x, Display.drawPixel x y c)).

Definition draw (t : t) : M Display.t err :=
  fun scn =>
    let '(maxX, maxY) := Display.getMaxXY scn in
    let '((x0, y0), (x1, y1), (x2, y2)) := sorted t in
    if out_of_bounds x0 y0 x1 y1 x2 y2 maxX maxY
    then Returns (Some GeometryOutOfBounds) scn
    else fill (C t) x0 y0 x1 y1 x2 y2 scn.

Definition shape (t : t) : string := "Triangle".

End Triangle.

(** ** Displays in use *)

(** The cell that [drawPixel x y] addresses: row [x], column [y]. *)
Definition cell (d : Display.t) (x y : Z) : option Color :=
  index (Display.matrix d) x ≫= λ row : list Color, index row y.

Definition known (c : Color) : Prop := is_Some (colorMap !! c).

(** A display that went through [initialize] and was then used through its
    methods and through the [draw] of the three shapes. *)
Inductive initialized : Display.t -> Prop :=
  | init_initialize d0 w h d :
      GoInt.is_int w -> GoInt.is_int h ->
      Display.initialize w h d0 = Returns tt d -> initialized d
  | init_drawPixel d x y c e d' :
      initialized d -> Display.drawPixel x y c d = Returns e d' ->
      initialized d'
  | init_clearScreen d d' :
      initialized d -> Display.clearScreen d = Returns tt d' ->
      initialized d'
  | init_rectangle d r e d' :
      initialized d -> Rectangle.draw r d = Returns e d' -> initialized d'
  | init_circle d c e d' :
      initialized d -> Circle.draw c d = Returns e d' -> initialized d'
  | init_triangle d t e d' :
      initialized d -> Triangle.draw t d = Returns e d' -> initialized d'.

(** The shape of the grid of such a display. *)
Record wf (d : Display.t) : Prop := mk_wf {
  wf_maxX : GoInt.is_int (Display.maxX d);
  wf_maxY : 0 <= Display.maxY d <= GoInt.max_int;
  wf_rows : length (Display.matrix d) = Z.to_nat (Display.maxY d);
  wf_cols :
    Forall (λ row : list Color, length row = Z.to_nat (Display.maxX d))
           (Display.matrix d);
  wf_known : Forall (Forall known) (Display.matrix d)
}.

(** [fresh w h]: the display right after [initialize(w, h)] on the zero
    value; the zero value itself when the call panics. *)
Definition fresh (w h : Z) : Display.t :=
  match Display.initialize w h Display.zero with
  | Returns _ d => d
  | _ => Display.zero
  end.

(** ** Vocabulary of the properties *)

(** [in_grid d x y]: [drawPixel x y] passes its bounds check on [d]. *)
Definition in_grid (d : Display.t) (x y : Z) : Prop :=
  0 <= x < Display.maxY d /\ 0 <= y < Display.maxX d.

#[local] Instance in_grid_dec d x y : Decision (in_grid d x y).
Proof. unfold in_grid. apply _. Defined.

(** [drawPixel] with one colour on a list of points, up to the first
    failure: what every fill of the program comes down to. *)
Definition paint (c : Color) (pts : list (Z * Z)) : M Display.t err :=
  for_each pts (λ p, Display.drawPixel p.1 p.2 c).

(** What a run of [paint] leaves behind. *)
Record painted (c : Color) (pts : list (Z * Z)) (d : Display.t)
    (e : err) (d' : Display.t) : Prop := mk_painted {
  painted_wf : wf d';
  painted_maxX : Display.maxX d' = Display.maxX d;
  painted_maxY : Display.maxY d' = Display.maxY d;
  painted_frame : ∀ i j,
    cell d' i j = cell d i j
    \/ ((i, j) ∈ pts /\ known c /\ in_grid d i j /\ cell d' i j = Some c);
  painted_all : e = None -> ∀ i j, (i, j) ∈ pts -> cell d' i j = Some c;
  painted_ok :
    e = None <->
    Forall (λ p, in_grid d p.1 p.2) pts /\ (pts ≠ [] -> known c);
  painted_error :
    e = None \/ e = Some PixelOutOfBounds \/ e = Some ColorUnknown;
  painted_unknown : colorMap !! c = None -> d' = d
}.

(** [m] keeps [P] whenever it returns. *)
Definition preserves {S A} (P : S -> Prop) (m : M S A) : Prop :=
  ∀ s a s', P s -> m s = Returns a s' -> P s'.

(** [m] keeps [I] whenever it returns, and the only errors it returns are
    those of [R]. *)
Definition steps {S} (I : S -> Prop) (R : error -> Prop) (m : M S err) :
    Prop :=
  ∀ s e s', I s -> m s = Returns e s' -> I s' /\ ∀ er, e = Some er -> R er.


(** The bounds check of [Triangle.draw] on the display [d]. *)
Definition triangle_rejected (t : Triangle.t) (d : Display.t) : bool :=
  let '((x0, y0), (x1, y1), (x2, y2)) := Triangle.sorted t in
  Triangle.out_of_bounds x0 y0 x1 y1 x2 y2 (Display.maxX d) (Display.maxY d).


(** The points of the two nested loops of [Rectangle.draw], in order. *)
Definition rectangle_points (r : Rectangle.t) : list (Z * Z) :=
  seqZ (Y (Rectangle.LL r)) (Y (Rectangle.UR r) - Y (Rectangle.LL r) + 1)
  ≫= λ y, (λ x, (x, y))
            <$> seqZ (X (Rectangle.LL r))
                     (X (Rectangle.UR r) - X (Rectangle.LL r) + 1).

Ltac int_numerals :=
  unfold GoInt.is_int, GoInt.add, GoInt.sub, GoInt.mul, GoInt.neg,
    GoInt.min_int, GoInt.max_int in *;
  change (2 ^ 63) with 9223372036854775808 in *;
  change (2 ^ 64) with 18446744073709551616 in *;
  change (2 ^ 31) with 2147483648 in *.

(** The points of the two nested loops of [Circle.draw], in order. *)
Definition circle_points (c : Circle.t) : list (Z * Z) :=
  let offsets :=
    seqZ (GoInt.neg (Circle.R c)) (Circle.R c - GoInt.neg (Circle.R c) + 1) in
  offsets ≫= λ y,
    (λ x, (GoInt.add (X (Circle.CP c)) x, GoInt.add (Y (Circle.CP c)) y))
      <$> filter (λ x, Circle.in_disk c x y = true) offsets.

(** [holds d c x y]: the cell that [drawPixel x y] addresses holds [c]. *)
Definition holds (d : Display.t) (c : Color) (x y : Z) : bool :=
  match cell d x y with
  | Some v => v =? c
  | None => false
  end.

(** [reads d c x y]: [getPixel(x, y)] returns [c]. *)
Definition reads (d : Display.t) (c : Color) (x y : Z) : bool :=
  match Display.getPixel x y d with
  | Returns (v, None) _ => v =? c
  | _ => false
  end.

(** The [x] among the first [n] whose pixel on the scanline [y] has colour
    [c], as [drawPixel] addresses the pixels and as [getPixel] does. *)
Definition scanline (d : Display.t) (c : Color) (n y : Z) : list Z :=
  List.filter (λ x, holds d c x y) (seqZ 0 n).

Definition scanline_read (d : Display.t) (c : Color) (n y : Z) : list Z :=
  List.filter (λ x, reads d c x y) (seqZ 0 n).

(** The text of the file as the specification words it, spelled out here
    without the definitions of [Screen]: the header
    ["P3\n<maxX> <maxY>\n255\n"], then the rows in storage order, each the
    ["<R> <G> <B> "] of its cells, red first, green second, blue third,
    followed by a line feed.  [ppm_text] is compared with what [screenShot]
    writes. *)

(** The line feed, the character of code 10. *)
Definition LF : string := String (ascii_of_nat 10) "".

Definition pixel_text (c : Color) : string :=
  match colorMap !! c with
  | Some (RGB.mk r g b) =>
      pretty r +:+ " " +:+ pretty g +:+ " " +:+ pretty b +:+ " "
  | None => ""
  end.

Definition cells_text (row : list Color) : string :=
  foldr (λ c rest, pixel_text c +:+ rest) "" row.

Definition row_text (row : list Color) : string := cells_text row +:+ LF.

Definition rows_text (rows : list (list Color)) : string :=
  foldr (λ row rest, row_text row +:+ rest) "" rows.

Definition ppm_text (d : Display.t) : string :=
  ("P3" +:+ LF +:+ pretty (Display.maxX d) +:+ " " +:+ pretty (Display.maxY d)
   +:+ LF +:+ "255" +:+ LF)
  +:+ rows_text (Display.matrix d).

(** The state after [text] went to the end of [file]. *)
Definition appended (file old text : string) (o : OS.t) : OS.t :=
  OS.set_files (<[file := old +:+ text]> (OS.files o)) o.

(** The body of the inner loop of [screenShot] at row [y]. *)
Definition pixel_step (file : string) (d : Display.t) (y x : Z) :
    M OS.t err :=
  let* row := at_index (Display.matrix d) y in
  let* cell := at_index row x in
  match colorMap !! cell with
  | None => ret (Some (InvalidColor x y))
  | Some color => OS.Fprint file (Screen.triple color)
  end.

(** The body of the outer loop. *)
Definition row_step (file : string) (d : Display.t) (y : Z) : M OS.t err :=
  check (for_lt 0 (Display.maxX d) (pixel_step file d y)) (OS.Fprint file nl).

(** An error that is not the InvalidColor of [screenShot]. *)
Definition not_invalid (e : err) : Prop :=
  ∀ x y, e ≠ Some (InvalidColor x y).

(** A finite value has a mantissa of at most 53 bits. *)
Definition mant_ok (x : Float64.float64) : Prop :=
  match x with
  | S754_finite _ m _ => Z.pos m < 2 ^ 53
  | _ => True
  end.

(** The edge between two rows of the grid. *)
Definition edge (y0 x0 y1 x1 : Z) : list Z :=
  Triangle.values (Z.to_nat (y1 - y0 + 1)) (Float64.of_int x0)
    (Float64.div (Float64.of_int (GoInt.sub x1 x0))
                 (Float64.of_int (GoInt.sub y1 y0))).

(** The points of the scanline loops, for the two boundaries. *)
Definition scan_points (left right : list Z) (y0 : Z) : list (Z * Z) :=
  seqZ y0 (Z.of_nat (length left)) ≫= λ y,
    match index left (y - y0), index right (y - y0) with
    | Some lo, Some hi => (λ x, (x, y)) <$> seqZ lo (hi - lo + 1)
    | _, _ => []
    end.


(** The vertex that the swaps of [Triangle.draw] put first. *)
Definition apex (t : Triangle.t) : Z * Z := (Triangle.sorted t).1.1.

(** The vertices as given, and as ordered by the swaps. *)
Definition vertices (t : Triangle.t) : list (Z * Z) :=
  [ (X (Triangle.Pt0 t), Y (Triangle.Pt0 t));
    (X (Triangle.Pt1 t), Y (Triangle.Pt1 t));
    (X (Triangle.Pt2 t), Y (Triangle.Pt2 t)) ].

Definition sorted_vertices (t : Triangle.t) : list (Z * Z) :=
  let '(a, b, c) := Triangle.sorted t in [a; b; c].

(** [untouched file o o']: the file system [o'] differs from [o] at most in
    the contents of [file]. *)
Definition untouched (file : string) (o o' : OS.t) : Prop :=
  OS.locked o' = OS.locked o /\ OS.limit o' = OS.limit o
  /\ ∀ path, path ≠ file -> OS.files o' !! path = OS.files o !! path.

(** The pieces that [screenShot] prints, in order: the header, then for
    each row its pixels and a newline. *)
Definition printed (c : Color) : string :=
  match colorMap !! c with
  | Some color => Screen.triple color
  | None => ""
  end.

Definition row_chunks (row : list Color) : list string :=
  (printed <$> row) ++ [nl].

Definition chunks (d : Display.t) : list string :=
  Screen.header (Display.maxX d) (Display.maxY d)
  :: (Display.matrix d ≫= row_chunks).

Definition text_of (pieces : list string) : string :=
  foldr (λ piece rest, piece +:+ rest) "" pieces.

(** [bad_cell d er]: if [er] is an invalid-colour report for [[x, y]], then
    [x] is a column and [y] a row of the grid, and the cell of that row and
    column holds a colour that is not in the table. *)
Definition bad_cell (d : Display.t) (er : error) : Prop :=
  ∀ x y, er = InvalidColor x y ->
    0 <= x < Display.maxX d /\ 0 <= y < Display.maxY d
    /\ ∃ v, (index (Display.matrix d) y ≫= λ row : list Color, index row x)
            = Some v
            /\ colorMap !! v = None.

(** [line x s n]: the [n] values [x], [x + s], [x + 2s], ... *)
Definition line (x s n : Z) : list Z := (λ i, x + s * i) <$> seqZ 0 n.

(** [in_triangle ... x y]: the point [(x, y)] lies on a row of the triangle
    with the ordered vertices [(x0, y0)], [(x1, y1)], [(x2, y2)], between
    the edge from the first to the last vertex and the two other edges,
    [s01], [s12] and [s02] being the slopes of the edges. *)
Definition in_triangle (x0 y0 x1 y1 y2 s01 s12 s02 x y : Z) : Prop :=
  y0 <= y <= y2
  /\ Z.min (x0 + s02 * (y - y0))
           (if y <=? y1 then x0 + s01 * (y - y0) else x1 + s12 * (y - y1))
     <= x
     <= Z.max (x0 + s02 * (y - y0))
              (if y <=? y1 then x0 + s01 * (y - y0) else x1 + s12 * (y - y1)).

#[local] Instance in_triangle_dec x0 y0 x1 y1 y2 s01 s12 s02 x y :
  Decision (in_triangle x0 y0 x1 y1 y2 s01 s12 s02 x y).
Proof. unfold in_triangle. apply _. Defined.

(** [orient a b p]: twice the signed area of the triangle [a], [b], [p]. *)
Definition orient (a b p : Z * Z) : Z :=
  (b.1 - a.1) * (p.2 - a.2) - (b.2 - a.2) * (p.1 - a.1).

(** [in_closed_triangle a b c p]: the point [p] is on a row of the triangle
    [a], [b], [c] and on the same side of its three edges (or on them). *)
Definition in_closed_triangle (a b c p : Z * Z) : Prop :=
  Z.min a.2 (Z.min b.2 c.2) <= p.2 <= Z.max a.2 (Z.max b.2 c.2)
  /\ ((0 <= orient a b p /\ 0 <= orient b c p /\ 0 <= orient c a p)
      \/ (orient a b p <= 0 /\ orient b c p <= 0 /\ orient c a p <= 0)).

(** * Properties *)

(** ** Slices *)

Section Slices.
Context {A : Type}.
Implicit Types (s : list A) (i : Z) (v : A).

Lemma index_Some s i v :
  index s i = Some v <-> 0 <= i /\ s !! Z.to_nat i = Some v.
Proof.
  unfold index. destruct (Z.ltb_spec i 0); split.
  - discriminate.
  - intros [? _]. lia.
  - auto.
  - tauto.
Qed.

Lemma index_in_range s i : 0 <= i < Z.of_nat (length s) -> is_Some (index s i).
Proof.
  intros Hi. unfold index. destruct (Z.ltb_spec i 0); [lia|].
  apply lookup_lt_is_Some. lia.
Qed.

Lemma index_is_Some s i : is_Some (index s i) -> 0 <= i < Z.of_nat (length s).
Proof.
  intros [v Hv]. apply index_Some in Hv as [H0 Hv].
  apply lookup_lt_Some in Hv. lia.
Qed.

Lemma index_None s i :
  index s i = None <-> ~ (0 <= i < Z.of_nat (length s)).
Proof.
  split.
  - intros HN Hr. apply index_in_range in Hr as [v Hv]. congruence.
  - intros Hr. destruct (index s i) eqn:E; [|done].
    exfalso. apply Hr, index_is_Some. eauto.
Qed.

Lemma store_Some s i v :
  0 <= i < Z.of_nat (length s) -> store s i v = Some (<[Z.to_nat i := v]> s).
Proof.
  intros Hi. unfold store. by destruct (index_in_range s i Hi) as [w ->].
Qed.

Lemma index_insert s (i j : Z) v :
  0 <= i < Z.of_nat (length s) ->
  index (<[Z.to_nat i := v]> s) j
  = if decide (j = i) then Some v else index s j.
Proof.
  intros Hi. unfold index. case_decide as Hj.
  - subst j. destruct (Z.ltb_spec i 0); [lia|].
    apply list_lookup_insert_eq. lia.
  - destruct (Z.ltb_spec j 0); [done|].
    apply list_lookup_insert_ne. lia.
Qed.

Lemma index_replicate (n : nat) v i :
  0 <= i < Z.of_nat n -> index (replicate n v) i = Some v.
Proof.
  intros Hi. apply index_Some. split; [lia|].
  apply lookup_replicate_2. lia.
Qed.

End Slices.

(** ** The display's methods *)

Lemma new_row_Some w :
  0 <= w -> Display.new_row w = Some (replicate (Z.to_nat w) white).
Proof.
  intros Hw. unfold Display.new_row, make.
  destruct (Z.ltb_spec w 0); [lia|].
  f_equal. induction (Z.to_nat w) as [|n IH]; simpl; congruence.
Qed.

Lemma new_row_None w : w < 0 -> Display.new_row w = None.
Proof.
  intros Hw. unfold Display.new_row, make.
  by destruct (Z.ltb_spec w 0); [|lia].
Qed.

Lemma mapM_const {A B} (f : A -> option B) (b : B) (l : list A) :
  (∀ a, f a = Some b) -> mapM f l = Some (replicate (length l) b).
Proof.
  intros Hf. induction l as [|a l IH]; [done|].
  cbn. rewrite Hf. cbn. rewrite IH. done.
Qed.

Lemma initialize_returns w h d0 :
  0 <= w -> 0 <= h ->
  Display.initialize w h d0
  = Returns tt (Display.mk w h (replicate (Z.to_nat h)
                                  (replicate (Z.to_nat w) white))).
Proof.
  intros Hw Hh. unfold Display.initialize, make.
  destruct (Z.ltb_spec h 0); [lia|]. cbn.
  rewrite (mapM_const _ (replicate (Z.to_nat w) white)).
  - by rewrite length_replicate.
  - intros _. by apply new_row_Some.
Qed.

Lemma initialize_panics_height w h d0 :
  h < 0 -> Display.initialize w h d0 = Panics MakeSliceLen.
Proof.
  intros Hh. unfold Display.initialize, make.
  by destruct (Z.ltb_spec h 0); [|lia].
Qed.

Lemma initialize_panics_width w h d0 :
  w < 0 -> 0 < h -> Display.initialize w h d0 = Panics MakeSliceLen.
Proof.
  intros Hw Hh. unfold Display.initialize, make.
  destruct (Z.ltb_spec h 0); [lia|]. cbn.
  destruct (Z.to_nat h) as [|n] eqn:E; [lia|].
  cbn. by rewrite new_row_None.
Qed.

Lemma initialize_flat w d0 :
  w < 0 -> Display.initialize w 0 d0 = Returns tt (Display.mk w 0 []).
Proof. done. Qed.

Lemma known_white : known white.
Proof. by eexists. Qed.

Lemma wf_initialize w h d0 d :
  GoInt.is_int w -> GoInt.is_int h ->
  Display.initialize w h d0 = Returns tt d -> wf d.
Proof.
  intros Hw Hh Hd. unfold GoInt.is_int in *.
  destruct (Z.lt_ge_cases h 0) as [Hn|Hp].
  { by rewrite initialize_panics_height in Hd. }
  destruct (Z.lt_ge_cases w 0) as [Hwn|Hwp].
  - destruct (Z.eq_dec h 0) as [->|Hne].
    + rewrite initialize_flat in Hd by done. injection Hd as <-.
      split; cbn; try done; unfold GoInt.max_int; lia.
    + rewrite initialize_panics_width in Hd by lia. done.
  - rewrite initialize_returns in Hd by done. injection Hd as <-.
    split; cbn; try done.
    + lia.
    + by rewrite length_replicate.
    + apply Forall_replicate. by rewrite length_replicate.
    + apply Forall_replicate, Forall_replicate, known_white.
Qed.

(** [drawPixel]: the three ways out. *)

Lemma drawPixel_guard d x y :
  (y <? 0) || (x <? 0) || (y >=? Display.maxX d) || (x >=? Display.maxY d)
  = bool_decide (~ in_grid d x y).
Proof.
  unfold in_grid. case_bool_decide as H.
  - destruct (Z.ltb_spec y 0), (Z.ltb_spec x 0),
      (Z.geb_spec y (Display.maxX d)), (Z.geb_spec x (Display.maxY d));
      cbn; try done. lia.
  - destruct (Z.ltb_spec y 0), (Z.ltb_spec x 0),
      (Z.geb_spec y (Display.maxX d)), (Z.geb_spec x (Display.maxY d));
      cbn; try done; lia.
Qed.

Lemma drawPixel_out d x y c :
  ~ in_grid d x y ->
  Display.drawPixel x y c d = Returns (Some PixelOutOfBounds) d.
Proof.
  intros H. unfold Display.drawPixel. cbv zeta.
  rewrite drawPixel_guard. by rewrite bool_decide_eq_true_2.
Qed.

Lemma drawPixel_unknown d x y c :
  in_grid d x y -> colorMap !! c = None ->
  Display.drawPixel x y c d = Returns (Some ColorUnknown) d.
Proof.
  intros H Hc. unfold Display.drawPixel. cbv zeta.
  rewrite drawPixel_guard. rewrite bool_decide_eq_false_2 by tauto.
  by rewrite Hc.
Qed.

Lemma wf_row d x :
  wf d -> 0 <= x < Display.maxY d ->
  ∃ row, index (Display.matrix d) x = Some row
         /\ length row = Z.to_nat (Display.maxX d) /\ Forall known row.
Proof.
  intros [_ HY Hr Hc Hk] Hx.
  destruct (index_in_range (Display.matrix d) x) as [row Hrow]; [lia|].
  exists row. split; [done|].
  apply index_Some in Hrow as [_ Hrow].
  split.
  - by apply (Forall_lookup_1 _ _ _ _ Hc Hrow).
  - by apply (Forall_lookup_1 _ _ _ _ Hk Hrow).
Qed.

Lemma drawPixel_paints d x y c :
  wf d -> in_grid d x y -> known c ->
  ∃ d', Display.drawPixel x y c d = Returns None d'
        /\ Display.maxX d' = Display.maxX d
        /\ Display.maxY d' = Display.maxY d
        /\ wf d'
        /\ ∀ i j, cell d' i j
                  = if decide (i = x /\ j = y) then Some c else cell d i j.
Proof.
  intros Hwf Hin [rgb Hc]. pose proof Hin as [Hx Hy].
  destruct (wf_row d x Hwf Hx) as (row & Hrow & Hlen & Hknown).
  destruct Hwf as [HX HY Hr Hcs Hk].
  unfold Display.drawPixel. cbv zeta.
  rewrite drawPixel_guard, bool_decide_eq_false_2 by tauto.
  rewrite Hc, Hrow. cbn.
  rewrite (store_Some row y c) by lia. cbn.
  rewrite store_Some by lia.
  eexists. split; [done|]. cbn. split; [done|]. split; [done|].
  split.
  - split; cbn; try done.
    + by rewrite length_insert.
    + apply Forall_insert; [done|]. by rewrite length_insert.
    + apply Forall_insert; [done|]. apply Forall_insert; [done|]. by eexists.
  - intros i j. unfold cell. cbn.
    rewrite index_insert by lia.
    destruct (decide (i = x)) as [->|Hne].
    + cbn. rewrite index_insert by lia.
      destruct (decide (j = y)) as [->|Hne].
      * by rewrite decide_True.
      * rewrite decide_False by tauto. by rewrite Hrow.
    + by rewrite decide_False by tauto.
Qed.

(** [getPixel]. *)

Lemma getPixel_guard d x y :
  (x <? 0) || (y <? 0) || (x >=? Display.maxX d) || (y >=? Display.maxY d)
  = bool_decide (~ in_grid d y x).
Proof.
  unfold in_grid. case_bool_decide as H.
  - destruct (Z.ltb_spec y 0), (Z.ltb_spec x 0),
      (Z.geb_spec x (Display.maxX d)), (Z.geb_spec y (Display.maxY d));
      cbn; try done. lia.
  - destruct (Z.ltb_spec y 0), (Z.ltb_spec x 0),
      (Z.geb_spec x (Display.maxX d)), (Z.geb_spec y (Display.maxY d));
      cbn; try done; lia.
Qed.

Lemma getPixel_out d x y :
  ~ in_grid d y x ->
  Display.getPixel x y d = Returns (0, Some PixelOutOfBounds) d.
Proof.
  intros H. unfold Display.getPixel.
  rewrite getPixel_guard. by rewrite bool_decide_eq_true_2.
Qed.

Lemma cell_in_grid d x y :
  wf d -> in_grid d x y -> ∃ c, cell d x y = Some c /\ known c.
Proof.
  intros Hwf [Hx Hy].
  destruct (wf_row d x Hwf Hx) as (row & Hrow & Hlen & Hknown).
  destruct (index_in_range row y) as [c Hcell]; [lia|].
  exists c. unfold cell. rewrite Hrow. cbn. split; [done|].
  apply index_Some in Hcell as [_ Hcell].
  by apply (Forall_lookup_1 _ _ _ _ Hknown Hcell).
Qed.

Lemma cell_is_Some d x y : wf d -> is_Some (cell d x y) -> in_grid d x y.
Proof.
  intros [HX HY Hr Hcs Hk] [c Hc]. unfold cell in Hc.
  destruct (index (Display.matrix d) x) as [row|] eqn:Hrow; [|done].
  cbn in Hc.
  assert (is_Some (index (Display.matrix d) x)) as Hx by eauto.
  assert (is_Some (index row y)) as Hy by eauto.
  apply index_is_Some in Hx, Hy.
  apply index_Some in Hrow as [_ Hrow].
  pose proof (Forall_lookup_1 _ _ _ _ Hcs Hrow) as Hlen. cbn in Hlen.
  unfold in_grid. lia.
Qed.

Lemma getPixel_reads d x y :
  wf d -> in_grid d y x ->
  ∃ c, cell d y x = Some c /\ Display.getPixel x y d = Returns (c, None) d.
Proof.
  intros Hwf Hin. destruct (cell_in_grid d y x Hwf Hin) as (c & Hc & _).
  exists c. split; [done|]. unfold Display.getPixel.
  rewrite getPixel_guard, bool_decide_eq_false_2 by tauto.
  unfold cell in Hc. by rewrite Hc.
Qed.

(** ** Loops *)

Section LoopFacts.
Context {S : Type}.
Implicit Types (s : S).

Lemma for_each_app {A} (l1 l2 : list A) (body : A -> M S err) s :
  for_each (l1 ++ l2) body s
  = match for_each l1 body s with
    | Returns None s' => for_each l2 body s'
    | r => r
    end.
Proof.
  revert s. induction l1 as [|a l1 IH]; intros s; [done|].
  cbn. destruct (body a s) as [[e|] s'| |]; by try apply IH.
Qed.

Lemma for_each_ext {A} (l : list A) (f g : A -> M S err) s :
  (∀ a s', a ∈ l -> f a s' = g a s') -> for_each l f s = for_each l g s.
Proof.
  revert s. induction l as [|a l IH]; intros s Hfg; [done|].
  cbn. rewrite Hfg by apply list_elem_of_here.
  destruct (g a s) as [[e|] s'| |]; try done.
  apply IH. intros b s'' Hb. apply Hfg. by apply list_elem_of_further.
Qed.

Lemma for_each_fmap {A B} (h : A -> B) (l : list A) (body : B -> M S err) s :
  for_each (h <$> l) body s = for_each l (λ a, body (h a)) s.
Proof.
  revert s. induction l as [|a l IH]; intros s; [done|].
  cbn. destruct (body (h a) s) as [[e|] s'| |]; by try apply IH.
Qed.

Lemma for_each_bind {A B} (h : A -> list B) (l : list A)
    (body : B -> M S err) s :
  for_each (l ≫= h) body s = for_each l (λ a, for_each (h a) body) s.
Proof.
  revert s. induction l as [|a l IH]; intros s; [done|].
  cbn. rewrite for_each_app.
  destruct (for_each (h a) body s) as [[e|] s'| |]; by try apply IH.
Qed.

Lemma for_each_filter {A} (p : A -> bool) (l : list A)
    (body : A -> M S err) s :
  for_each l (λ a, if p a then body a else ret None) s
  = for_each (filter (λ a, p a = true) l) body s.
Proof.
  revert s. induction l as [|a l IH]; intros s; [done|].
  rewrite filter_cons. cbn [for_each]. destruct (p a) eqn:E.
  - rewrite decide_True by done. cbn [for_each].
    destruct (body a s) as [[e|] s'| |]; by try apply IH.
  - rewrite decide_False by (by intros ?). unfold ret at 1. apply IH.
Qed.

Lemma seqZ_to_nat m n n' : Z.to_nat n = Z.to_nat n' -> seqZ m n = seqZ m n'.
Proof. unfold seqZ. by intros ->. Qed.

Lemma for_le_below lo hi (body : Z -> M S err) s :
  hi < GoInt.max_int ->
  for_le lo hi body s = for_each (seqZ lo (hi - lo + 1)) body s.
Proof.
  intros H. unfold for_le. by destruct (Z.ltb_spec hi GoInt.max_int); [|lia].
Qed.

Lemma for_le_empty lo hi (body : Z -> M S err) s :
  hi < lo -> lo <= GoInt.max_int -> for_le lo hi body s = Returns None s.
Proof.
  intros H Hlo. rewrite for_le_below by lia.
  unfold seqZ. by replace (Z.to_nat (hi - lo + 1)) with 0%nat by lia.
Qed.

End LoopFacts.

(** ** Painting a list of points *)

Lemma known_dec c : {known c} + {colorMap !! c = None}.
Proof.
  unfold known. destruct (colorMap !! c) eqn:E; [left; by eexists | by right].
Qed.

Lemma in_grid_same_size d d' x y :
  Display.maxX d' = Display.maxX d -> Display.maxY d' = Display.maxY d ->
  in_grid d' x y <-> in_grid d x y.
Proof. unfold in_grid. by intros -> ->. Qed.

Lemma paint_runs c pts d :
  wf d -> ∃ e d', paint c pts d = Returns e d' /\ painted c pts d e d'.
Proof.
  revert d. induction pts as [|[x y] pts IH]; intros d Hwf.
  { exists None, d. split; [done|]. split; try done; auto.
    intros _ i j Hin. by apply elem_of_nil in Hin. }
  unfold paint. cbn [for_each fst snd].
  destruct (decide (in_grid d x y)) as [Hin|Hout].
  2:{ rewrite drawPixel_out by done. eexists _, _. split; [done|].
      split; try done; auto.
      split; [done|]. intros [HF _]. by apply Forall_cons in HF as [? _]. }
  destruct (known_dec c) as [Hc|Hc].
  2:{ rewrite drawPixel_unknown by done. eexists _, _. split; [done|].
      split; try done; auto.
      split; [done|]. intros [_ Hk]. destruct Hk as [? Hk]; [done|].
      congruence. }
  destruct (drawPixel_paints d x y c Hwf Hin Hc)
    as (d1 & -> & HX1 & HY1 & Hwf1 & Hcell1).
  destruct (IH d1 Hwf1) as (e & d' & Hrun & [Hwf' HX HY Hfr Hall Hok Herr Hun]).
  fold (paint c pts). rewrite Hrun. exists e, d'. split; [done|].
  split; try done; try congruence.
  - intros i j. destruct (Hfr i j) as [Heq|(Hm & ? & Hg & ?)].
    + rewrite Heq, Hcell1. case_decide as Hp; [|by left].
      destruct Hp as [-> ->]. right.
      split; [apply list_elem_of_here|]. by split; [|split].
    + right. split; [by apply list_elem_of_further|]. split; [done|].
      split; [|done]. by apply (in_grid_same_size d d1).
  - intros He i j Hm. apply elem_of_cons in Hm as [[= -> ->]|Hm]; [|by auto].
    destruct (Hfr x y) as [Heq|(_ & _ & _ & ?)]; [|done].
    rewrite Heq, Hcell1. by rewrite decide_True.
  - rewrite Hok. split.
    + intros [HF _]. split; [|done]. apply Forall_cons. split; [done|].
      eapply Forall_impl; [exact HF|]. intros [a b]. cbn.
      by apply in_grid_same_size.
    + intros [HF _]. apply Forall_cons in HF as [_ HF]. split; [|done].
      eapply Forall_impl; [exact HF|]. intros [a b]. cbn.
      by apply in_grid_same_size.
  - intros HN. destruct Hc as [? Hc]. congruence.
Qed.

(** The run is determined, so its result has these properties. *)
Lemma paint_painted c pts d e d' :
  wf d -> paint c pts d = Returns e d' -> painted c pts d e d'.
Proof.
  intros Hwf Hrun. destruct (paint_runs c pts d Hwf) as (e1 & d1 & Hr & Hp).
  rewrite Hrun in Hr. by injection Hr as <- <-.
Qed.

(** On success the grid is the old one with exactly the points painted. *)
Lemma paint_exact c pts d d' :
  wf d -> paint c pts d = Returns None d' ->
  ∀ i j, cell d' i j = if decide ((i, j) ∈ pts) then Some c else cell d i j.
Proof.
  intros Hwf Hrun i j.
  destruct (paint_painted _ _ _ _ _ Hwf Hrun) as [_ _ _ Hfr Hall _ _ _].
  case_decide as Hm; [by apply Hall|].
  by destruct (Hfr i j) as [?|[? _]].
Qed.

(** ** Invariants of runs *)

Section Preserves.
Context {S : Type} (P : S -> Prop).

Lemma preserves_ret {A} (a : A) : preserves P (ret a).
Proof. intros s b s' HP [= _ <-]. done. Qed.

Lemma preserves_throw {A} p : preserves P (throw (A:=A) p).
Proof. intros s b s' HP [=]. Qed.

Lemma preserves_diverge {A} : preserves P (diverge (A:=A)).
Proof. intros s b s' HP [=]. Qed.

Lemma preserves_bind {A B} (m : M S A) (k : A -> M S B) :
  preserves P m -> (∀ a, preserves P (k a)) -> preserves P (bind m k).
Proof.
  intros Hm Hk s b s' HP. unfold bind.
  destruct (m s) as [a s1| |] eqn:E; [|done..].
  intros Hrun. eapply Hk; [|exact Hrun]. by eapply Hm.
Qed.

Lemma preserves_check (m k : M S err) :
  preserves P m -> preserves P k -> preserves P (check m k).
Proof.
  intros Hm Hk. apply preserves_bind; [done|].
  intros [e|]; [apply preserves_ret | done].
Qed.

Lemma preserves_at_index {A} (l : list A) i : preserves P (at_index l i).
Proof.
  unfold at_index. destruct (index l i);
    [apply preserves_ret | apply preserves_throw].
Qed.

Lemma preserves_slice_from {A} (l : list A) i : preserves P (slice_from l i).
Proof.
  unfold slice_from.
  destruct ((i <? 0) || (Z.of_nat (length l) <? i));
    [apply preserves_throw | apply preserves_ret].
Qed.

Lemma preserves_for_each {A} (l : list A) (body : A -> M S err) :
  (∀ a, preserves P (body a)) -> preserves P (for_each l body).
Proof.
  intros Hb. induction l as [|a l IH]; [apply preserves_ret|].
  intros s e s' HP. cbn.
  destruct (body a s) as [[e1|] s1| |] eqn:E; [| |done..].
  - intros [= <- <-]. by eapply Hb.
  - apply IH. by eapply Hb.
Qed.

Lemma preserves_for_le lo hi (body : Z -> M S err) :
  (∀ a, preserves P (body a)) -> preserves P (for_le lo hi body).
Proof.
  intros Hb. unfold for_le. destruct (hi <? GoInt.max_int).
  - by apply preserves_for_each.
  - apply preserves_bind; [by apply preserves_for_each|].
    intros [e|]; [apply preserves_ret | apply preserves_diverge].
Qed.

Lemma preserves_for_lt lo hi (body : Z -> M S err) :
  (∀ a, preserves P (body a)) -> preserves P (for_lt lo hi body).
Proof. apply preserves_for_each. Qed.

Lemma preserves_interpolate y0 x0 y1 x1 :
  preserves P (Triangle.interpolate y0 x0 y1 x1).
Proof.
  unfold Triangle.interpolate.
  destruct (GoInt.add (GoInt.sub y1 y0) 1 <? 0); [apply preserves_throw|].
  cbv zeta. destruct ((y0 <=? y1) && (y1 =? GoInt.max_int));
    [apply preserves_diverge | apply preserves_ret].
Qed.

End Preserves.

(** An invariant of [drawPixel] is an invariant of every [draw]. *)
Section DrawPreserves.
Context (P : Display.t -> Prop).
Hypothesis drawPixel_keeps : ∀ x y c, preserves P (Display.drawPixel x y c).

Lemma preserves_rectangle r : preserves P (Rectangle.draw r).
Proof.
  intros d e d' HP. unfold Rectangle.draw, Display.getMaxXY.
  destruct (Rectangle.out_of_bounds _ _ _); [by intros [= _ <-]|].
  revert d e d' HP. apply preserves_for_le. intros y.
  apply preserves_for_le. intros x. apply drawPixel_keeps.
Qed.

Lemma preserves_circle c : preserves P (Circle.draw c).
Proof.
  intros d e d' HP. unfold Circle.draw, Display.getMaxXY.
  destruct (Circle.out_of_bounds _ _ _); [by intros [= _ <-]|].
  revert d e d' HP. apply preserves_for_le. intros y.
  apply preserves_for_le. intros x.
  destruct (Circle.in_disk c x y);
    [apply drawPixel_keeps | apply preserves_ret].
Qed.

Lemma preserves_fill c x0 y0 x1 y1 x2 y2 :
  preserves P (Triangle.fill c x0 y0 x1 y1 x2 y2).
Proof.
  unfold Triangle.fill.
  apply preserves_bind; [apply preserves_interpolate|]. intros x01.
  apply preserves_bind; [apply preserves_interpolate|]. intros x12.
  apply preserves_bind; [apply preserves_interpolate|]. intros x02.
  apply preserves_bind; [apply preserves_slice_from|]. intros x12_tail.
  cbv zeta.
  apply preserves_bind; [apply preserves_at_index|]. intros x02_m.
  apply preserves_bind; [apply preserves_at_index|]. intros x012_m.
  destruct (x02_m <? x012_m);
    (apply preserves_for_le; intros y;
     apply preserves_bind; [apply preserves_at_index|]; intros lo;
     apply preserves_bind; [apply preserves_at_index|]; intros hi;
     apply preserves_for_le; intros x; apply drawPixel_keeps).
Qed.

Lemma preserves_triangle t : preserves P (Triangle.draw t).
Proof.
  intros d e d' HP. unfold Triangle.draw, Display.getMaxXY.
  destruct (Triangle.sorted t) as [[[x0 y0] [x1 y1]] [x2 y2]].
  destruct (Triangle.out_of_bounds _ _ _ _ _ _ _ _); [by intros [= _ <-]|].
  by apply preserves_fill.
Qed.

End DrawPreserves.

Lemma drawPixel_cases d x y c e d' :
  wf d -> Display.drawPixel x y c d = Returns e d' ->
  (e = Some PixelOutOfBounds /\ d' = d /\ ~ in_grid d x y)
  \/ (e = Some ColorUnknown /\ d' = d /\ in_grid d x y
      /\ colorMap !! c = None)
  \/ (e = None /\ in_grid d x y /\ known c /\ wf d'
      /\ Display.maxX d' = Display.maxX d
      /\ Display.maxY d' = Display.maxY d
      /\ ∀ i j, cell d' i j
                = if decide (i = x /\ j = y) then Some c else cell d i j).
Proof.
  intros Hwf Hrun.
  destruct (decide (in_grid d x y)) as [Hin|Hout].
  2:{ rewrite drawPixel_out in Hrun by done. injection Hrun as <- <-.
      by left. }
  destruct (known_dec c) as [Hc|Hc].
  2:{ rewrite drawPixel_unknown in Hrun by done.
      injection Hrun as <- <-. right. by left. }
  destruct (drawPixel_paints d x y c Hwf Hin Hc)
    as (d1 & Hrun1 & HX1 & HY1 & Hwf1 & Hcell1).
  rewrite Hrun in Hrun1. injection Hrun1 as -> <-.
  right. right. done.
Qed.

Lemma drawPixel_wf x y c : preserves wf (Display.drawPixel x y c).
Proof.
  intros d e d' Hwf Hrun.
  destruct (drawPixel_cases _ _ _ _ _ _ Hwf Hrun)
    as [(_ & -> & _)|[(_ & -> & _)|(_ & _ & _ & ? & _)]]; done.
Qed.

Lemma clearScreen_wf : preserves wf Display.clearScreen.
Proof.
  intros d u d' [HX HY Hr Hc Hk] Hrun. unfold Display.clearScreen in Hrun.
  injection Hrun as _ <-. split; cbn; try done.
  - by rewrite length_map.
  - apply Forall_fmap. eapply Forall_impl; [exact Hc|].
    intros row Hrow. cbn. by rewrite length_map.
  - apply Forall_fmap. eapply Forall_impl; [exact Hc|].
    intros row _. cbn. apply Forall_fmap, Forall_true. intros c. cbn.
    apply known_white.
Qed.

Lemma initialized_wf d : initialized d -> wf d.
Proof.
  induction 1 as [d0 w h d Hw Hh Hrun | d x y c e d' _ IH Hrun
                 | d d' _ IH Hrun | d r e d' _ IH Hrun
                 | d c e d' _ IH Hrun | d t e d' _ IH Hrun].
  - exact (wf_initialize w h d0 d Hw Hh Hrun).
  - exact (drawPixel_wf x y c d e d' IH Hrun).
  - exact (clearScreen_wf d tt d' IH Hrun).
  - exact (preserves_rectangle wf drawPixel_wf r d e d' IH Hrun).
  - exact (preserves_circle wf drawPixel_wf c d e d' IH Hrun).
  - exact (preserves_triangle wf drawPixel_wf t d e d' IH Hrun).
Qed.

(** * The claims *)

(** ** C3: the transposed write and the plain read *)

(** C3.  On an initialized display, [drawPixel(x, y, c)] fails with
    OutOfBounds exactly when [x] is outside [[0, maxY)] or [y] is outside
    [[0, maxX)]; inside, it fails with UnknownColor when [c] is not in the
    colour table and otherwise stores [c] at row [x], column [y], leaving
    every other cell and the size alone.  [getPixel(x, y)] fails with
    OutOfBounds exactly when [(x, y)] is outside [[0, maxX) × [0, maxY)] and
    otherwise returns the cell at row [y], column [x].  Hence after a
    successful [drawPixel(x, y, c)], [getPixel(y, x)] returns [c]. *)
Theorem drawPixel_getPixel_transposed d x y c :
  initialized d ->
  (Display.drawPixel x y c d = Returns (Some PixelOutOfBounds) d
   <-> ~ (0 <= x < Display.maxY d /\ 0 <= y < Display.maxX d))
  /\ (0 <= x < Display.maxY d /\ 0 <= y < Display.maxX d ->
      colorMap !! c = None ->
      Display.drawPixel x y c d = Returns (Some ColorUnknown) d)
  /\ (0 <= x < Display.maxY d /\ 0 <= y < Display.maxX d ->
      is_Some (colorMap !! c) ->
      ∃ d', Display.drawPixel x y c d = Returns None d'
            /\ Display.getMaxXY d' = Display.getMaxXY d
            /\ (index (Display.matrix d') x
                  ≫= λ row : list Color, index row y) = Some c
            /\ (∀ i j, (i, j) ≠ (x, y) -> cell d' i j = cell d i j)
            /\ Display.getPixel y x d' = Returns (c, None) d')
  /\ (Display.getPixel x y d = Returns (0, Some PixelOutOfBounds) d
      <-> ~ (0 <= x < Display.maxX d /\ 0 <= y < Display.maxY d))
  /\ (0 <= x < Display.maxX d /\ 0 <= y < Display.maxY d ->
      ∃ v, (index (Display.matrix d) y
              ≫= λ row : list Color, index row x) = Some v
           /\ Display.getPixel x y d = Returns (v, None) d).
Proof.
  intros Hinit. pose proof (initialized_wf d Hinit) as Hwf.
  split; [|split; [|split; [|split]]].
  - split.
    + intros Hrun Hin.
      destruct (known_dec c) as [Hc|Hc].
      * destruct (drawPixel_paints d x y c Hwf Hin Hc) as (d1 & Hr & _).
        congruence.
      * rewrite drawPixel_unknown in Hrun by done. congruence.
    + apply drawPixel_out.
  - apply drawPixel_unknown.
  - intros Hin Hc.
    destruct (drawPixel_paints d x y c Hwf Hin Hc)
      as (d1 & Hr & HX & HY & Hwf1 & Hcell).
    exists d1. split; [done|].
    split; [unfold Display.getMaxXY; congruence|].
    pose proof (Hcell x y) as Hxy. rewrite decide_True in Hxy by done.
    split; [exact Hxy|]. split.
    + intros i j Hne. rewrite Hcell. apply decide_False. intros [-> ->]. done.
    + destruct (getPixel_reads d1 y x Hwf1) as (v & Hv & Hget).
      { unfold in_grid. rewrite HX, HY. exact Hin. }
      rewrite Hget. congruence.
  - split.
    + intros Hrun Hin.
      destruct (getPixel_reads d x y Hwf) as (v & _ & Hget).
      { unfold in_grid. tauto. }
      congruence.
    + intros Hout. apply getPixel_out. unfold in_grid. tauto.
  - intros Hin. apply (getPixel_reads d x y Hwf). unfold in_grid. tauto.
Qed.

(** Fresh displays, for the examples. *)
Lemma initialized_fresh w h : 0 <= w -> w <= GoInt.max_int ->
  0 <= h -> h <= GoInt.max_int -> initialized (fresh w h).
Proof.
  intros Hw Hw' Hh Hh'. unfold fresh.
  pose proof (initialize_returns w h Display.zero Hw Hh) as Hrun.
  rewrite Hrun.
  apply (init_initialize Display.zero w h); [| |exact Hrun];
    unfold GoInt.is_int, GoInt.min_int; lia.
Qed.

Lemma fresh_eq w h :
  0 <= w -> 0 <= h ->
  fresh w h = Display.mk w h (replicate (Z.to_nat h)
                                (replicate (Z.to_nat w) white)).
Proof. intros Hw Hh. unfold fresh. by rewrite initialize_returns. Qed.

Lemma cell_fresh w h x y :
  0 <= x < h -> 0 <= y < w -> cell (fresh w h) x y = Some white.
Proof.
  intros Hx Hy. rewrite fresh_eq by lia. unfold cell. cbn.
  rewrite index_replicate by lia. cbn. by rewrite index_replicate by lia.
Qed.

Lemma drawPixel_getPixel_transposed_witness :
  ∃ d', Display.drawPixel 1 2 red (fresh 3 2) = Returns None d'
        /\ Display.getPixel 2 1 d' = Returns (red, None) d'.
Proof.
  assert (initialized (fresh 3 2)) as Hinit by
    (apply initialized_fresh; unfold GoInt.max_int; lia).
  destruct (drawPixel_getPixel_transposed (fresh 3 2) 1 2 red Hinit)
    as (_ & _ & Hdraw & _).
  destruct Hdraw as (d' & Hrun & _ & _ & _ & Hget).
  - rewrite fresh_eq by lia. cbn. lia.
  - by eexists.
  - exists d'. by split.
Defined.

(** ** C10: [initialize] on arbitrary integers *)

(** C10.  [initialize(w, h)] panics in the allocation when [h < 0], and when
    [w < 0] with [h > 0]; it accepts [w = h = 0], and on the resulting
    zero-area grid every [drawPixel] and every [getPixel] fails with
    OutOfBounds. *)
Theorem initialize_not_total d0 :
  (∀ w h, h < 0 -> Display.initialize w h d0 = Panics MakeSliceLen)
  /\ (∀ w h, w < 0 -> 0 < h ->
        Display.initialize w h d0 = Panics MakeSliceLen)
  /\ ∃ d, Display.initialize 0 0 d0 = Returns tt d
          /\ Display.getMaxXY d = (0, 0)
          /\ Display.matrix d = []
          /\ (∀ x y c, Display.drawPixel x y c d
                       = Returns (Some PixelOutOfBounds) d)
          /\ (∀ x y, Display.getPixel x y d
                     = Returns (0, Some PixelOutOfBounds) d).
Proof.
  split; [|split].
  - intros w h. apply initialize_panics_height.
  - intros w h. apply initialize_panics_width.
  - eexists. split; [reflexivity|]. cbn.
    split; [done|]. split; [done|]. split.
    + intros x y c. apply drawPixel_out. unfold in_grid. cbn. lia.
    + intros x y. apply getPixel_out. unfold in_grid. cbn. lia.
Qed.

Lemma initialize_not_total_witness :
  Display.initialize 3 (-2) Display.zero = Panics MakeSliceLen
  /\ Display.initialize (-3) 2 Display.zero = Panics MakeSliceLen.
Proof.
  destruct (initialize_not_total Display.zero) as (Hh & Hw & _).
  split; [apply Hh | apply Hw]; lia.
Defined.

(** ** C5: the rectangle *)

Lemma elem_of_rectangle_points r i j :
  (i, j) ∈ rectangle_points r
  <-> X (Rectangle.LL r) <= i <= X (Rectangle.UR r)
      /\ Y (Rectangle.LL r) <= j <= Y (Rectangle.UR r).
Proof.
  unfold rectangle_points. rewrite list_elem_of_bind. split.
  - intros (y & Hin & Hy).
    apply list_elem_of_fmap in Hin as (x & [= -> ->] & Hx).
    apply elem_of_seqZ in Hx, Hy. lia.
  - intros [Hi Hj]. exists j. split.
    + apply list_elem_of_fmap. exists i. split; [done|].
      apply elem_of_seqZ. lia.
    + apply elem_of_seqZ. lia.
Qed.

Lemma rectangle_in_bounds r d :
  Rectangle.out_of_bounds r (Display.maxX d) (Display.maxY d) = false
  <-> 0 <= X (Rectangle.LL r) /\ 0 <= Y (Rectangle.LL r)
      /\ X (Rectangle.UR r) < Display.maxX d
      /\ Y (Rectangle.UR r) < Display.maxY d.
Proof.
  unfold Rectangle.out_of_bounds.
  destruct (Z.ltb_spec (X (Rectangle.LL r)) 0),
    (Z.ltb_spec (Y (Rectangle.LL r)) 0),
    (Z.geb_spec (X (Rectangle.UR r)) (Display.maxX d)),
    (Z.geb_spec (Y (Rectangle.UR r)) (Display.maxY d)); cbn;
    split; try done; lia.
Qed.

Lemma rectangle_draw_rejects r d :
  Rectangle.out_of_bounds r (Display.maxX d) (Display.maxY d) = true ->
  Rectangle.draw r d = Returns (Some GeometryOutOfBounds) d.
Proof. intros H. unfold Rectangle.draw, Display.getMaxXY. by rewrite H. Qed.

Lemma rectangle_draw_paint r d :
  wf d ->
  Rectangle.out_of_bounds r (Display.maxX d) (Display.maxY d) = false ->
  Rectangle.draw r d = paint (Rectangle.C r) (rectangle_points r) d.
Proof.
  intros Hwf Hb. unfold Rectangle.draw, Display.getMaxXY. rewrite Hb.
  apply rectangle_in_bounds in Hb as (_ & _ & HX & HY).
  destruct Hwf as [[_ HmX] [_ HmY] _ _ _].
  rewrite for_le_below by lia.
  unfold paint, rectangle_points. rewrite for_each_bind.
  apply for_each_ext. intros y s _.
  rewrite for_le_below by lia. by rewrite for_each_fmap.
Qed.

Lemma rectangle_cells r d d' :
  wf d -> Rectangle.draw r d = Returns None d' ->
  Display.getMaxXY d' = Display.getMaxXY d
  /\ ∀ x y,
       cell d' x y
       = if decide (X (Rectangle.LL r) <= x <= X (Rectangle.UR r)
                    /\ Y (Rectangle.LL r) <= y <= Y (Rectangle.UR r))
         then Some (Rectangle.C r) else cell d x y.
Proof.
  intros Hwf Hrun.
  destruct (Rectangle.out_of_bounds r (Display.maxX d) (Display.maxY d))
    eqn:Hb.
  { by rewrite rectangle_draw_rejects in Hrun. }
  rewrite rectangle_draw_paint in Hrun by done.
  pose proof (paint_painted _ _ _ _ _ Hwf Hrun) as Hp.
  split.
  - unfold Display.getMaxXY.
    by rewrite (painted_maxX _ _ _ _ _ Hp), (painted_maxY _ _ _ _ _ Hp).
  - intros x y. rewrite (paint_exact _ _ _ _ Hwf Hrun).
    destruct (decide ((x, y) ∈ rectangle_points r)) as [Hm|Hm];
      rewrite elem_of_rectangle_points in Hm.
    + by rewrite decide_True.
    + by rewrite decide_False.
Qed.

(** C5.  When [Rectangle.draw] returns success on an initialized display,
    the size is unchanged, the cells addressed by the points [(x, y)] with
    [LL.X <= x <= UR.X] and [LL.Y <= y <= UR.Y] hold the rectangle's colour
    and every other cell is as before.  For [LL = (1,1)], [UR = (3,3)] on a
    fresh 10-by-10 grid the draw succeeds and [getPixel] finds the colour at
    exactly the nine pixels with [1 <= x, y <= 3] and white elsewhere.  A
    rectangle that passes the bounds check with [UR] left of or below [LL]
    paints nothing and returns success. *)
Theorem rectangle_fill_exact :
  (∀ r d d', initialized d -> Rectangle.draw r d = Returns None d' ->
     Display.getMaxXY d' = Display.getMaxXY d
     /\ ∀ x y,
          cell d' x y
          = if decide (X (Rectangle.LL r) <= x <= X (Rectangle.UR r)
                       /\ Y (Rectangle.LL r) <= y <= Y (Rectangle.UR r))
            then Some (Rectangle.C r) else cell d x y)
  /\ (∀ c, known c ->
        ∃ d', Rectangle.draw (Rectangle.mk (mkPoint 1 1) (mkPoint 3 3) c)
                             (fresh 10 10) = Returns None d'
              /\ ∀ x y, 0 <= x < 10 -> 0 <= y < 10 ->
                   Display.getPixel x y d'
                   = Returns (if decide (1 <= x <= 3 /\ 1 <= y <= 3)
                              then c else white, None) d')
  /\ (∀ r d, initialized d ->
        Rectangle.out_of_bounds r (Display.maxX d) (Display.maxY d) = false ->
        X (Rectangle.UR r) < X (Rectangle.LL r)
        \/ Y (Rectangle.UR r) < Y (Rectangle.LL r) ->
        Rectangle.draw r d = Returns None d).
Proof.
  pose proof rectangle_cells as Hexact.
  split; [|split].
  - intros r d d' Hinit. apply Hexact. by apply initialized_wf.
  - intros c Hc.
    set (r := Rectangle.mk (mkPoint 1 1) (mkPoint 3 3) c).
    assert (wf (fresh 10 10)) as Hwf.
    { apply initialized_wf, initialized_fresh; unfold GoInt.max_int; lia. }
    assert (Rectangle.draw r (fresh 10 10)
            = paint c (rectangle_points r) (fresh 10 10)) as Hpaint.
    { by apply rectangle_draw_paint. }
    destruct (paint_runs c (rectangle_points r) (fresh 10 10) Hwf)
      as (e & d' & Hrun & Hp).
    assert (e = None) as ->.
    { apply (painted_ok _ _ _ _ _ Hp). split; [|done].
      apply Forall_forall. intros [i j] Hm.
      apply elem_of_rectangle_points in Hm. cbn in Hm.
      unfold in_grid. rewrite fresh_eq by lia. cbn. lia. }
    rewrite <- Hpaint in Hrun.
    exists d'. split; [exact Hrun|]. intros x y Hx Hy.
    destruct (Hexact r _ _ Hwf Hrun) as [Hsize Hcell].
    injection Hsize as HX HY.
    destruct (getPixel_reads d' x y) as (v & Hv & Hget).
    { exact (painted_wf _ _ _ _ _ Hp). }
    { unfold in_grid. rewrite HX, HY. lia. }
    rewrite Hget. f_equal. f_equal.
    rewrite Hcell in Hv. cbn in Hv.
    destruct (decide (1 <= y <= 3 /\ 1 <= x <= 3)) as [Hd|Hd].
    + rewrite decide_True by lia. congruence.
    + rewrite decide_False by lia.
      rewrite cell_fresh in Hv by lia. congruence.
  - intros r d Hinit Hb Hdeg. pose proof (initialized_wf d Hinit) as Hwf.
    rewrite rectangle_draw_paint by done.
    replace (rectangle_points r) with (@nil (Z * Z)); [done|].
    symmetry. apply elem_of_nil_inv. intros [i j] Hm.
    apply elem_of_rectangle_points in Hm. lia.
Qed.

Lemma rectangle_fill_exact_witness :
  ∃ d', Rectangle.draw (Rectangle.mk (mkPoint 0 1) (mkPoint 1 1) blue)
                       (fresh 3 2) = Returns None d'
        /\ cell d' 0 1 = Some blue /\ cell d' 1 1 = Some blue
        /\ cell d' 0 0 = Some white.
Proof.
  assert (initialized (fresh 3 2)) as Hinit by
    (apply initialized_fresh; unfold GoInt.max_int; lia).
  assert (∃ d', Rectangle.draw
                  (Rectangle.mk (mkPoint 0 1) (mkPoint 1 1) blue) (fresh 3 2)
                = Returns None d') as [d' Hrun]
    by (eexists; vm_compute; reflexivity).
  exists d'. split; [done|].
  destruct rectangle_fill_exact as (Hexact & _ & _).
  destruct (Hexact (Rectangle.mk (mkPoint 0 1) (mkPoint 1 1) blue)
                   (fresh 3 2) d' Hinit Hrun) as [_ Hcell].
  split; [exact (Hcell 0 1)|]. split; [exact (Hcell 1 1) | exact (Hcell 0 0)].
Defined.

(** Read back through [getPixel], the rectangle is found transposed: the
    point [(x, y)] of the rectangle is [getPixel(y, x)]. *)
Lemma rectangle_read_transposed r d d' x y :
  initialized d -> Rectangle.draw r d = Returns None d' ->
  X (Rectangle.LL r) <= x <= X (Rectangle.UR r) ->
  Y (Rectangle.LL r) <= y <= Y (Rectangle.UR r) ->
  Display.getPixel y x d' = Returns (Rectangle.C r, None) d'.
Proof.
  intros Hinit Hrun Hx Hy.
  assert (initialized d') as Hinit' by (by eapply init_rectangle).
  pose proof (initialized_wf d' Hinit') as Hwf'.
  destruct rectangle_cells with (r := r) (d := d) (d' := d')
    as [_ Hcell]; [by apply initialized_wf|done|].
  pose proof (Hcell x y) as Hc. rewrite decide_True in Hc by done.
  destruct (getPixel_reads d' y x Hwf') as (v & Hv & ->).
  { apply cell_is_Some; [done|]. by rewrite Hc. }
  congruence.
Qed.

(** Where the two conventions agree, on a square display, a rectangle of a
    known colour that passes the check is drawn without failure. *)
Lemma rectangle_draw_square r d :
  wf d -> Display.maxX d = Display.maxY d -> known (Rectangle.C r) ->
  Rectangle.out_of_bounds r (Display.maxX d) (Display.maxY d) = false ->
  ∃ d', Rectangle.draw r d = Returns None d'.
Proof.
  intros Hwf Hsq Hc Hb. rewrite rectangle_draw_paint by done.
  destruct (paint_runs (Rectangle.C r) (rectangle_points r) d Hwf)
    as (e & d' & -> & Hp).
  exists d'. f_equal. apply (painted_ok _ _ _ _ _ Hp). split; [|done].
  apply rectangle_in_bounds in Hb. apply Forall_forall. intros [i j] Hm.
  apply elem_of_rectangle_points in Hm. unfold in_grid. cbn. lia.
Qed.

(** ** C6: the circle *)

Lemma wrap_int z : GoInt.is_int z -> GoInt.wrap z = z.
Proof.
  intros H. unfold GoInt.wrap. int_numerals.
  rewrite Z.mod_small by lia. lia.
Qed.

Lemma wrap_above z :
  GoInt.max_int < z <= GoInt.max_int + 2 ^ 64 ->
  GoInt.wrap z = z - 2 ^ 64.
Proof.
  intros H. unfold GoInt.wrap. int_numerals.
  replace (z + 9223372036854775808)
    with (z - 9223372036854775808 + 1 * 18446744073709551616) by lia.
  rewrite Z.mod_add by lia. rewrite Z.mod_small by lia. lia.
Qed.

Lemma wrap_below z :
  GoInt.min_int - 2 ^ 64 <= z < GoInt.min_int ->
  GoInt.wrap z = z + 2 ^ 64.
Proof.
  intros H. unfold GoInt.wrap. int_numerals.
  replace (z + 9223372036854775808)
    with (z + 9223372036854775808 + 18446744073709551616
          + (-1) * 18446744073709551616) by lia.
  rewrite Z.mod_add by lia. rewrite Z.mod_small by lia. lia.
Qed.

Lemma circle_draw_rejects c d :
  Circle.out_of_bounds c (Display.maxX d) (Display.maxY d) = true ->
  Circle.draw c d = Returns (Some CircleOutOfBounds) d.
Proof. intros H. unfold Circle.draw, Display.getMaxXY. by rewrite H. Qed.

Lemma circle_draw_paint c d :
  Circle.R c < GoInt.max_int ->
  Circle.out_of_bounds c (Display.maxX d) (Display.maxY d) = false ->
  Circle.draw c d = paint (Circle.C c) (circle_points c) d.
Proof.
  intros HR Hb. unfold Circle.draw, Display.getMaxXY. rewrite Hb.
  rewrite for_le_below by done.
  unfold paint, circle_points. cbv zeta. rewrite for_each_bind.
  apply for_each_ext. intros y s _.
  rewrite for_le_below by done.
  rewrite for_each_fmap. cbn [fst snd].
  by rewrite <- for_each_filter.
Qed.

(** Without overflow the test of the inner loop is the disk inequality. *)
Lemma in_disk_small c x y :
  0 <= Circle.R c < 2 ^ 31 ->
  - Circle.R c <= x <= Circle.R c -> - Circle.R c <= y <= Circle.R c ->
  Circle.in_disk c x y = true <-> x * x + y * y <= Circle.R c * Circle.R c.
Proof.
  intros HR Hx Hy. unfold Circle.in_disk, GoInt.add, GoInt.mul.
  assert (0 <= x * x < 2 ^ 62 /\ 0 <= y * y < 2 ^ 62
          /\ 0 <= Circle.R c * Circle.R c < 2 ^ 62) as (Hxx & Hyy & HRR).
  { change (2 ^ 31) with 2147483648 in HR.
    change (2 ^ 62) with (2147483648 * 2147483648). nia. }
  change (2 ^ 62) with 4611686018427387904 in *.
  rewrite (wrap_int (x * x)), (wrap_int (y * y)),
    (wrap_int (Circle.R c * Circle.R c)) by (int_numerals; lia).
  rewrite wrap_int by (int_numerals; lia).
  apply Z.leb_le.
Qed.

Lemma elem_of_circle_points c i j :
  0 <= Circle.R c < 2 ^ 31 ->
  (i, j) ∈ circle_points c
  <-> ∃ x y, x * x + y * y <= Circle.R c * Circle.R c
             /\ i = GoInt.add (X (Circle.CP c)) x
             /\ j = GoInt.add (Y (Circle.CP c)) y.
Proof.
  intros HR. unfold circle_points. cbv zeta.
  assert (GoInt.neg (Circle.R c) = - Circle.R c) as ->.
  { unfold GoInt.neg. apply wrap_int. int_numerals. lia. }
  rewrite list_elem_of_bind. split.
  - intros (y & Hin & Hy).
    apply list_elem_of_fmap in Hin as (x & [= -> ->] & Hx).
    apply list_elem_of_filter in Hx as [Hd Hx].
    apply elem_of_seqZ in Hx, Hy.
    exists x, y. split; [|done]. apply in_disk_small in Hd; [done..|lia|lia].
  - intros (x & y & Hd & -> & ->).
    assert (- Circle.R c <= x <= Circle.R c /\ - Circle.R c <= y <= Circle.R c)
      as [Hx Hy] by nia.
    exists y. split.
    + apply list_elem_of_fmap. exists x. split; [done|].
      apply list_elem_of_filter. split.
      * by apply in_disk_small.
      * apply elem_of_seqZ. lia.
    + apply elem_of_seqZ. lia.
Qed.

(** When a circle that passed the check is drawn without failure, none of
    its coordinates wrapped around. *)
Lemma circle_no_wrap c d :
  wf d -> GoInt.is_int (X (Circle.CP c)) -> GoInt.is_int (Y (Circle.CP c)) ->
  0 <= Circle.R c < 2 ^ 31 ->
  Forall (λ p, in_grid d p.1 p.2) (circle_points c) ->
  0 <= X (Circle.CP c) - Circle.R c
  /\ X (Circle.CP c) + Circle.R c <= GoInt.max_int
  /\ 0 <= Y (Circle.CP c) - Circle.R c
  /\ Y (Circle.CP c) + Circle.R c <= GoInt.max_int.
Proof.
  intros Hwf HcX HcY HR Hall.
  assert (∀ x y, x * x + y * y <= Circle.R c * Circle.R c ->
                 0 <= GoInt.add (X (Circle.CP c)) x
                 /\ 0 <= GoInt.add (Y (Circle.CP c)) y) as Hpt.
  { intros x y Hd.
    assert ((GoInt.add (X (Circle.CP c)) x, GoInt.add (Y (Circle.CP c)) y)
            ∈ circle_points c) as Hm.
    { apply elem_of_circle_points; [done|]. by exists x, y. }
    rewrite Forall_forall in Hall. apply Hall in Hm as [? ?]. cbn in *. lia. }
  assert (∀ a r, GoInt.is_int a -> 0 <= r < 2 ^ 31 ->
                 0 <= GoInt.add a r -> 0 <= GoInt.add a (- r) ->
                 0 <= a - r /\ a + r <= GoInt.max_int) as Hside.
  { intros a r Ha Hr Hup Hdown. unfold GoInt.add in *.
    destruct (Z.le_gt_cases (a + r) GoInt.max_int) as [Hle|Hgt].
    - rewrite (wrap_int (a + r)) in Hup by (int_numerals; lia).
      rewrite (wrap_int (a + - r)) in Hdown by (int_numerals; lia).
      lia.
    - rewrite wrap_above in Hup by (int_numerals; lia).
      int_numerals. lia. }
  destruct (Hpt (Circle.R c) 0) as [HxR _]; [lia|].
  destruct (Hpt (- Circle.R c) 0) as [HxL _]; [lia|].
  destruct (Hpt 0 (Circle.R c)) as [_ HyR]; [lia|].
  destruct (Hpt 0 (- Circle.R c)) as [_ HyL]; [lia|].
  destruct (Hside _ _ HcX HR HxR HxL). destruct (Hside _ _ HcY HR HyR HyL).
  done.
Qed.

Lemma circle_exact c d d' :
  wf d -> GoInt.is_int (X (Circle.CP c)) -> GoInt.is_int (Y (Circle.CP c)) ->
  0 <= Circle.R c < 2 ^ 31 ->
  Circle.draw c d = Returns None d' ->
  Display.getMaxXY d' = Display.getMaxXY d
  /\ ∀ dx dy,
       cell d' (X (Circle.CP c) + dx) (Y (Circle.CP c) + dy)
       = if decide (dx * dx + dy * dy <= Circle.R c * Circle.R c)
         then Some (Circle.C c)
         else cell d (X (Circle.CP c) + dx) (Y (Circle.CP c) + dy).
Proof.
  intros Hwf HcX HcY HR Hrun.
  destruct (Circle.out_of_bounds c (Display.maxX d) (Display.maxY d)) eqn:Hb.
  { by rewrite circle_draw_rejects in Hrun. }
  rewrite circle_draw_paint in Hrun by (done || (int_numerals; lia)).
  pose proof (paint_painted _ _ _ _ _ Hwf Hrun) as Hp.
  split.
  { unfold Display.getMaxXY.
    by rewrite (painted_maxX _ _ _ _ _ Hp), (painted_maxY _ _ _ _ _ Hp). }
  destruct (proj1 (painted_ok _ _ _ _ _ Hp) eq_refl) as [Hall _].
  destruct (circle_no_wrap c d Hwf HcX HcY HR Hall) as (HxL & HxR & HyL & HyR).
  intros dx dy. rewrite (paint_exact _ _ _ _ Hwf Hrun).
  assert (∀ a x, GoInt.is_int a -> 0 <= a - Circle.R c ->
                 a + Circle.R c <= GoInt.max_int ->
                 - Circle.R c <= x <= Circle.R c -> GoInt.add a x = a + x)
    as Hadd.
  { intros a x Ha H1 H2 Hx. apply wrap_int. int_numerals. lia. }
  destruct (decide (dx * dx + dy * dy <= Circle.R c * Circle.R c)) as [Hd|Hd].
  - rewrite decide_True; [done|].
    apply elem_of_circle_points; [done|]. exists dx, dy.
    split; [done|]. rewrite !Hadd; (done || nia).
  - rewrite decide_False; [done|]. intros Hm.
    apply elem_of_circle_points in Hm as (x & y & Hxy & Hi & Hj); [|done].
    rewrite Hadd in Hi, Hj by (done || nia).
    apply Hd. by replace dx with x by lia; replace dy with y by lia.
Qed.

(** C6, as the code has it.  For a radius [0 <= R < 2^31], on an
    initialized display, when [Circle.draw] returns success the pixel at
    offset [(dx, dy)] from the centre holds the circle's colour if
    [dx² + dy² <= R²] and is as before otherwise.  For [CP = (5,5)], [R = 2]
    on a fresh 12-by-12 grid the draw succeeds, offset [(2, 0)] is painted
    and offset [(2, 2)] is not. *)
Theorem circle_disk_membership :
  (∀ c d d', initialized d ->
     GoInt.is_int (X (Circle.CP c)) -> GoInt.is_int (Y (Circle.CP c)) ->
     0 <= Circle.R c < 2 ^ 31 ->
     Circle.draw c d = Returns None d' ->
     Display.getMaxXY d' = Display.getMaxXY d
     /\ ∀ dx dy,
          cell d' (X (Circle.CP c) + dx) (Y (Circle.CP c) + dy)
          = if decide (dx * dx + dy * dy <= Circle.R c * Circle.R c)
            then Some (Circle.C c)
            else cell d (X (Circle.CP c) + dx) (Y (Circle.CP c) + dy))
  /\ (∀ col, known col ->
        ∃ d', Circle.draw (Circle.mk (mkPoint 5 5) 2 col) (fresh 12 12)
              = Returns None d'
              /\ (∀ dx dy, 0 <= 5 + dx < 12 -> 0 <= 5 + dy < 12 ->
                    Display.getPixel (5 + dx) (5 + dy) d'
                    = Returns (if decide (dx * dx + dy * dy <= 4)
                               then col else white, None) d')
              /\ Display.getPixel (5 + 2) (5 + 0) d' = Returns (col, None) d'
              /\ Display.getPixel (5 + 2) (5 + 2) d'
                 = Returns (white, None) d').
Proof.
  split.
  { intros c d d' Hinit. apply circle_exact. by apply initialized_wf. }
  intros col Hcol. set (c := Circle.mk (mkPoint 5 5) 2 col).
  assert (wf (fresh 12 12)) as Hwf.
  { apply initialized_wf, initialized_fresh; unfold GoInt.max_int; lia. }
  assert (Circle.draw c (fresh 12 12)
          = paint col (circle_points c) (fresh 12 12)) as Hpaint.
  { apply circle_draw_paint; [int_numerals; cbn; lia | reflexivity]. }
  destruct (paint_runs col (circle_points c) (fresh 12 12) Hwf)
    as (e & d' & Hrun & Hp).
  assert (e = None) as ->.
  { apply (painted_ok _ _ _ _ _ Hp). split; [|done].
    apply Forall_forall. intros [i j] Hm.
    apply elem_of_circle_points in Hm as (x & y & Hd & -> & ->);
      [|int_numerals; cbn; lia].
    cbn in Hd. assert (-2 <= x <= 2 /\ -2 <= y <= 2) as [Hx Hy] by nia.
    unfold in_grid. rewrite fresh_eq by lia. cbn.
    unfold GoInt.add. rewrite !wrap_int by (int_numerals; lia). lia. }
  rewrite <- Hpaint in Hrun. exists d'. split; [exact Hrun|].
  destruct (circle_exact c (fresh 12 12) d' Hwf) as [Hsize Hcell];
    [int_numerals; cbn; lia..|exact Hrun|].
  injection Hsize as HX HY.
  assert (∀ dx dy, 0 <= 5 + dx < 12 -> 0 <= 5 + dy < 12 ->
            Display.getPixel (5 + dx) (5 + dy) d'
            = Returns (if decide (dx * dx + dy * dy <= 4)
                       then col else white, None) d') as Hget.
  { intros dx dy Hx Hy.
    destruct (getPixel_reads d' (5 + dx) (5 + dy)) as (v & Hv & Hget).
    { exact (painted_wf _ _ _ _ _ Hp). }
    { unfold in_grid. rewrite HX, HY. lia. }
    rewrite Hget. f_equal. f_equal.
    pose proof (Hcell dy dx) as Hc. cbn in Hc. rewrite Hv in Hc.
    destruct (decide (dx * dx + dy * dy <= 4)) as [Hd|Hd].
    - rewrite decide_True in Hc by lia. congruence.
    - rewrite decide_False in Hc by lia.
      rewrite cell_fresh in Hc by lia. congruence. }
  split; [exact Hget|]. split.
  - rewrite Hget by lia. by rewrite decide_True by lia.
  - rewrite Hget by lia. by rewrite decide_False by lia.
Qed.

Lemma circle_disk_membership_witness :
  ∃ d', Circle.draw (Circle.mk (mkPoint 5 5) 2 blue) (fresh 12 12)
        = Returns None d'
        /\ cell d' (5 + 2) (5 + 0) = Some blue
        /\ cell d' (5 + 2) (5 + 2) = Some white.
Proof.
  assert (initialized (fresh 12 12)) as Hinit by
    (apply initialized_fresh; unfold GoInt.max_int; lia).
  assert (∃ d', Circle.draw (Circle.mk (mkPoint 5 5) 2 blue) (fresh 12 12)
                = Returns None d') as [d' Hrun]
    by (eexists; vm_compute; reflexivity).
  exists d'. split; [done|].
  destruct circle_disk_membership as [Hexact _].
  destruct (Hexact (Circle.mk (mkPoint 5 5) 2 blue) (fresh 12 12) d' Hinit)
    as [_ Hcell]; [int_numerals; cbn; lia..|exact Hrun|].
  split; [exact (Hcell 2 0) | exact (Hcell 2 2)].
Defined.

(** The claim C6 as it was stated, without a condition on the radius, fails
    for a negative radius: the circle with centre [(5, 5)] and radius [-2]
    passes the bounds check on a 12-by-12 grid and its loops are empty, so
    [draw] succeeds while the pixel at offset [(0, 0)], for which
    [0 <= (-2)²], keeps its colour. *)
Lemma circle_negative_radius_counterexample :
  ~ (∀ d', Circle.draw (Circle.mk (mkPoint 5 5) (-2) blue) (fresh 12 12)
           = Returns None d' ->
           ∀ dx dy, dx * dx + dy * dy <= (-2) * (-2) ->
             cell d' (5 + dx) (5 + dy) = Some blue).
Proof.
  intros H.
  assert (cell (fresh 12 12) (5 + 0) (5 + 0) = Some blue) as Hcell.
  { apply H; [reflexivity | lia]. }
  rewrite cell_fresh in Hcell by lia. discriminate Hcell.
Qed.

(** ** C1: how far a draw is all-or-nothing *)

(** What does hold of a failed draw, for the three shapes and any display:
    a shape that fails its check is refused before any call of [drawPixel];
    past the check the only failures are those of [drawPixel], UnknownColor
    only for a colour outside the table, and a draw in such a colour leaves
    the grid as it was.  Nothing is said of a draw that ends on the
    OutOfBounds of [drawPixel]. *)

Section Steps.
Context {S : Type} (I : S -> Prop) (R : error -> Prop).

Lemma steps_ret_None : steps I R (ret None).
Proof. intros s e s' HI [= <- <-]. split; [done|]. by intros er. Qed.




End Steps.










(** ** C2: the triangle with a flat top *)

(** C2 at its own input.  The triangle [(0,0), (4,0), (0,4)] is drawn with
    success on a fresh 10-by-10 display, but the first edge, between the two
    vertices with [y = 0], is the single value [x0 = 0], and it is the first
    value of the second edge that is dropped: scanline 0 gets one pixel
    where it should get five.  The runs have lengths 1, 4, 3, 2, 1, which
    do not decrease from row 0 to row 1.  Read through [getPixel] the rows
    are [0..4], [1..3], [1..2], [1], and none: the run of row 1 does not
    start at 0 and row 4 is empty. *)
Theorem triangle_flat_top_row :
  ∃ d', Triangle.draw
          (Triangle.mk (mkPoint 0 0) (mkPoint 4 0) (mkPoint 0 4) red)
          (fresh 10 10) = Returns None d'
        /\ scanline d' red 10 <$> [0; 1; 2; 3; 4]
           = [[0]; [0; 1; 2; 3]; [0; 1; 2]; [0; 1]; [0]]
        /\ scanline_read d' red 10 <$> [0; 1; 2; 3; 4]
           = [[0; 1; 2; 3; 4]; [1; 2; 3]; [1; 2]; [1]; []].
Proof. eexists. split; [|split]; vm_compute; reflexivity. Qed.

(** ** C7: the text of the file *)

Lemma string_app_assoc (a b c : string) : (a +:+ b) +:+ c = a +:+ (b +:+ c).
Proof.
  induction a as [|ch a IH]; [done|].
  change (String ch ((a +:+ b) +:+ c) = String ch (a +:+ (b +:+ c))).
  by rewrite IH.
Qed.

Lemma string_app_nil_r (a : string) : a +:+ "" = a.
Proof.
  induction a as [|ch a IH]; [done|].
  change (String ch (a +:+ "") = String ch a). by rewrite IH.
Qed.

Lemma string_length_app (a b : string) :
  String.length (a +:+ b) = (String.length a + String.length b)%nat.
Proof.
  induction a as [|ch a IH]; [done|].
  change (S (String.length (a +:+ b))
          = S (String.length a + String.length b)). by rewrite IH.
Qed.

(** What [screenShot] prints is what the format asks for: the pixel, the
    end of a row and the header. *)
Lemma triple_text c color :
  colorMap !! c = Some color -> Screen.triple color = pixel_text c.
Proof. intros Hc. unfold pixel_text. rewrite Hc. by destruct color. Qed.

Lemma nl_LF : nl = LF.
Proof. reflexivity. Qed.

Lemma header_text d :
  Screen.header (Display.maxX d) (Display.maxY d)
  = "P3" +:+ LF +:+ pretty (Display.maxX d) +:+ " "
    +:+ pretty (Display.maxY d) +:+ LF +:+ "255" +:+ LF.
Proof. reflexivity. Qed.

Section ScreenShot.
Context (file : string).

Lemma appended_nil old o :
  OS.files o !! file = Some old -> appended file old "" o = o.
Proof.
  intros H. unfold appended, OS.set_files. rewrite string_app_nil_r.
  rewrite insert_id by done. by destruct o.
Qed.

Lemma appended_files old text o :
  OS.files (appended file old text o) !! file = Some (old +:+ text).
Proof. cbn. apply lookup_insert_eq. Qed.

Lemma appended_twice old t1 t2 o :
  appended file (old +:+ t1) t2 (appended file old t1 o)
  = appended file old (t1 +:+ t2) o.
Proof.
  unfold appended, OS.set_files. cbn.
  by rewrite insert_insert_eq, string_app_assoc.
Qed.

Lemma Fprint_appends old text o :
  OS.files o !! file = Some old ->
  (String.length (old +:+ text) <= OS.limit o)%nat ->
  OS.Fprint file text o = Returns None (appended file old text o).
Proof.
  intros Hold Hlim. unfold OS.Fprint. rewrite Hold.
  by rewrite decide_True by done.
Qed.

Context (d : Display.t).

Lemma screenShot_unfold filename o :
  file = filename +:+ ".ppm" ->
  Screen.screenShot filename d o
  = check (OS.Create file)
      (check (OS.Fprint file (Screen.header (Display.maxX d) (Display.maxY d)))
         (for_lt 0 (Display.maxY d) (row_step file d))) o.
Proof. intros Hf. unfold Screen.screenShot. by rewrite <- Hf. Qed.

Lemma pixels_written y row :
  index (Display.matrix d) y = Some row -> Forall known row ->
  ∀ (n k : nat) old o,
    (k + n = length row)%nat ->
    OS.files o !! file = Some old ->
    (String.length (old +:+ cells_text (drop k row)) <= OS.limit o)%nat ->
    for_each (seqZ (Z.of_nat k) (Z.of_nat n)) (pixel_step file d y) o
    = Returns None (appended file old (cells_text (drop k row)) o).
Proof.
  intros Hrow Hknown n.
  induction n as [|n IH]; intros k old o Hlen Hold Hlim.
  { rewrite drop_ge by lia. cbn. by rewrite appended_nil. }
  destruct (lookup_lt_is_Some_2 row k) as [c Hc]; [lia|].
  rewrite (drop_S _ _ _ Hc) in *. cbn [cells_text foldr] in *.
  fold (cells_text (drop (S k) row)) in *.
  rewrite seqZ_cons by lia. cbn [for_each].
  replace (Z.succ (Z.of_nat k)) with (Z.of_nat (S k)) by lia.
  replace (Z.pred (Z.of_nat (S n))) with (Z.of_nat n) by lia.
  assert (pixel_step file d y (Z.of_nat k) o
          = Returns None (appended file old (pixel_text c) o)) as ->.
  { unfold pixel_step, bind, at_index. rewrite Hrow. cbn.
    assert (index row (Z.of_nat k) = Some c) as ->.
    { apply index_Some. split; [lia|]. by rewrite Nat2Z.id. }
    cbn. destruct (Forall_lookup_1 _ _ _ _ Hknown Hc) as [rgb Hrgb].
    rewrite Hrgb, (triple_text c rgb Hrgb). apply Fprint_appends; [done|].
    rewrite !string_length_app in *. lia. }
  rewrite (IH (S k) (old +:+ pixel_text c)).
  - by rewrite appended_twice.
  - lia.
  - apply appended_files.
  - cbn. by rewrite string_app_assoc.
Qed.

Lemma rows_written :
  Forall (λ row : list Color, length row = Z.to_nat (Display.maxX d))
         (Display.matrix d) ->
  Forall (Forall known) (Display.matrix d) ->
  ∀ (n k : nat) old o,
    (k + n = length (Display.matrix d))%nat ->
    OS.files o !! file = Some old ->
    (String.length (old +:+ rows_text (drop k (Display.matrix d)))
     <= OS.limit o)%nat ->
    for_each (seqZ (Z.of_nat k) (Z.of_nat n)) (row_step file d) o
    = Returns None
        (appended file old (rows_text (drop k (Display.matrix d))) o).
Proof.
  intros Hcols Hknown n.
  induction n as [|n IH]; intros k old o Hlen Hold Hlim.
  { rewrite drop_ge by lia. cbn. by rewrite appended_nil. }
  destruct (lookup_lt_is_Some_2 (Display.matrix d) k) as [row Hrow]; [lia|].
  rewrite (drop_S _ _ _ Hrow) in *. cbn [rows_text foldr] in *.
  fold (rows_text (drop (S k) (Display.matrix d))) in *.
  rewrite seqZ_cons by lia. cbn [for_each].
  replace (Z.succ (Z.of_nat k)) with (Z.of_nat (S k)) by lia.
  replace (Z.pred (Z.of_nat (S n))) with (Z.of_nat n) by lia.
  pose proof (Forall_lookup_1 _ _ _ _ Hcols Hrow) as Hwidth. cbn in Hwidth.
  pose proof (Forall_lookup_1 _ _ _ _ Hknown Hrow) as Hkrow.
  assert (row_step file d (Z.of_nat k) o
          = Returns None (appended file old (row_text row) o)) as ->.
  { unfold row_step, check, bind, for_lt. rewrite nl_LF.
    assert (index (Display.matrix d) (Z.of_nat k) = Some row) as Hidx.
    { apply index_Some. split; [lia|]. by rewrite Nat2Z.id. }
    pose proof (pixels_written _ _ Hidx Hkrow (length row) 0 old o) as Hpix.
    rewrite drop_0 in Hpix.
    replace (seqZ 0 (Display.maxX d - 0))
      with (seqZ (Z.of_nat 0) (Z.of_nat (length row)))
      by (apply seqZ_to_nat; lia).
    rewrite Hpix; [|lia|done|].
    2:{ unfold row_text in Hlim. rewrite !string_length_app in *. lia. }
    rewrite (Fprint_appends (old +:+ cells_text row)).
    - unfold row_text. by rewrite appended_twice.
    - apply appended_files.
    - cbn. unfold row_text in Hlim. rewrite !string_length_app in *. lia. }
  rewrite (IH (S k) (old +:+ row_text row)).
  - by rewrite appended_twice.
  - lia.
  - apply appended_files.
  - cbn. by rewrite string_app_assoc.
Qed.

End ScreenShot.

(** C7.  For a display whose grid has its declared size and whose cells all
    hold colours of the table, when the path can be created and the text
    fits the file-size limit, [screenShot(name)] returns [nil] and leaves
    under [name + ".ppm"], whatever was there before, exactly [ppm_text]: the
    header ["P3\n<maxX> <maxY>\n255\n"], then the [maxY] rows in storage
    order, each the ["R G B "] triples of its [maxX] cells and a newline.
    The example is a display of three columns and two rows with one orange
    cell, whose three channels differ. *)
Theorem screenShot_format filename d o :
  wf d ->
  filename +:+ ".ppm" ∉ OS.locked o ->
  (String.length (ppm_text d) <= OS.limit o)%nat ->
  Screen.screenShot filename d o
  = Returns None
      (OS.set_files (<[filename +:+ ".ppm" := ppm_text d]> (OS.files o)) o)
  /\ length (Display.matrix d) = Z.to_nat (Display.maxY d)
  /\ Forall (λ row : list Color, length row = Z.to_nat (Display.maxX d))
            (Display.matrix d).
Proof.
  intros [HX HY Hrows Hcols Hknown] Hfree Hlim.
  split; [|done].
  set (file := filename +:+ ".ppm") in *.
  rewrite (screenShot_unfold file) by done.
  unfold check at 1. unfold bind, OS.Create.
  rewrite decide_False by done.
  set (o1 := OS.set_files (<[file := ""%string]> (OS.files o)) o).
  unfold check, bind.
  assert (OS.files o1 !! file = Some ""%string) as Hnew
    by apply lookup_insert_eq.
  unfold ppm_text in *. rewrite <- (header_text d) in *.
  set (header := Screen.header (Display.maxX d) (Display.maxY d)) in *.
  rewrite (Fprint_appends file "" header o1 Hnew).
  2:{ change ("" +:+ header) with header.
      change (OS.limit o1) with (OS.limit o).
      rewrite string_length_app in Hlim. lia. }
  unfold for_lt.
  replace (seqZ 0 (Display.maxY d - 0))
    with (seqZ (Z.of_nat 0) (Z.of_nat (length (Display.matrix d))))
    by (apply seqZ_to_nat; lia).
  rewrite (rows_written file d Hcols Hknown _ 0 ("" +:+ header)).
  - rewrite drop_0. f_equal. unfold appended, o1, OS.set_files. cbn.
    by rewrite !insert_insert_eq.
  - lia.
  - apply appended_files.
  - by rewrite drop_0.
Qed.

Lemma screenShot_format_witness :
  ∃ d, Display.drawPixel 0 1 orange (fresh 3 2) = Returns None d
       /\ ∃ o, Screen.screenShot "out" d
                 (OS.mk {["out.ppm" := "old"]} ∅ 100)
               = Returns None o
               /\ OS.files o !! "out.ppm"
                  = Some ("P3" +:+ LF +:+ "3 2" +:+ LF +:+ "255" +:+ LF
                          +:+ "255 255 255 255 164 0 255 255 255 " +:+ LF
                          +:+ "255 255 255 255 255 255 255 255 255 " +:+ LF
                         )%string.
Proof.
  assert (initialized (fresh 3 2)) as Hinit by
    (apply initialized_fresh; unfold GoInt.max_int; lia).
  assert (∃ d, Display.drawPixel 0 1 orange (fresh 3 2) = Returns None d)
    as [d Hd] by (eexists; vm_compute; reflexivity).
  exists d. split; [done|].
  assert (wf d) as Hwf.
  { eapply initialized_wf, init_drawPixel; [exact Hinit | exact Hd]. }
  assert (ppm_text d
          = ("P3" +:+ LF +:+ "3 2" +:+ LF +:+ "255" +:+ LF
             +:+ "255 255 255 255 164 0 255 255 255 " +:+ LF
             +:+ "255 255 255 255 255 255 255 255 255 " +:+ LF)%string)
    as Htext.
  { revert Hd. vm_compute. intros [= <-]. reflexivity. }
  destruct (screenShot_format "out" d (OS.mk {["out.ppm" := "old"]} ∅ 100)
              Hwf) as [Hrun _].
  - apply not_elem_of_empty.
  - rewrite Htext. vm_compute. lia.
  - eexists. split; [exact Hrun|]. cbn. rewrite lookup_insert_eq.
    by rewrite Htext.
Defined.

(** ** C4: the colours of the grid *)

Lemma for_each_returns {S A} (Q : err -> Prop) (l : list A)
    (body : A -> M S err) :
  Q None ->
  (∀ a s, a ∈ l -> ∃ e s', body a s = Returns e s' /\ Q e) ->
  ∀ s, ∃ e s', for_each l body s = Returns e s' /\ Q e.
Proof.
  intros HQ. induction l as [|a l IH]; intros Hbody s.
  { by exists None, s. }
  cbn. destruct (Hbody a s) as (e & s' & -> & He); [apply list_elem_of_here|].
  destruct e as [e|]; [by eexists _, _|].
  apply IH. intros b s1 Hb. apply Hbody. by apply list_elem_of_further.
Qed.

Lemma Fprint_returns file text o :
  ∃ e o', OS.Fprint file text o = Returns e o' /\ not_invalid e.
Proof.
  unfold OS.Fprint. destruct (OS.files o !! file); [case_decide|];
    eexists _, _; (split; [done|]); by intros x y.
Qed.

Lemma screenShot_returns filename d o :
  wf d ->
  ∃ e o', Screen.screenShot filename d o = Returns e o' /\ not_invalid e.
Proof.
  intros Hwf. rewrite (screenShot_unfold (filename +:+ ".ppm")) by done.
  set (file := filename +:+ ".ppm").
  unfold check at 1. unfold bind, OS.Create.
  case_decide; [eexists _, _; split; [done|by intros x y]|].
  unfold check at 1. unfold bind.
  destruct (Fprint_returns file
              (Screen.header (Display.maxX d) (Display.maxY d))
              (OS.set_files (<[file:=""%string]> (OS.files o)) o))
    as (e & o1 & -> & He).
  destruct e as [e|]; [by eexists _, _|].
  apply for_each_returns; [by intros x y|].
  intros y o2 Hy. apply elem_of_seqZ in Hy.
  destruct (wf_row d y Hwf) as (row & Hrow & Hlen & Hknown); [lia|].
  unfold row_step, check, bind, for_lt.
  destruct (for_each_returns not_invalid (seqZ 0 (Display.maxX d - 0))
              (pixel_step file d y)) with (s := o2) as (e & o3 & -> & He').
  { by intros x y'. }
  { intros x o3 Hx. apply elem_of_seqZ in Hx.
    unfold pixel_step, bind, at_index. rewrite Hrow. cbn.
    destruct (index_in_range row x) as [c Hc]; [lia|]. rewrite Hc. cbn.
    apply index_Some in Hc as [_ Hc].
    destruct (Forall_lookup_1 _ _ _ _ Hknown Hc) as [rgb ->].
    apply Fprint_returns. }
  destruct e as [e|]; [by eexists _, _|]. apply Fprint_returns.
Qed.

(** C4.  After [initialize(w, h)] with positive [w] and [h], [getMaxXY]
    returns [(w, h)] and [getPixel(x, y)] returns white for all
    [0 <= x < w], [0 <= y < h].  Every cell of a display that was
    initialized and then used through [drawPixel], [clearScreen] and the
    shapes' [draw] holds a colour of the table, so that [screenShot] on such
    a display returns without ever reporting an invalid colour. *)
Theorem grid_colour_invariant :
  (∀ w h d0, 0 < w <= GoInt.max_int -> 0 < h <= GoInt.max_int ->
     ∃ d, Display.initialize w h d0 = Returns tt d
          /\ Display.getMaxXY d = (w, h)
          /\ ∀ x y, 0 <= x < w -> 0 <= y < h ->
               Display.getPixel x y d = Returns (white, None) d)
  /\ (∀ d, initialized d ->
        Forall (Forall (λ c, is_Some (colorMap !! c))) (Display.matrix d))
  /\ (∀ d filename o, initialized d ->
        ∃ e o', Screen.screenShot filename d o = Returns e o'
                /\ ∀ x y, e ≠ Some (InvalidColor x y)).
Proof.
  split; [|split].
  - intros w h d0 Hw Hh.
    pose proof (initialize_returns w h d0 ltac:(lia) ltac:(lia)) as Hrun.
    eexists. split; [exact Hrun|]. split; [done|].
    intros x y Hx Hy.
    set (d := Display.mk w h _) in *.
    assert (wf d) as Hwf.
    { apply (wf_initialize w h d0); [| |done]; int_numerals; lia. }
    destruct (getPixel_reads d x y Hwf) as (c & Hc & ->).
    { unfold in_grid. cbn. lia. }
    unfold cell in Hc. cbn in Hc.
    rewrite index_replicate in Hc by lia. cbn in Hc.
    rewrite index_replicate in Hc by lia. congruence.
  - intros d Hinit. exact (wf_known d (initialized_wf d Hinit)).
  - intros d filename o Hinit.
    apply screenShot_returns. by apply initialized_wf.
Qed.

Lemma grid_colour_invariant_witness :
  Display.getPixel 2 1 (fresh 3 2) = Returns (white, None) (fresh 3 2)
  /\ Forall (Forall (λ c, is_Some (colorMap !! c)))
            (Display.matrix (fresh 3 2)).
Proof.
  destruct grid_colour_invariant as (Hfresh & Hknown & _).
  split.
  - destruct (Hfresh 3 2 Display.zero) as (d & Hrun & _ & Hget);
      [int_numerals; lia..|].
    unfold fresh. rewrite Hrun. apply Hget; lia.
  - apply Hknown, initialized_fresh; int_numerals; lia.
Defined.

(** ** float64 values *)

Section Mantissa.

Lemma digits2_pos_bounds p :
  2 ^ (Z.pos (digits2_pos p) - 1) <= Z.pos p < 2 ^ Z.pos (digits2_pos p).
Proof.
  induction p as [p IH|p IH|]; cbn [digits2_pos].
  - rewrite Pos2Z.inj_succ, (Pos2Z.inj_xI p).
    replace (Z.succ (Z.pos (digits2_pos p)) - 1)
      with (Z.succ (Z.pos (digits2_pos p) - 1)) by lia.
    rewrite !Z.pow_succ_r by lia. lia.
  - rewrite Pos2Z.inj_succ, (Pos2Z.inj_xO p).
    replace (Z.succ (Z.pos (digits2_pos p)) - 1)
      with (Z.succ (Z.pos (digits2_pos p) - 1)) by lia.
    rewrite !Z.pow_succ_r by lia. lia.
  - cbn. lia.
Qed.

(** One right shift halves a positive mantissa and keeps the others
    non-positive. *)
Lemma shr_1_halves mrs :
  (shr_m mrs <= 0 -> shr_m (shr_1 mrs) <= 0)
  /\ (0 < shr_m (shr_1 mrs) -> 2 * shr_m (shr_1 mrs) <= shr_m mrs).
Proof.
  destruct mrs as [[|[p|p|]|[p|p|]] r s]; cbn; lia.
Qed.

Lemma iter_shr_1 n :
  ∀ mrs,
    (shr_m mrs <= 0 -> shr_m (SpecFloat.iter_pos shr_1 n mrs) <= 0)
    /\ (0 < shr_m (SpecFloat.iter_pos shr_1 n mrs) ->
        2 ^ Z.pos n * shr_m (SpecFloat.iter_pos shr_1 n mrs) <= shr_m mrs).
Proof.
  induction n as [n IH|n IH|]; intros mrs; cbn [SpecFloat.iter_pos].
  - destruct (shr_1_halves mrs) as [H1 H2].
    destruct (IH (shr_1 mrs)) as [H3 H4].
    destruct (IH (SpecFloat.iter_pos shr_1 n (shr_1 mrs))) as [H5 H6].
    split; [auto|]. intros Hpos.
    rewrite (Pos2Z.inj_xI n).
    replace (2 * Z.pos n + 1) with (Z.pos n + Z.pos n + 1) by lia.
    rewrite !Z.pow_add_r by lia. change (2 ^ 1) with 2.
    assert (0 < 2 ^ Z.pos n) by (apply Z.pow_pos_nonneg; lia).
    assert (0 < shr_m (SpecFloat.iter_pos shr_1 n (shr_1 mrs))) by nia.
    assert (0 < shr_m (shr_1 mrs)) by nia.
    specialize (H6 Hpos). specialize (H4 ltac:(done)).
    specialize (H2 ltac:(done)). nia.
  - destruct (IH mrs) as [H3 H4].
    destruct (IH (SpecFloat.iter_pos shr_1 n mrs)) as [H5 H6].
    split; [auto|]. intros Hpos.
    rewrite (Pos2Z.inj_xO n).
    replace (2 * Z.pos n) with (Z.pos n + Z.pos n) by lia.
    rewrite !Z.pow_add_r by lia.
    assert (0 < 2 ^ Z.pos n) by (apply Z.pow_pos_nonneg; lia).
    assert (0 < shr_m (SpecFloat.iter_pos shr_1 n mrs)) by nia.
    specialize (H6 Hpos). specialize (H4 ltac:(done)). nia.
  - change (2 ^ 1) with 2. apply shr_1_halves.
Qed.

Lemma binary_round_aux_ok sx mx ex lx :
  mant_ok (binary_round_aux Float64.prec Float64.emax sx mx ex lx).
Proof.
  unfold binary_round_aux.
  destruct (shr_fexp Float64.prec Float64.emax mx ex lx) as [mrs' e'].
  set (m1 := round_nearest_even (shr_m mrs') (loc_of_shr_record mrs')).
  destruct (shr_fexp Float64.prec Float64.emax m1 e' loc_Exact)
    as [mrs'' e''] eqn:E.
  destruct (shr_m mrs'') as [|m|m] eqn:Em; cbn; [done| |done].
  destruct (e'' <=? Float64.emax - Float64.prec); cbn; [|done].
  unfold shr_fexp, shr, fexp, emin, Float64.prec, Float64.emax in E.
  cbn [shr_record_of_loc] in E.
  destruct (Z.max (Zdigits2 m1 + e' - 53) (3 - 1024 - 53) - e')
    as [|n|n] eqn:En.
  - injection E as <- _. cbn in Em. subst m1. rewrite Em in En.
    cbn [Zdigits2] in En. pose proof (digits2_pos_bounds m) as [_ Hb].
    assert (Z.pos (digits2_pos m) <= 53) as Hd by lia.
    eapply Z.lt_le_trans; [exact Hb|]. apply Z.pow_le_mono_r; lia.
  - injection E as <- _.
    destruct (iter_shr_1 n (Build_shr_record m1 false false)) as [Hneg Hpos].
    rewrite Em in Hpos. cbn [shr_m] in Hpos, Hneg.
    specialize (Hpos ltac:(lia)).
    assert (0 < 2 ^ Z.pos n) as Hpow by (apply Z.pow_pos_nonneg; lia).
    destruct m1 as [|q|q]; [nia| |nia].
    cbn [Zdigits2] in En. pose proof (digits2_pos_bounds q) as [_ Hb].
    assert (Z.pos (digits2_pos q) <= Z.pos n + 53) as Hd by lia.
    assert (2 ^ Z.pos (digits2_pos q) <= 2 ^ (Z.pos n + 53)) as Hle
      by (apply Z.pow_le_mono_r; lia).
    rewrite Z.pow_add_r in Hle by lia. nia.
  - injection E as <- _. cbn in Em. subst m1. rewrite Em in En.
    cbn [Zdigits2] in En. pose proof (digits2_pos_bounds m) as [_ Hb].
    assert (Z.pos (digits2_pos m) <= 53) as Hd by lia.
    eapply Z.lt_le_trans; [exact Hb|]. apply Z.pow_le_mono_r; lia.
Qed.

Lemma binary_normalize_ok m e sz :
  mant_ok (binary_normalize Float64.prec Float64.emax m e sz).
Proof.
  destruct m as [|p|p]; cbn [binary_normalize]; [done|..];
    unfold binary_round;
    destruct (shl_align _ _ _) as [mz ez]; apply binary_round_aux_ok.
Qed.

Lemma of_int_ok n : mant_ok (Float64.of_int n).
Proof. apply binary_normalize_ok. Qed.

Lemma add_ok x y : mant_ok x -> mant_ok y -> mant_ok (Float64.add x y).
Proof.
  intros Hx Hy. unfold Float64.add.
  destruct x as [sx|sx| |sx mx ex], y as [sy|sy| |sy my ey];
    try destruct sx; try destruct sy; cbn [SFadd]; try done.
  all: apply binary_normalize_ok.
Qed.

Lemma div_ok x y : mant_ok (Float64.div x y).
Proof.
  unfold Float64.div.
  destruct x as [sx|sx| |sx mx ex], y as [sy|sy| |sy my ey];
    cbn [SFdiv]; try done.
  destruct (SFdiv_core_binary _ _ _ _ _ _) as [[mz ez] lz].
  apply binary_round_aux_ok.
Qed.

(** The conversion to [int] never yields the largest int. *)
Lemma to_int_below x : mant_ok x -> Float64.to_int x < GoInt.max_int.
Proof.
  intros Hx. unfold Float64.to_int.
  destruct x as [s|s| |s m e]; cbn [Float64.trunc];
    [reflexivity..|].
  cbn in Hx.
  destruct ((GoInt.min_int <=? _) && (_ <=? GoInt.max_int)) eqn:Hr;
    [|reflexivity].
  apply andb_prop in Hr as [_ Hr]. apply Z.leb_le in Hr.
  destruct s; cbn [cond_Zopp] in *.
  { pose proof (Z.shiftl_nonneg (Z.pos m) e). int_numerals. lia. }
  change (2 ^ 53) with 9007199254740992 in Hx.
  destruct e as [|e|e].
  - rewrite Z.shiftl_0_r in *. int_numerals. lia.
  - rewrite Z.shiftl_mul_pow2 in * by lia.
    assert (2 ^ Z.pos e = 2 * 2 ^ (Z.pos e - 1)) as Hev.
    { rewrite <- Z.pow_succ_r by lia. f_equal. lia. }
    rewrite Hev in *. int_numerals. lia.
  - change (Z.shiftl (Z.pos m) (Z.neg e)) with (Z.shiftr (Z.pos m) (Z.pos e)).
    rewrite Z.shiftr_div_pow2 by lia.
    assert (Z.pos m / 2 ^ Z.pos e <= Z.pos m).
    { apply Z.div_le_upper_bound; [apply Z.pow_pos_nonneg; lia|].
      assert (0 < 2 ^ Z.pos e) by (apply Z.pow_pos_nonneg; lia). nia. }
    int_numerals. lia.
Qed.

End Mantissa.

(** ** C8: a segment of one row *)

Section Exact.

Lemma iter_xO_value p d : Z.pos (Pos.iter xO p d) = Z.pos p * 2 ^ Z.pos d.
Proof.
  induction d as [|d IH] using Pos.peano_ind.
  - cbn. lia.
  - rewrite Pos.iter_succ, (Pos2Z.inj_xO (Pos.iter xO p d)), IH.
    rewrite Pos2Z.inj_succ, Z.pow_succ_r by lia. lia.
Qed.

Lemma iter_xO_digits p d :
  Z.pos (digits2_pos (Pos.iter xO p d)) = Z.pos (digits2_pos p) + Z.pos d.
Proof.
  induction d as [|d IH] using Pos.peano_ind.
  - cbn. lia.
  - rewrite Pos.iter_succ. cbn [digits2_pos].
    rewrite Pos2Z.inj_succ, IH. lia.
Qed.

(** Nothing is shifted out and nothing is rounded when the mantissa already
    sits at its place. *)
Lemma binary_round_aux_exact s m e :
  Z.max (Z.pos (digits2_pos m) + e - 53) (3 - 1024 - 53) - e <= 0 ->
  e <= 1024 - 53 ->
  binary_round_aux Float64.prec Float64.emax s (Z.pos m) e loc_Exact
  = S754_finite s m e.
Proof.
  intros Hn He.
  assert (shr_fexp Float64.prec Float64.emax (Z.pos m) e loc_Exact
          = (Build_shr_record (Z.pos m) false false, e)) as Hshr.
  { unfold shr_fexp, shr, fexp, emin, Float64.prec, Float64.emax.
    cbn [Zdigits2 shr_record_of_loc].
    destruct (Z.max (Z.pos (digits2_pos m) + e - 53) (3 - 1024 - 53) - e)
      as [|n|n]; [done|lia|done]. }
  unfold binary_round_aux. rewrite Hshr.
  cbn [shr_m loc_of_shr_record round_nearest_even]. rewrite Hshr.
  cbn [shr_m]. unfold Float64.prec, Float64.emax.
  by destruct (Z.leb_spec e (1024 - 53)); [|lia].
Qed.

Lemma binary_round_exact s p :
  Z.pos p < 2 ^ 53 ->
  ∃ m e, binary_round Float64.prec Float64.emax s p 0 = S754_finite s m e
         /\ e <= 0 /\ Z.pos m = Z.pos p * 2 ^ (- e).
Proof.
  intros Hp. pose proof (digits2_pos_bounds p) as [Hlo _].
  assert (Z.pos (digits2_pos p) <= 53) as Hd.
  { assert (Z.pos (digits2_pos p) - 1 < 53); [|lia].
    apply (Z.pow_lt_mono_r_iff 2); lia. }
  unfold binary_round, shl_align, fexp, emin, Float64.prec, Float64.emax.
  rewrite (Z.max_l (Z.pos (digits2_pos p) + 0 - 53)) by lia.
  destruct (Z.pos (digits2_pos p) + 0 - 53 - 0) as [|d|d] eqn:Ed; [|lia|].
  - exists p, 0. split; [|split; [lia|cbn; lia]].
    apply binary_round_aux_exact; lia.
  - exists (Pos.iter xO p d), (Z.pos (digits2_pos p) + 0 - 53).
    split; [|split; [lia|]].
    + apply binary_round_aux_exact; [|lia]. rewrite iter_xO_digits. lia.
    + rewrite iter_xO_value. do 2 f_equal. lia.
Qed.

(** An int of at most 53 bits survives the trip through [float64]. *)
Lemma to_int_of_int x :
  - 2 ^ 53 <= x <= 2 ^ 53 -> Float64.to_int (Float64.of_int x) = x.
Proof.
  intros Hx.
  destruct (Z.eq_dec x (2 ^ 53)) as [->|Hhi]; [by vm_compute|].
  destruct (Z.eq_dec x (- 2 ^ 53)) as [->|Hlo]; [by vm_compute|].
  assert (∀ s p, Z.pos p < 2 ^ 53 ->
            Float64.to_int (binary_round Float64.prec Float64.emax s p 0)
            = cond_Zopp s (Z.pos p)) as Hround.
  { intros s p Hp.
    destruct (binary_round_exact s p Hp) as (m & e & -> & He & Hm).
    unfold Float64.to_int. cbn [Float64.trunc].
    assert (Z.shiftl (Z.pos m) e = Z.pos p) as ->.
    { rewrite <- (Z.opp_involutive e) at 1.
      rewrite Z.shiftl_opp_r, Z.shiftr_div_pow2 by lia.
      rewrite Hm. apply Z.div_mul. apply Z.pow_nonzero; lia. }
    change (2 ^ 53) with 9007199254740992 in Hp.
    assert (GoInt.is_int (cond_Zopp s (Z.pos p))) as [Hmin Hmax]
      by (destruct s; cbn [cond_Zopp]; int_numerals; lia).
    apply Z.leb_le in Hmin, Hmax. by rewrite Hmin, Hmax. }
  unfold Float64.of_int. destruct x as [|p|p]; cbn [binary_normalize].
  - done.
  - apply (Hround false). lia.
  - apply (Hround true). lia.
Qed.

End Exact.

(** What [interpolate] returns on a segment of one row, whatever [xa]: the
    slope is never converted, the first value is. *)
Lemma interpolate_one_row {S} ya xa xb (s : S) :
  ya < GoInt.max_int ->
  Triangle.interpolate ya xa ya xb s
  = Returns [Float64.to_int (Float64.of_int xa)] s.
Proof.
  intros Hya. unfold Triangle.interpolate.
  unfold GoInt.sub. rewrite Z.sub_diag.
  change (GoInt.add (GoInt.wrap 0) 1 <? 0) with false. cbv zeta iota.
  destruct (Z.eqb_spec ya GoInt.max_int) as [->|_]; [lia|].
  rewrite andb_false_r.
  by replace (ya - ya + 1) with 1 by lia.
Qed.

(** C8, as the code has it.  For [ya == yb] below the largest int and
    [|xa| <= 2^53], [interpolate(ya, xa, yb, xb)] returns, without fault,
    exactly the one-element sequence [[xa]]. *)
Theorem interpolate_single_row {S} ya xa xb (s : S) :
  ya < GoInt.max_int -> - 2 ^ 53 <= xa <= 2 ^ 53 ->
  Triangle.interpolate ya xa ya xb s = Returns [xa] s.
Proof.
  intros Hya Hxa. rewrite interpolate_one_row by done.
  by rewrite to_int_of_int.
Qed.

Lemma interpolate_single_row_witness :
  Triangle.interpolate 3 7 3 9 tt = Returns [7] tt.
Proof.
  apply interpolate_single_row; int_numerals; lia.
Defined.

(** The claim C8 as it was stated, for every [xa], fails at the first int
    that [float64] cannot hold: [2^53 + 1] comes back as [2^53]. *)
Lemma interpolate_large_counterexample :
  Triangle.interpolate 0 (2 ^ 53 + 1) 0 0 tt = Returns [2 ^ 53] tt
  /\ Triangle.interpolate 0 (2 ^ 53 + 1) 0 0 tt ≠ Returns [2 ^ 53 + 1] tt.
Proof.
  assert (Triangle.interpolate 0 (2 ^ 53 + 1) 0 0 tt = Returns [2 ^ 53] tt)
    as Hrun by (vm_compute; reflexivity).
  split; [exact Hrun|]. rewrite Hrun. intros [= H].
Qed.

(** With [ya == yb] the largest int the loop condition never fails. *)
Lemma interpolate_last_row {S} xa xb (s : S) :
  Triangle.interpolate GoInt.max_int xa GoInt.max_int xb s = Diverges.
Proof. reflexivity. Qed.

(** ** C9: the scanlines of a triangle *)

Lemma length_values n d a : length (Triangle.values n d a) = n.
Proof.
  revert d. induction n as [|n IH]; intros d; cbn; [done|]. by rewrite IH.
Qed.

Lemma values_below n d a :
  mant_ok d -> mant_ok a ->
  Forall (λ v, v < GoInt.max_int) (Triangle.values n d a).
Proof.
  intros Hd Ha. revert d Hd. induction n as [|n IH]; intros d Hd; cbn.
  - constructor.
  - constructor; [by apply to_int_below|]. apply IH. by apply add_ok.
Qed.

Lemma interpolate_returns {S} y0 x0 y1 x1 (s : S) :
  0 <= y0 <= y1 -> y1 < GoInt.max_int ->
  Triangle.interpolate y0 x0 y1 x1 s = Returns (edge y0 x0 y1 x1) s.
Proof.
  intros Hy Hmax. unfold Triangle.interpolate.
  unfold GoInt.sub at 1. rewrite (wrap_int (y1 - y0)) by (int_numerals; lia).
  unfold GoInt.add. rewrite wrap_int by (int_numerals; lia).
  destruct (Z.ltb_spec (y1 - y0 + 1) 0); [lia|]. cbv zeta.
  destruct (Z.eqb_spec y1 GoInt.max_int); [lia|].
  by rewrite andb_false_r.
Qed.

Lemma length_edge y0 x0 y1 x1 :
  y0 <= y1 -> Z.of_nat (length (edge y0 x0 y1 x1)) = y1 - y0 + 1.
Proof. intros H. unfold edge. rewrite length_values. lia. Qed.

Lemma edge_below y0 x0 y1 x1 :
  Forall (λ v, v < GoInt.max_int) (edge y0 x0 y1 x1).
Proof. apply values_below; [apply of_int_ok | apply div_ok]. Qed.

(** The three swaps order the vertices by [Y]. *)
Lemma sorted_ordered t x0 y0 x1 y1 x2 y2 :
  Triangle.sorted t = ((x0, y0), (x1, y1), (x2, y2)) ->
  y0 <= y1 <= y2
  /\ y0 = Z.min (Y (Triangle.Pt0 t))
                (Z.min (Y (Triangle.Pt1 t)) (Y (Triangle.Pt2 t)))
  /\ y2 = Z.max (Y (Triangle.Pt0 t))
                (Z.max (Y (Triangle.Pt1 t)) (Y (Triangle.Pt2 t))).
Proof.
  unfold Triangle.sorted.
  destruct (Z.ltb_spec (Y (Triangle.Pt1 t)) (Y (Triangle.Pt0 t)));
    cbv beta iota zeta.
  - destruct (Z.ltb_spec (Y (Triangle.Pt2 t)) (Y (Triangle.Pt1 t)));
      cbv beta iota zeta.
    + destruct (Z.ltb_spec (Y (Triangle.Pt1 t)) (Y (Triangle.Pt0 t)));
        intros [= <- <- <- <- <- <-]; lia.
    + destruct (Z.ltb_spec (Y (Triangle.Pt2 t)) (Y (Triangle.Pt0 t)));
        intros [= <- <- <- <- <- <-]; lia.
  - destruct (Z.ltb_spec (Y (Triangle.Pt2 t)) (Y (Triangle.Pt0 t)));
      cbv beta iota zeta.
    + destruct (Z.ltb_spec (Y (Triangle.Pt0 t)) (Y (Triangle.Pt1 t)));
        intros [= <- <- <- <- <- <-]; lia.
    + destruct (Z.ltb_spec (Y (Triangle.Pt2 t)) (Y (Triangle.Pt1 t)));
        intros [= <- <- <- <- <- <-]; lia.
Qed.

Lemma elem_of_scan_points left right y0 x y :
  (x, y) ∈ scan_points left right y0 ->
  y0 <= y < y0 + Z.of_nat (length left).
Proof.
  unfold scan_points. rewrite list_elem_of_bind.
  intros (y' & Hin & Hy). apply elem_of_seqZ in Hy.
  destruct (index left (y' - y0)); [|by apply elem_of_nil in Hin].
  destruct (index right (y' - y0)); [|by apply elem_of_nil in Hin].
  apply list_elem_of_fmap in Hin as (x' & [= -> ->] & _). done.
Qed.

Lemma scan_paint left right y0 y2 c d :
  length left = length right ->
  Z.of_nat (length left) = y2 - y0 + 1 ->
  0 <= y0 -> y2 < GoInt.max_int ->
  Forall (λ v, v < GoInt.max_int) right ->
  for_le y0 y2 (λ y,
    let* lo := at_index left (GoInt.sub y y0) in
    let* hi := at_index right (GoInt.sub y y0) in
    for_le lo hi (λ x, Display.drawPixel x y c)) d
  = paint c (scan_points left right y0) d.
Proof.
  intros Hlen Hrows Hy0 Hy2 Hbelow.
  rewrite for_le_below by done.
  unfold paint, scan_points. rewrite for_each_bind, <- Hrows.
  apply for_each_ext. intros y s Hy. apply elem_of_seqZ in Hy.
  unfold GoInt.sub. rewrite wrap_int by (int_numerals; lia).
  destruct (index_in_range left (y - y0)) as [lo Hlo]; [lia|].
  destruct (index_in_range right (y - y0)) as [hi Hhi]; [lia|].
  unfold bind, at_index. rewrite Hlo, Hhi. cbn.
  apply index_Some in Hhi as [_ Hhi].
  pose proof (Forall_lookup_1 _ _ _ _ Hbelow Hhi) as Hmax. cbn in Hmax.
  rewrite for_le_below by done. by rewrite for_each_fmap.
Qed.


Lemma triangle_in_bounds x0 y0 x1 y1 x2 y2 maxX maxY :
  Triangle.out_of_bounds x0 y0 x1 y1 x2 y2 maxX maxY = false ->
  0 <= y0 /\ y2 < maxY.
Proof.
  unfold Triangle.out_of_bounds. rewrite !orb_false_iff.
  intros [[[[[[[[[[[_ _] _] Hy0] _] _] _] _] _] _] _] Hy2].
  apply Z.ltb_ge in Hy0. rewrite Z.geb_leb in Hy2. apply Z.leb_gt in Hy2.
  done.
Qed.




(** * Further properties of the code *)

(** ** Displays as grids of cells *)

(** Two displays of the same shape with the same cells are one display. *)
Lemma display_ext d1 d2 :
  wf d1 -> wf d2 -> Display.getMaxXY d1 = Display.getMaxXY d2 ->
  (∀ i j, cell d1 i j = cell d2 i j) -> d1 = d2.
Proof.
  destruct d1 as [X1 Y1 m1], d2 as [X2 Y2 m2].
  intros [_ _ Hr1 Hc1 _] [_ _ Hr2 Hc2 _] [= -> ->] Hcell. cbn in *.
  f_equal. apply list_eq. intros k.
  destruct (decide (k < length m1)%nat) as [Hk|Hk].
  - destruct (lookup_lt_is_Some_2 m1 k Hk) as [r1 H1].
    destruct (lookup_lt_is_Some_2 m2 k) as [r2 H2]; [lia|].
    rewrite H1, H2. f_equal.
    pose proof (Forall_lookup_1 _ _ _ _ Hc1 H1) as L1.
    pose proof (Forall_lookup_1 _ _ _ _ Hc2 H2) as L2. cbn in L1, L2.
    apply list_eq. intros l.
    specialize (Hcell (Z.of_nat k) (Z.of_nat l)).
    unfold cell, index in Hcell. cbn [Display.matrix] in Hcell.
    destruct (Z.ltb_spec (Z.of_nat k) 0); [lia|].
    rewrite !Nat2Z.id, H1, H2 in Hcell. cbn in Hcell.
    by destruct (Z.ltb_spec (Z.of_nat l) 0); [lia|].
  - rewrite !lookup_ge_None_2 by lia. done.
Qed.

(** ** What every draw keeps *)

(** An invariant of [drawPixel] with the colour of a shape is an invariant of
    the [draw] of the shape. *)
Section DrawKeeps.
Context (I : Display.t -> Prop).

Lemma rectangle_keeps r :
  (∀ x y, preserves I (Display.drawPixel x y (Rectangle.C r))) ->
  preserves I (Rectangle.draw r).
Proof.
  intros Hpix d e d' HI. unfold Rectangle.draw, Display.getMaxXY.
  destruct (Rectangle.out_of_bounds _ _ _); [by intros [= _ <-]|].
  revert d e d' HI. apply preserves_for_le. intros y.
  apply preserves_for_le. intros x. apply Hpix.
Qed.

Lemma circle_keeps c :
  (∀ x y, preserves I (Display.drawPixel x y (Circle.C c))) ->
  preserves I (Circle.draw c).
Proof.
  intros Hpix d e d' HI. unfold Circle.draw, Display.getMaxXY.
  destruct (Circle.out_of_bounds _ _ _); [by intros [= _ <-]|].
  revert d e d' HI. apply preserves_for_le. intros y.
  apply preserves_for_le. intros x.
  destruct (Circle.in_disk c x y); [apply Hpix | apply preserves_ret].
Qed.

Lemma triangle_keeps t :
  (∀ x y, preserves I (Display.drawPixel x y (Triangle.C t))) ->
  preserves I (Triangle.draw t).
Proof.
  intros Hpix d e d' HI. unfold Triangle.draw, Display.getMaxXY.
  destruct (Triangle.sorted t) as [[[x0 y0] [x1 y1]] [x2 y2]].
  destruct (Triangle.out_of_bounds _ _ _ _ _ _ _ _); [by intros [= _ <-]|].
  revert d e d' HI. unfold Triangle.fill.
  apply preserves_bind; [apply preserves_interpolate|]. intros x01.
  apply preserves_bind; [apply preserves_interpolate|]. intros x12.
  apply preserves_bind; [apply preserves_interpolate|]. intros x02.
  apply preserves_bind; [apply preserves_slice_from|]. intros x12_tail.
  cbv zeta.
  apply preserves_bind; [apply preserves_at_index|]. intros x02_m.
  apply preserves_bind; [apply preserves_at_index|]. intros x012_m.
  destruct (x02_m <? x012_m);
    (apply preserves_for_le; intros y;
     apply preserves_bind; [apply preserves_at_index|]; intros lo;
     apply preserves_bind; [apply preserves_at_index|]; intros hi;
     apply preserves_for_le; intros x; apply Hpix).
Qed.

End DrawKeeps.

(** [drawPixel] with colour [c] keeps the shape of the grid and touches no
    cell but to put [c] there. *)
Lemma drawPixel_own_colour d0 c x y :
  preserves (λ d, wf d /\ Display.getMaxXY d = Display.getMaxXY d0
                  /\ ∀ i j, cell d i j ≠ cell d0 i j ->
                       known c /\ in_grid d0 i j /\ cell d i j = Some c)
            (Display.drawPixel x y c).
Proof.
  intros d e d' (Hwf & Hsize & Hfr) Hrun.
  destruct (drawPixel_cases _ _ _ _ _ _ Hwf Hrun)
    as [(_ & -> & _)|[(_ & -> & _)|(_ & Hin & Hc & Hwf' & HX & HY & Hcell)]];
    [done..|].
  split; [done|]. split.
  { unfold Display.getMaxXY in *. congruence. }
  intros i j Hne. rewrite Hcell in *.
  case_decide as Hij; [|by apply Hfr].
  destruct Hij as [-> ->]. split; [done|]. split; [|done].
  injection Hsize as HX0 HY0. unfold in_grid in *. by rewrite <- HX0, <- HY0.
Qed.

Lemma own_colour_start d c :
  wf d ->
  wf d /\ Display.getMaxXY d = Display.getMaxXY d
  /\ ∀ i j, cell d i j ≠ cell d i j ->
       known c /\ in_grid d i j /\ cell d i j = Some c.
Proof. intros Hwf. split; [done|]. split; [done|]. by intros i j Hne. Qed.

(** The size of the grid of a display in use: the width is negative only
    when there is no row. *)
Lemma initialized_size d :
  initialized d -> 0 <= Display.maxX d \/ Display.maxY d = 0.
Proof.
  induction 1 as [d0 w h d Hw Hh Hrun | d x y c e d' Hinit IH Hrun
                 | d d' _ IH Hrun | d r e d' Hinit IH Hrun
                 | d c e d' Hinit IH Hrun | d t e d' Hinit IH Hrun].
  - destruct (Z.lt_ge_cases h 0) as [Hn|Hp].
    { by rewrite initialize_panics_height in Hrun. }
    destruct (Z.lt_ge_cases w 0) as [Hwn|Hwp].
    + destruct (Z.eq_dec h 0) as [->|Hne].
      * rewrite initialize_flat in Hrun by done. injection Hrun as <-.
        by right.
      * by rewrite initialize_panics_width in Hrun by lia.
    + rewrite initialize_returns in Hrun by done. injection Hrun as <-.
      by left.
  - pose proof (initialized_wf d Hinit) as Hwf.
    destruct (drawPixel_own_colour d c x y d e d' (own_colour_start d c Hwf)
                Hrun) as (_ & [= -> ->] & _). done.
  - injection Hrun as <-. done.
  - pose proof (initialized_wf d Hinit) as Hwf.
    destruct (rectangle_keeps _ r
                (drawPixel_own_colour d (Rectangle.C r)) d e d'
                (own_colour_start d _ Hwf) Hrun) as (_ & [= -> ->] & _).
    done.
  - pose proof (initialized_wf d Hinit) as Hwf.
    destruct (circle_keeps _ c
                (drawPixel_own_colour d (Circle.C c)) d e d'
                (own_colour_start d _ Hwf) Hrun) as (_ & [= -> ->] & _).
    done.
  - pose proof (initialized_wf d Hinit) as Hwf.
    destruct (triangle_keeps _ t
                (drawPixel_own_colour d (Triangle.C t)) d e d'
                (own_colour_start d _ Hwf) Hrun) as (_ & [= -> ->] & _).
    done.
Qed.

(** ** [clearScreen] *)

Lemma clear_rows (n : nat) (m : list (list Color)) :
  Forall (λ row : list Color, length row = n) m ->
  map (λ row : list Color, map (λ _ : Color, white) row) m
  = replicate (length m) (replicate n white).
Proof.
  induction 1 as [|row m Hrow _ IH]; [done|].
  cbn. rewrite IH. f_equal. subst n. clear.
  induction row as [|c row IH]; cbn; congruence.
Qed.

Lemma clearScreen_fresh d :
  wf d -> 0 <= Display.maxX d \/ Display.maxY d = 0 ->
  Display.clearScreen d
  = Returns tt (fresh (Display.maxX d) (Display.maxY d)).
Proof.
  destruct d as [w h m]. intros [_ [Hh _] Hrows Hcols _] Hsize. cbn in *.
  unfold Display.clearScreen, Display.set_matrix. cbn. f_equal.
  destruct (Z.lt_ge_cases w 0) as [Hw|Hw].
  - destruct Hsize as [?| ->]; [lia|].
    destruct m; [|done]. unfold fresh. by rewrite initialize_flat.
  - rewrite fresh_eq by done. f_equal.
    rewrite (clear_rows (Z.to_nat w)) by done. by rewrite Hrows.
Qed.

(** X1.  [clearScreen] on a display in use puts it back into the state that
    [initialize] gives for the same size, and so does a second [initialize]
    with that size: the size stays and [getPixel] returns white everywhere
    inside the grid. *)
Theorem clearScreen_resets d :
  initialized d ->
  ∃ d', Display.clearScreen d = Returns tt d'
        /\ d' = fresh (Display.maxX d) (Display.maxY d)
        /\ Display.initialize (Display.maxX d) (Display.maxY d) d
           = Returns tt d'
        /\ Display.getMaxXY d' = Display.getMaxXY d
        /\ ∀ x y, 0 <= x < Display.maxX d -> 0 <= y < Display.maxY d ->
             Display.getPixel x y d' = Returns (white, None) d'.
Proof.
  intros Hinit. pose proof (initialized_wf d Hinit) as Hwf.
  pose proof (initialized_size d Hinit) as Hsize.
  pose proof (clearScreen_fresh d Hwf Hsize) as Hclear.
  pose proof (clearScreen_wf d tt _ Hwf Hclear) as Hwf'.
  exists (fresh (Display.maxX d) (Display.maxY d)).
  split; [done|]. split; [done|].
  assert (Display.getMaxXY (fresh (Display.maxX d) (Display.maxY d))
          = Display.getMaxXY d) as Hdims.
  { unfold Display.clearScreen in Hclear. by injection Hclear as <-. }
  split; [|split; [done|]].
  - destruct Hwf as [_ [Hh _] _ _ _].
    destruct (Z.lt_ge_cases (Display.maxX d) 0) as [Hw|Hw].
    + destruct Hsize as [?|Hz]; [lia|]. rewrite Hz.
      unfold fresh. by rewrite !initialize_flat.
    + rewrite fresh_eq by done. by apply initialize_returns.
  - intros x y Hx Hy. injection Hdims as HX HY.
    destruct (getPixel_reads _ x y Hwf') as (c & Hc & ->).
    { unfold in_grid. rewrite HX, HY. lia. }
    rewrite cell_fresh in Hc by lia. congruence.
Qed.

Lemma clearScreen_resets_witness :
  ∃ d, Display.drawPixel 1 2 red (fresh 3 2) = Returns None d
       /\ Display.clearScreen d = Returns tt (fresh 3 2).
Proof.
  assert (initialized (fresh 3 2)) as Hinit by
    (apply initialized_fresh; unfold GoInt.max_int; lia).
  assert (∃ d, Display.drawPixel 1 2 red (fresh 3 2) = Returns None d)
    as [d Hd] by (eexists; vm_compute; reflexivity).
  exists d. split; [done|].
  destruct (clearScreen_resets d) as (d' & Hrun & -> & _).
  { eapply init_drawPixel; [exact Hinit | exact Hd]. }
  rewrite Hrun. revert Hd. vm_compute. by intros [= <-].
Defined.

(** ** The rectangle, whatever comes of it *)

(** X2.  On a display in use [Rectangle.draw] always returns.  Whatever it
    returns, the size is unchanged and a cell that differs afterwards is
    addressed by a point of the rectangle, lies in the grid and holds the
    rectangle's colour.  The draw succeeds exactly when the rectangle passes
    the bounds check and, unless it is empty, its colour is in the table
    and its upper right corner has [X < maxY] and [Y < maxX]. *)
Theorem rectangle_draw_total r d :
  initialized d ->
  ∃ e d', Rectangle.draw r d = Returns e d'
    /\ Display.getMaxXY d' = Display.getMaxXY d
    /\ (∀ i j, cell d' i j ≠ cell d i j ->
          X (Rectangle.LL r) <= i <= X (Rectangle.UR r)
          /\ Y (Rectangle.LL r) <= j <= Y (Rectangle.UR r)
          /\ 0 <= i < Display.maxY d /\ 0 <= j < Display.maxX d
          /\ cell d' i j = Some (Rectangle.C r))
    /\ (e = None <->
        Rectangle.out_of_bounds r (Display.maxX d) (Display.maxY d) = false
        /\ (X (Rectangle.LL r) <= X (Rectangle.UR r) ->
            Y (Rectangle.LL r) <= Y (Rectangle.UR r) ->
            is_Some (colorMap !! Rectangle.C r)
            /\ X (Rectangle.UR r) < Display.maxY d
            /\ Y (Rectangle.UR r) < Display.maxX d)).
Proof.
  intros Hinit. pose proof (initialized_wf d Hinit) as Hwf.
  destruct (Rectangle.out_of_bounds r (Display.maxX d) (Display.maxY d))
    eqn:Hb.
  { rewrite rectangle_draw_rejects by done. eexists _, _. split; [done|].
    split; [done|]. split; [by intros i j Hne|].
    split; [done | by intros [? _]]. }
  rewrite rectangle_draw_paint by done.
  destruct (paint_runs (Rectangle.C r) (rectangle_points r) d Hwf)
    as (e & d' & -> & [Hwf' HX HY Hfr _ Hok _ _]).
  exists e, d'. split; [done|].
  split; [unfold Display.getMaxXY; congruence|]. split.
  - intros i j Hne.
    destruct (Hfr i j) as [Heq|(Hm & _ & [Hgx Hgy] & Hc)]; [done|].
    apply elem_of_rectangle_points in Hm as [? ?].
    split; [done|]. split; [done|]. split; [done|]. by split.
  - rewrite Hok. apply rectangle_in_bounds in Hb as (HLX & HLY & _ & _).
    split.
    + intros [Hall Hk]. split; [done|]. intros HXs HYs.
      assert ((X (Rectangle.UR r), Y (Rectangle.UR r)) ∈ rectangle_points r)
        as Hm by (apply elem_of_rectangle_points; lia).
      split; [apply Hk; by intros Hnil; rewrite Hnil in Hm;
              apply elem_of_nil in Hm|].
      rewrite Forall_forall in Hall. apply Hall in Hm as [? ?]. cbn in *.
      lia.
    + intros [_ Hne]. split.
      * apply Forall_forall. intros [i j] Hm.
        apply elem_of_rectangle_points in Hm. unfold in_grid. cbn.
        destruct Hne as (_ & ? & ?); lia.
      * intros Hnil. destruct (rectangle_points r) as [|[i j] pts] eqn:Hpts;
          [done|].
        assert ((i, j) ∈ rectangle_points r) as Hm
          by (rewrite Hpts; apply list_elem_of_here).
        apply elem_of_rectangle_points in Hm.
        destruct Hne as (? & _); [lia..|done].
Qed.

Lemma rectangle_draw_total_witness :
  ∃ d', Rectangle.draw (Rectangle.mk (mkPoint 0 0) (mkPoint 2 0) red)
                       (fresh 3 2) = Returns (Some PixelOutOfBounds) d'
        /\ cell d' 1 0 = Some red.
Proof.
  assert (initialized (fresh 3 2)) as Hinit by
    (apply initialized_fresh; unfold GoInt.max_int; lia).
  destruct (rectangle_draw_total
              (Rectangle.mk (mkPoint 0 0) (mkPoint 2 0) red) (fresh 3 2) Hinit)
    as (e & d' & Hrun & _ & Hfr & _).
  assert (∃ d1, Rectangle.draw (Rectangle.mk (mkPoint 0 0) (mkPoint 2 0) red)
                  (fresh 3 2) = Returns (Some PixelOutOfBounds) d1
                /\ cell d1 1 0 ≠ cell (fresh 3 2) 1 0) as (d1 & Hrun1 & Hne).
  { eexists. split; [vm_compute; reflexivity|]. vm_compute. congruence. }
  rewrite Hrun in Hrun1. injection Hrun1 as -> <-.
  exists d'. split; [done|]. by apply Hfr.
Defined.

(** ** The circle, whatever comes of it *)

Lemma circle_points_offsets c i j :
  (i, j) ∈ circle_points c ->
  ∃ x y, GoInt.neg (Circle.R c) <= x <= Circle.R c
         /\ GoInt.neg (Circle.R c) <= y <= Circle.R c
         /\ Circle.in_disk c x y = true
         /\ i = GoInt.add (X (Circle.CP c)) x
         /\ j = GoInt.add (Y (Circle.CP c)) y.
Proof.
  unfold circle_points. cbv zeta. rewrite list_elem_of_bind.
  intros (y & Hin & Hy).
  apply list_elem_of_fmap in Hin as (x & [= -> ->] & Hx).
  apply list_elem_of_filter in Hx as [Hd Hx].
  apply elem_of_seqZ in Hx, Hy. exists x, y.
  split; [lia|]. split; [lia|]. done.
Qed.

(** X3.  On a display in use the [draw] of a circle whose radius is not the
    largest int always returns.  Whatever it returns, the size is unchanged
    and a cell that differs afterwards lies in the grid, holds the circle's
    colour, and is addressed by the centre plus an offset [(x, y)] of the
    two loops that passed the test [x*x + y*y <= R*R] in machine
    arithmetic. *)
Theorem circle_draw_total c d :
  initialized d -> Circle.R c < GoInt.max_int ->
  ∃ e d', Circle.draw c d = Returns e d'
    /\ Display.getMaxXY d' = Display.getMaxXY d
    /\ ∀ i j, cell d' i j ≠ cell d i j ->
         0 <= i < Display.maxY d /\ 0 <= j < Display.maxX d
         /\ cell d' i j = Some (Circle.C c)
         /\ ∃ x y, GoInt.neg (Circle.R c) <= x <= Circle.R c
                   /\ GoInt.neg (Circle.R c) <= y <= Circle.R c
                   /\ Circle.in_disk c x y = true
                   /\ i = GoInt.add (X (Circle.CP c)) x
                   /\ j = GoInt.add (Y (Circle.CP c)) y.
Proof.
  intros Hinit HR. pose proof (initialized_wf d Hinit) as Hwf.
  destruct (Circle.out_of_bounds c (Display.maxX d) (Display.maxY d)) eqn:Hb.
  { rewrite circle_draw_rejects by done. eexists _, _. split; [done|].
    split; [done|]. by intros i j Hne. }
  rewrite circle_draw_paint by done.
  destruct (paint_runs (Circle.C c) (circle_points c) d Hwf)
    as (e & d' & -> & [Hwf' HX HY Hfr _ _ _ _]).
  exists e, d'. split; [done|].
  split; [unfold Display.getMaxXY; congruence|].
  intros i j Hne.
  destruct (Hfr i j) as [Heq|(Hm & _ & [Hgx Hgy] & Hc)]; [done|].
  split; [done|]. split; [done|]. split; [done|].
  by apply circle_points_offsets.
Qed.

Lemma circle_draw_total_witness :
  ∃ e d', Circle.draw (Circle.mk (mkPoint 1 1) 1 blue) (fresh 3 2)
          = Returns e d'
          /\ Display.getMaxXY d' = (3, 2).
Proof.
  assert (initialized (fresh 3 2)) as Hinit by
    (apply initialized_fresh; unfold GoInt.max_int; lia).
  destruct (circle_draw_total (Circle.mk (mkPoint 1 1) 1 blue) (fresh 3 2)
              Hinit) as (e & d' & Hrun & Hsize & _).
  { int_numerals. cbn. lia. }
  exists e, d'. split; [exact Hrun|]. rewrite Hsize. reflexivity.
Defined.

(** X4.  A circle of negative radius (other than the smallest int, whose
    negation is itself) is never drawn: its loops run from [-R] up to [R]
    and are empty, so [draw] either refuses the circle at the bounds check
    or returns success without a single call of [drawPixel]; in both cases
    the display is exactly as before. *)
Theorem negative_radius_draws_nothing c d :
  GoInt.min_int < Circle.R c < 0 ->
  Circle.draw c d
  = Returns (if Circle.out_of_bounds c (Display.maxX d) (Display.maxY d)
             then Some CircleOutOfBounds else None) d.
Proof.
  intros HR. unfold Circle.draw, Display.getMaxXY.
  destruct (Circle.out_of_bounds _ _ _); [done|].
  assert (GoInt.neg (Circle.R c) = - Circle.R c) as ->.
  { unfold GoInt.neg. apply wrap_int. int_numerals. lia. }
  apply for_le_empty; int_numerals; lia.
Qed.

Lemma negative_radius_draws_nothing_witness :
  Circle.draw (Circle.mk (mkPoint 5 5) (-2) blue) (fresh 12 12)
  = Returns None (fresh 12 12).
Proof.
  apply (negative_radius_draws_nothing (Circle.mk (mkPoint 5 5) (-2) blue)
           (fresh 12 12)).
  int_numerals. cbn. lia.
Defined.

(** ** Shapes of one point *)

Lemma paint_one c x y d : paint c [(x, y)] d = Display.drawPixel x y c d.
Proof.
  unfold paint. cbn. by destruct (Display.drawPixel x y c d) as [[e|] s| |].
Qed.

Lemma for_le_one {S} v (body : Z -> M S err) s :
  v < GoInt.max_int -> for_le v v body s = body v s.
Proof.
  intros Hv. rewrite for_le_below by done.
  replace (v - v + 1) with 1 by lia.
  rewrite seqZ_cons, seqZ_nil by lia. cbn.
  by destruct (body v s) as [[e|] s'| |].
Qed.

(** X5.  A shape that covers one point is one [drawPixel]: on a display in
    use, a rectangle with [LL = UR = p], a circle of centre [p] and radius 0,
    and a triangle whose three vertices are [p], once past their bounds
    check, do exactly what [drawPixel(p.X, p.Y, c)] does, result and grid
    (for the triangle, with [p.X <= 2^53], the ints that [float64] holds). *)
Theorem one_point_shapes d p c :
  initialized d ->
  (Rectangle.out_of_bounds (Rectangle.mk p p c)
     (Display.maxX d) (Display.maxY d) = false ->
   Rectangle.draw (Rectangle.mk p p c) d = Display.drawPixel (X p) (Y p) c d)
  /\ (GoInt.is_int (X p) -> GoInt.is_int (Y p) ->
      Circle.out_of_bounds (Circle.mk p 0 c)
        (Display.maxX d) (Display.maxY d) = false ->
      Circle.draw (Circle.mk p 0 c) d = Display.drawPixel (X p) (Y p) c d)
  /\ (X p <= 2 ^ 53 -> triangle_rejected (Triangle.mk p p p c) d = false ->
      Triangle.draw (Triangle.mk p p p c) d
      = Display.drawPixel (X p) (Y p) c d).
Proof.
  intros Hinit. pose proof (initialized_wf d Hinit) as Hwf.
  pose proof (wf_maxX d Hwf) as [_ HmX]. pose proof (wf_maxY d Hwf) as [_ HmY].
  split; [|split].
  - intros Hb. unfold Rectangle.draw, Display.getMaxXY. rewrite Hb.
    apply rectangle_in_bounds in Hb as (_ & _ & HX & HY). cbn in *.
    rewrite for_le_one by lia. by rewrite for_le_one by lia.
  - intros HpX HpY Hb. rewrite circle_draw_paint; [|done|done].
    assert (circle_points (Circle.mk p 0 c) = [(X p, Y p)]) as ->.
    { unfold circle_points. cbv zeta.
      change (Circle.R (Circle.mk p 0 c)) with 0.
      change (seqZ (GoInt.neg 0) (0 - GoInt.neg 0 + 1)) with [0].
      cbn [mbind list_bind]. rewrite filter_cons, filter_nil.
      rewrite decide_True by (by vm_compute). cbn [fmap list_fmap app].
      cbn [Circle.CP]. unfold GoInt.add. rewrite !Z.add_0_r.
      by rewrite !wrap_int. }
    apply paint_one.
  - intros Hp53 Hb. unfold triangle_rejected in Hb.
    unfold Triangle.draw, Display.getMaxXY.
    assert (Triangle.sorted (Triangle.mk p p p c)
            = ((X p, Y p), (X p, Y p), (X p, Y p))) as Hs.
    { unfold Triangle.sorted. cbn. by repeat (rewrite Z.ltb_irrefl; cbn). }
    rewrite Hs in *. rewrite Hb.
    destruct (triangle_in_bounds _ _ _ _ _ _ _ _ Hb) as [Hy0 Hy2].
    unfold Triangle.out_of_bounds in Hb. rewrite !orb_false_iff in Hb.
    destruct Hb as [[[[[[[[[[[Hx0 _] _] _] _] _] _] _] _] _] _] _].
    apply Z.ltb_ge in Hx0.
    unfold Triangle.fill, bind.
    rewrite !interpolate_one_row by lia.
    rewrite to_int_of_int by lia.
    change (slice_from [X p] 1 d) with (Returns (@nil Z) d).
    cbv beta iota. cbn [app length].
    change (GoInt.quot (Z.of_nat 1) 2) with 0.
    change (at_index [X p] 0 d) with (Returns (X p) d). cbv beta iota.
    change (at_index [X p] 0 d) with (Returns (X p) d). cbv beta iota.
    rewrite Z.ltb_irrefl. cbv beta iota. rewrite for_le_one by lia.
    unfold GoInt.sub. rewrite Z.sub_diag. change (GoInt.wrap 0) with 0.
    change (at_index [X p] 0 d) with (Returns (X p) d). cbv beta iota.
    change (at_index [X p] 0 d) with (Returns (X p) d). cbv beta iota.
    rewrite for_le_one; [done|].
    assert (2 ^ 53 < GoInt.max_int) by (by vm_compute). lia.
Qed.

Lemma one_point_shapes_witness :
  Rectangle.draw (Rectangle.mk (mkPoint 1 2) (mkPoint 1 2) red) (fresh 3 3)
  = Display.drawPixel 1 2 red (fresh 3 3)
  /\ Circle.draw (Circle.mk (mkPoint 1 2) 0 red) (fresh 3 3)
     = Display.drawPixel 1 2 red (fresh 3 3)
  /\ Triangle.draw
       (Triangle.mk (mkPoint 1 2) (mkPoint 1 2) (mkPoint 1 2) red) (fresh 3 3)
     = Display.drawPixel 1 2 red (fresh 3 3).
Proof.
  assert (initialized (fresh 3 3)) as Hinit by
    (apply initialized_fresh; unfold GoInt.max_int; lia).
  destruct (one_point_shapes (fresh 3 3) (mkPoint 1 2) red Hinit)
    as (Hr & Hc & Ht).
  split; [|split].
  - apply Hr. reflexivity.
  - apply Hc; [int_numerals; cbn; lia..|reflexivity].
  - apply Ht; [cbn; lia | reflexivity].
Defined.

(** ** How writes compose *)

(** X6.  Writes of [drawPixel] on a display in use.  The last write to a
    cell wins: after a successful [drawPixel(x, y, c1)], writing a colour
    [c2] at the same point gives exactly what writing [c2] there at once
    gives.  Successful writes to two different points can be swapped: both
    succeed in the other order as well and the grid is the same. *)
Theorem drawPixel_compose d :
  initialized d ->
  (∀ x y c1 c2 d1,
     Display.drawPixel x y c1 d = Returns None d1 ->
     is_Some (colorMap !! c2) ->
     Display.drawPixel x y c2 d1 = Display.drawPixel x y c2 d)
  /\ (∀ x1 y1 c1 x2 y2 c2 d1 d12,
        Display.drawPixel x1 y1 c1 d = Returns None d1 ->
        Display.drawPixel x2 y2 c2 d1 = Returns None d12 ->
        (x1, y1) ≠ (x2, y2) ->
        ∃ d2, Display.drawPixel x2 y2 c2 d = Returns None d2
              /\ Display.drawPixel x1 y1 c1 d2 = Returns None d12).
Proof.
  intros Hinit. pose proof (initialized_wf d Hinit) as Hwf. split.
  - intros x y c1 c2 d1 Hrun1 Hc2.
    destruct (drawPixel_cases _ _ _ _ _ _ Hwf Hrun1)
      as [([=] & _)|[([=] & _)|(_ & Hin & Hc1 & Hwf1 & HX & HY & Hcell1)]].
    assert (in_grid d1 x y) as Hin1 by (by apply (in_grid_same_size d)).
    destruct (drawPixel_paints d x y c2 Hwf Hin Hc2)
      as (da & -> & HXa & HYa & Hwfa & Hcella).
    destruct (drawPixel_paints d1 x y c2 Hwf1 Hin1 Hc2)
      as (db & -> & HXb & HYb & Hwfb & Hcellb).
    f_equal. apply display_ext; [done..| |].
    + unfold Display.getMaxXY. congruence.
    + intros i j. rewrite Hcella, Hcellb, Hcell1. by case_decide.
  - intros x1 y1 c1 x2 y2 c2 d1 d12 Hrun1 Hrun2 Hne.
    destruct (drawPixel_cases _ _ _ _ _ _ Hwf Hrun1)
      as [([=] & _)|[([=] & _)|(_ & Hin1 & Hc1 & Hwf1 & HX1 & HY1 & Hcell1)]].
    destruct (drawPixel_cases _ _ _ _ _ _ Hwf1 Hrun2)
      as [([=] & _)|[([=] & _)
                     |(_ & Hin2 & Hc2 & Hwf12 & HX12 & HY12 & Hcell12)]].
    apply (in_grid_same_size d) in Hin2; [|done..].
    destruct (drawPixel_paints d x2 y2 c2 Hwf Hin2 Hc2)
      as (d2 & Hrun2' & HX2 & HY2 & Hwf2 & Hcell2).
    exists d2. split; [done|].
    assert (in_grid d2 x1 y1) as Hin1' by (by apply (in_grid_same_size d)).
    destruct (drawPixel_paints d2 x1 y1 c1 Hwf2 Hin1' Hc1)
      as (d21 & -> & HX21 & HY21 & Hwf21 & Hcell21).
    f_equal. apply display_ext; [done..| |].
    + unfold Display.getMaxXY. congruence.
    + intros i j. rewrite Hcell21, Hcell2, Hcell12, Hcell1.
      repeat case_decide; try done.
      exfalso. apply Hne. f_equal; lia.
Qed.

Lemma drawPixel_compose_witness :
  ∃ d1 d2, Display.drawPixel 1 2 red (fresh 3 2) = Returns None d1
           /\ Display.drawPixel 1 2 blue (fresh 3 2) = Returns None d2
           /\ Display.drawPixel 1 2 blue d1 = Returns None d2.
Proof.
  assert (initialized (fresh 3 2)) as Hinit by
    (apply initialized_fresh; unfold GoInt.max_int; lia).
  assert (∃ d1, Display.drawPixel 1 2 red (fresh 3 2) = Returns None d1)
    as [d1 H1] by (eexists; vm_compute; reflexivity).
  assert (∃ d2, Display.drawPixel 1 2 blue (fresh 3 2) = Returns None d2)
    as [d2 H2] by (eexists; vm_compute; reflexivity).
  exists d1, d2. split; [done|]. split; [done|].
  destruct (drawPixel_compose (fresh 3 2) Hinit) as [Hlast _].
  rewrite (Hlast 1 2 red blue d1 H1); [done | by eexists].
Defined.

(** ** Drawing a shape again *)

Lemma paint_again c pts d d' :
  wf d -> paint c pts d = Returns None d' -> paint c pts d' = Returns None d'.
Proof.
  intros Hwf Hrun.
  destruct (paint_painted _ _ _ _ _ Hwf Hrun) as [Hwf' HX HY _ _ Hok _ _].
  destruct (proj1 Hok eq_refl) as [Hall Hk].
  destruct (paint_runs c pts d' Hwf') as (e2 & d2 & Hrun2 & Hp2).
  assert (e2 = None) as ->.
  { apply (painted_ok _ _ _ _ _ Hp2). split; [|done].
    eapply Forall_impl; [exact Hall|]. intros [i j]. cbn.
    by apply in_grid_same_size. }
  rewrite Hrun2. f_equal. apply display_ext; [exact (painted_wf _ _ _ _ _ Hp2)
                                             |done| |].
  - unfold Display.getMaxXY.
    by rewrite (painted_maxX _ _ _ _ _ Hp2), (painted_maxY _ _ _ _ _ Hp2).
  - intros i j. rewrite (paint_exact _ _ _ _ Hwf' Hrun2).
    rewrite (paint_exact _ _ _ _ Hwf Hrun). by case_decide.
Qed.

(** A loop up to the largest int is not left with success. *)
Lemma for_le_top {S} lo hi (body : Z -> M S err) s s' :
  for_le lo hi body s = Returns None s' -> hi < GoInt.max_int.
Proof.
  unfold for_le. destruct (Z.ltb_spec hi GoInt.max_int); [done|].
  unfold bind. by destruct (for_each _ body s) as [[e|] s1| |].
Qed.

(** The boundaries of the scanlines: the long edge and the two short ones,
    ordered by their values on the middle row. *)
Lemma fill_sides c x0 y0 x1 y1 x2 y2 :
  0 <= y0 -> y0 <= y1 <= y2 -> y2 < GoInt.max_int ->
  ∃ left right a b,
    index (edge y0 x0 y2 x2) ((y2 - y0 + 1) `quot` 2) = Some a
    /\ index (edge y0 x0 y1 x1 ++ drop 1 (edge y1 x1 y2 x2))
             ((y2 - y0 + 1) `quot` 2) = Some b
    /\ (left, right)
       = (if a <? b
          then (edge y0 x0 y2 x2,
                edge y0 x0 y1 x1 ++ drop 1 (edge y1 x1 y2 x2))
          else (edge y0 x0 y1 x1 ++ drop 1 (edge y1 x1 y2 x2),
                edge y0 x0 y2 x2))
    /\ Z.of_nat (length left) = y2 - y0 + 1
    /\ index left 0 = Some (Float64.to_int (Float64.of_int x0))
    /\ index right 0 = Some (Float64.to_int (Float64.of_int x0))
    /\ ∀ d, Triangle.fill c x0 y0 x1 y1 x2 y2 d
            = paint c (scan_points left right y0) d.
Proof.
  intros Hy0 Hord Hy2.
  set (x01 := edge y0 x0 y1 x1). set (x12 := edge y1 x1 y2 x2).
  set (x02 := edge y0 x0 y2 x2).
  pose proof (length_edge y0 x0 y1 x1 ltac:(lia)) as H01.
  pose proof (length_edge y1 x1 y2 x2 ltac:(lia)) as H12.
  pose proof (length_edge y0 x0 y2 x2 ltac:(lia)) as H02.
  fold x01 in H01. fold x12 in H12. fold x02 in H02.
  change 1%nat with (Z.to_nat 1).
  set (x012 := x01 ++ drop (Z.to_nat 1) x12).
  assert (Z.of_nat (length x012) = y2 - y0 + 1) as H012.
  { unfold x012. rewrite length_app, length_drop. lia. }
  assert (∀ ya xa yb xb, ya <= yb ->
            index (edge ya xa yb xb) 0
            = Some (Float64.to_int (Float64.of_int xa))) as Hhead.
  { intros ya xa yb xb Hle. unfold edge.
    destruct (Z.to_nat (yb - ya + 1)) as [|n] eqn:En; [lia|]. done. }
  assert (index x02 0 = Some (Float64.to_int (Float64.of_int x0))) as Hh02
    by (apply Hhead; lia).
  assert (index x012 0 = Some (Float64.to_int (Float64.of_int x0))) as Hh012.
  { unfold x012. pose proof (Hhead y0 x0 y1 x1 ltac:(lia)) as Hh.
    fold x01 in Hh. destruct x01 as [|v x01']; [done|]. exact Hh. }
  assert (GoInt.quot (Z.of_nat (length x012)) 2 = (y2 - y0 + 1) `quot` 2)
    as Hq.
  { rewrite H012. unfold GoInt.quot. apply wrap_int.
    pose proof (Z.quot_pos (y2 - y0 + 1) 2 ltac:(lia) ltac:(lia)).
    pose proof (Z.quot_lt (y2 - y0 + 1) 2 ltac:(lia) ltac:(lia)).
    int_numerals. lia. }
  set (m := (y2 - y0 + 1) `quot` 2) in *.
  assert (0 <= m < y2 - y0 + 1) as Hm.
  { unfold m.
    pose proof (Z.quot_pos (y2 - y0 + 1) 2 ltac:(lia) ltac:(lia)).
    pose proof (Z.quot_lt (y2 - y0 + 1) 2 ltac:(lia) ltac:(lia)).
    lia. }
  destruct (index_in_range x02 m) as [x02_m H1]; [lia|].
  destruct (index_in_range x012 m) as [x012_m H2]; [lia|].
  assert (Forall (λ v, v < GoInt.max_int) x012) as Hb012.
  { apply Forall_app. split; [apply edge_below|].
    apply Forall_drop, edge_below. }
  assert (∀ d, Triangle.fill c x0 y0 x1 y1 x2 y2 d
               = (let '(x_left, x_right) :=
                    if x02_m <? x012_m then (x02, x012) else (x012, x02) in
                  for_le y0 y2 (λ y,
                    let* lo := at_index x_left (GoInt.sub y y0) in
                    let* hi := at_index x_right (GoInt.sub y y0) in
                    for_le lo hi (λ x, Display.drawPixel x y c))) d)
    as Hfill.
  { intros d. unfold Triangle.fill.
    unfold bind at 1. rewrite interpolate_returns by lia.
    unfold bind at 1. rewrite interpolate_returns by lia.
    unfold bind at 1. rewrite interpolate_returns by lia.
    fold x01 x12 x02.
    unfold bind at 1, slice_from.
    destruct (Z.ltb_spec (Z.of_nat (length x12)) 1); [lia|].
    cbn [orb Z.ltb Z.compare]. unfold ret at 1. cbv zeta.
    fold x012. rewrite Hq.
    unfold bind at 1, at_index at 1. rewrite H1. unfold ret at 1.
    unfold bind at 1, at_index at 1. rewrite H2. unfold ret at 1.
    done. }
  destruct (x02_m <? x012_m) eqn:Hcmp.
  - exists x02, x012, x02_m, x012_m. rewrite Hcmp.
    split; [done|]. split; [done|]. split; [done|].
    split; [done|]. split; [done|]. split; [done|].
    intros d. rewrite Hfill.
    apply (scan_paint x02 x012 y0 y2); try done; lia.
  - exists x012, x02, x02_m, x012_m. rewrite Hcmp.
    split; [done|]. split; [done|]. split; [done|].
    split; [done|]. split; [done|]. split; [done|].
    intros d. rewrite Hfill.
    apply (scan_paint x012 x02 y0 y2); try done; try lia.
    apply edge_below.
Qed.

Lemma fill_scan c x0 y0 x1 y1 x2 y2 :
  0 <= y0 -> y0 <= y1 <= y2 -> y2 < GoInt.max_int ->
  ∃ left right,
    ((left, right)
     = (edge y0 x0 y2 x2, edge y0 x0 y1 x1 ++ drop 1 (edge y1 x1 y2 x2))
     \/ (left, right)
        = (edge y0 x0 y1 x1 ++ drop 1 (edge y1 x1 y2 x2), edge y0 x0 y2 x2))
    /\ Z.of_nat (length left) = y2 - y0 + 1
    /\ index left 0 = Some (Float64.to_int (Float64.of_int x0))
    /\ index right 0 = Some (Float64.to_int (Float64.of_int x0))
    /\ ∀ d, Triangle.fill c x0 y0 x1 y1 x2 y2 d
            = paint c (scan_points left right y0) d.
Proof.
  intros Hy0 Hord Hy2.
  destruct (fill_sides c x0 y0 x1 y1 x2 y2 Hy0 Hord Hy2)
    as (left & right & a & b & _ & _ & Hsides & Hrest).
  exists left, right. split; [|exact Hrest].
  destruct (a <? b); [by left | by right].
Qed.

(** X7.  A draw that succeeded can be repeated: on a display in use, when
    the [draw] of a rectangle, a circle or a triangle returns success, the
    same [draw] on the resulting display succeeds again and leaves that
    display exactly as it is. *)
Theorem draw_idempotent d :
  initialized d ->
  (∀ r d', Rectangle.draw r d = Returns None d' ->
           Rectangle.draw r d' = Returns None d')
  /\ (∀ c d', Circle.draw c d = Returns None d' ->
              Circle.draw c d' = Returns None d')
  /\ (∀ t d', Triangle.draw t d = Returns None d' ->
              Triangle.draw t d' = Returns None d').
Proof.
  intros Hinit. pose proof (initialized_wf d Hinit) as Hwf.
  split; [|split].
  - intros r d' Hrun.
    destruct (Rectangle.out_of_bounds r (Display.maxX d) (Display.maxY d))
      eqn:Hb; [by rewrite rectangle_draw_rejects in Hrun|].
    rewrite rectangle_draw_paint in Hrun by done.
    destruct (paint_painted _ _ _ _ _ Hwf Hrun) as [Hwf' HX HY _ _ _ _ _].
    rewrite rectangle_draw_paint; [by apply (paint_again _ _ d)|done|].
    by rewrite HX, HY.
  - intros c d' Hrun.
    destruct (Circle.out_of_bounds c (Display.maxX d) (Display.maxY d))
      eqn:Hb; [by rewrite circle_draw_rejects in Hrun|].
    assert (Circle.R c < GoInt.max_int) as HR.
    { revert Hrun. unfold Circle.draw, Display.getMaxXY. rewrite Hb.
      apply for_le_top. }
    rewrite circle_draw_paint in Hrun by done.
    destruct (paint_painted _ _ _ _ _ Hwf Hrun) as [Hwf' HX HY _ _ _ _ _].
    rewrite circle_draw_paint; [by apply (paint_again _ _ d)|done|].
    by rewrite HX, HY.
  - intros t d'. unfold Triangle.draw, Display.getMaxXY.
    destruct (Triangle.sorted t) as [[[x0 y0] [x1 y1]] [x2 y2]] eqn:Hs.
    destruct (sorted_ordered _ _ _ _ _ _ _ Hs) as (Hord & _ & _).
    destruct (Triangle.out_of_bounds _ _ _ _ _ _ (Display.maxX d) _) eqn:Hb;
      [done|].
    destruct (triangle_in_bounds _ _ _ _ _ _ _ _ Hb) as [Hy0 Hy2].
    destruct (fill_scan (Triangle.C t) x0 y0 x1 y1 x2 y2)
      as (left & right & _ & _ & _ & _ & Hfill);
      [lia|lia|destruct Hwf; lia|].
    rewrite Hfill. intros Hrun.
    destruct (paint_painted _ _ _ _ _ Hwf Hrun) as [Hwf' HX HY _ _ _ _ _].
    rewrite HX, HY, Hb, Hfill. by apply (paint_again _ _ d).
Qed.

Lemma draw_idempotent_witness :
  ∃ d', Triangle.draw
          (Triangle.mk (mkPoint 0 0) (mkPoint 2 1) (mkPoint 0 2) red)
          (fresh 3 3) = Returns None d'
        /\ Triangle.draw
             (Triangle.mk (mkPoint 0 0) (mkPoint 2 1) (mkPoint 0 2) red) d'
           = Returns None d'.
Proof.
  assert (initialized (fresh 3 3)) as Hinit by
    (apply initialized_fresh; unfold GoInt.max_int; lia).
  assert (∃ d', Triangle.draw
                  (Triangle.mk (mkPoint 0 0) (mkPoint 2 1) (mkPoint 0 2) red)
                  (fresh 3 3) = Returns None d') as [d' Hrun]
    by (eexists; vm_compute; reflexivity).
  exists d'. split; [done|].
  destruct (draw_idempotent (fresh 3 3) Hinit) as (_ & _ & Htri).
  by apply Htri.
Defined.

(** ** The triangle: the order of the vertices and the first scanline *)

(** X8.  The three swaps at the head of [Triangle.draw] sort the vertices:
    the result is a rearrangement of the three vertices, each [X] still with
    its [Y], in non-decreasing order of [Y]; vertices that are given in that
    order are left in place. *)
Theorem sorted_permutation t :
  sorted_vertices t ≡ₚ vertices t
  /\ (∀ a b c, sorted_vertices t = [a; b; c] -> a.2 <= b.2 <= c.2)
  /\ (Y (Triangle.Pt0 t) <= Y (Triangle.Pt1 t) <= Y (Triangle.Pt2 t) ->
      sorted_vertices t = vertices t).
Proof.
  unfold sorted_vertices, vertices, Triangle.sorted.
  repeat match goal with
         | |- context [?a <? ?b] =>
             destruct (Z.ltb_spec a b); cbv beta iota zeta
         end.
  all: split; [solve_Permutation|].
  all: split; [intros a b c [= <- <- <-]; cbn; lia|].
  all: intros Hord; first [lia | done].
Qed.

Lemma sorted_permutation_witness :
  sorted_vertices (Triangle.mk (mkPoint 0 0) (mkPoint 4 0) (mkPoint 0 4) red)
  = [(0, 0); (4, 0); (0, 4)].
Proof.
  destruct (sorted_permutation
              (Triangle.mk (mkPoint 0 0) (mkPoint 4 0) (mkPoint 0 4) red))
    as (_ & _ & Hkept).
  apply Hkept. cbn. lia.
Defined.

Lemma scan_points_first left right y0 v x :
  index left 0 = Some v -> index right 0 = Some v ->
  (x, y0) ∈ scan_points left right y0 -> x = v.
Proof.
  intros Hl Hr. unfold scan_points. rewrite list_elem_of_bind.
  intros (y & Hin & Hy).
  destruct (index left (y - y0)) as [lo|] eqn:Hlo;
    [|by apply elem_of_nil in Hin].
  destruct (index right (y - y0)) as [hi|] eqn:Hhi;
    [|by apply elem_of_nil in Hin].
  apply list_elem_of_fmap in Hin as (x' & [= -> ->] & Hx).
  rewrite Z.sub_diag in Hlo, Hhi.
  assert (lo = v) as -> by congruence. assert (hi = v) as -> by congruence.
  apply elem_of_seqZ in Hx. lia.
Qed.

(** X9.  The first scanline of a triangle.  [(x0, y0)] being the vertex that
    the swaps put first, with [x0 <= 2^53]: whatever [Triangle.draw] returns
    on a display in use, the only cell of the scanline [y0] that can differ
    afterwards is the one of the point [(x0, y0)].  Both boundaries of the
    fill start at [x0], also when a second vertex lies on that scanline, so
    a triangle with a flat top has one pixel in its top row; and a triangle
    whose three vertices share their [Y] paints at most that one pixel. *)
Theorem triangle_first_scanline t d e d' :
  initialized d -> (apex t).1 <= 2 ^ 53 ->
  Triangle.draw t d = Returns e d' ->
  (apex t).2
  = Z.min (Y (Triangle.Pt0 t)) (Z.min (Y (Triangle.Pt1 t)) (Y (Triangle.Pt2 t)))
  /\ (∀ x, cell d' x (apex t).2 ≠ cell d x (apex t).2 -> x = (apex t).1)
  /\ (Y (Triangle.Pt0 t) = Y (Triangle.Pt1 t) ->
      Y (Triangle.Pt1 t) = Y (Triangle.Pt2 t) ->
      ∀ x y, cell d' x y ≠ cell d x y ->
        (x, y) = (X (Triangle.Pt0 t), Y (Triangle.Pt0 t))).
Proof.
  intros Hinit H53. pose proof (initialized_wf d Hinit) as Hwf.
  unfold apex in *. unfold Triangle.draw, Display.getMaxXY.
  destruct (Triangle.sorted t) as [[[x0 y0] [x1 y1]] [x2 y2]] eqn:Hs.
  cbn [fst snd] in *.
  destruct (sorted_ordered _ _ _ _ _ _ _ Hs) as (Hord & Hmin & Hmax).
  intros Hrun. split; [done|].
  assert (Y (Triangle.Pt0 t) = Y (Triangle.Pt1 t) ->
          Y (Triangle.Pt1 t) = Y (Triangle.Pt2 t) ->
          (x0, y0) = (X (Triangle.Pt0 t), Y (Triangle.Pt0 t)) /\ y2 = y0)
    as Hflat.
  { intros H01 H12. split; [|lia].
    revert Hs. unfold Triangle.sorted. rewrite <- H12, <- H01.
    rewrite Z.ltb_irrefl. cbv beta iota zeta.
    rewrite Z.ltb_irrefl. cbv beta iota zeta.
    rewrite Z.ltb_irrefl. by intros [= <- <- _ _ _ _]. }
  destruct (Triangle.out_of_bounds _ _ _ _ _ _ _ _) eqn:Hb.
  { injection Hrun as _ <-. by split; [intros x Hne|intros _ _ x y Hne]. }
  destruct (triangle_in_bounds _ _ _ _ _ _ _ _ Hb) as [Hy0 Hy2].
  unfold Triangle.out_of_bounds in Hb. rewrite !orb_false_iff in Hb.
  destruct Hb as [[[[[[[[[[[Hx0 _] _] _] _] _] _] _] _] _] _] _].
  apply Z.ltb_ge in Hx0.
  destruct (fill_scan (Triangle.C t) x0 y0 x1 y1 x2 y2)
    as (left & right & _ & Hlen & Hl & Hr & Hfill);
    [lia|lia|destruct Hwf; lia|].
  rewrite to_int_of_int in Hl, Hr by lia.
  rewrite Hfill in Hrun.
  destruct (paint_painted _ _ _ _ _ Hwf Hrun) as [_ _ _ Hfr _ _ _ _].
  assert (∀ x, cell d' x y0 ≠ cell d x y0 -> x = x0) as Hrow.
  { intros x Hne. destruct (Hfr x y0) as [Heq|(Hm & _)]; [done|].
    by apply (scan_points_first left right y0 x0). }
  split; [exact Hrow|].
  intros H01 H12 x y Hne. destruct (Hflat H01 H12) as [<- ->].
  destruct (Hfr x y) as [Heq|(Hm & _)]; [done|].
  apply elem_of_scan_points in Hm. assert (y = y0) as -> by lia.
  by rewrite (Hrow x Hne).
Qed.

Lemma triangle_first_scanline_witness :
  ∃ d', Triangle.draw
          (Triangle.mk (mkPoint 0 0) (mkPoint 4 0) (mkPoint 0 4) red)
          (fresh 10 10) = Returns None d'
        /\ ∀ x, cell d' x 0 ≠ cell (fresh 10 10) x 0 -> x = 0.
Proof.
  assert (initialized (fresh 10 10)) as Hinit by
    (apply initialized_fresh; unfold GoInt.max_int; lia).
  assert (∃ d', Triangle.draw
                  (Triangle.mk (mkPoint 0 0) (mkPoint 4 0) (mkPoint 0 4) red)
                  (fresh 10 10) = Returns None d') as [d' Hrun]
    by (eexists; vm_compute; reflexivity).
  exists d'. split; [done|].
  destruct (triangle_first_scanline
              (Triangle.mk (mkPoint 0 0) (mkPoint 4 0) (mkPoint 0 4) red)
              (fresh 10 10) None d' Hinit) as (_ & Hrow & _).
  - cbn. lia.
  - exact Hrun.
  - exact Hrow.
Defined.

(** ** Sums and quotients of small integers in [float64] *)

Section SmallInts.

(** The mantissa and the exponent of the [float64] of a positive integer of
    at most 53 bits: the integer shifted to the left until it has 53 bits. *)
Lemma binary_round_small s p :
  Z.pos p < 2 ^ 53 ->
  ∃ m, binary_round Float64.prec Float64.emax s p 0
       = S754_finite s m (Z.pos (digits2_pos p) - 53)
       /\ Z.pos m = Z.pos p * 2 ^ (53 - Z.pos (digits2_pos p))
       /\ Z.pos (digits2_pos m) = 53.
Proof.
  intros Hp. pose proof (digits2_pos_bounds p) as [Hlo _].
  assert (Z.pos (digits2_pos p) <= 53) as Hd.
  { assert (Z.pos (digits2_pos p) - 1 < 53); [|lia].
    apply (Z.pow_lt_mono_r_iff 2); lia. }
  unfold binary_round, shl_align, fexp, emin, Float64.prec, Float64.emax.
  rewrite (Z.max_l (Z.pos (digits2_pos p) + 0 - 53)) by lia.
  destruct (Z.pos (digits2_pos p) + 0 - 53 - 0) as [|d|d] eqn:Ed; [|lia|].
  - exists p. replace (Z.pos (digits2_pos p) - 53) with 0 by lia.
    split; [apply binary_round_aux_exact; lia|].
    replace (53 - Z.pos (digits2_pos p)) with 0 by lia. split; lia.
  - exists (Pos.iter xO p d).
    replace (Z.pos (digits2_pos p) + 0 - 53)
      with (Z.pos (digits2_pos p) - 53) by lia.
    split; [|split].
    + apply binary_round_aux_exact; [|lia]. rewrite iter_xO_digits. lia.
    + rewrite iter_xO_value. do 2 f_equal. lia.
    + rewrite iter_xO_digits. lia.
Qed.

(** Shifting out zeros loses nothing. *)
Lemma shr_1_even z :
  0 < z ->
  shr_1 (Build_shr_record (2 * z) false false) = Build_shr_record z false false.
Proof. intros Hz. by destruct z as [|p|p]; [lia| |lia]. Qed.

Lemma iter_shr_1_exact n :
  ∀ z, 0 < z ->
    SpecFloat.iter_pos shr_1 n (Build_shr_record (z * 2 ^ Z.pos n) false false)
    = Build_shr_record z false false.
Proof.
  induction n as [n IH|n IH|]; intros z Hz; cbn [SpecFloat.iter_pos].
  - rewrite (Pos2Z.inj_xI n).
    replace (z * 2 ^ (2 * Z.pos n + 1))
      with (2 * (z * 2 ^ Z.pos n * 2 ^ Z.pos n)).
    2:{ replace (2 * Z.pos n + 1) with (Z.pos n + Z.pos n + 1) by lia.
        rewrite !Z.pow_add_r by lia. change (2 ^ 1) with 2. lia. }
    assert (0 < 2 ^ Z.pos n) by (apply Z.pow_pos_nonneg; lia).
    rewrite shr_1_even by nia. rewrite IH by nia. by apply IH.
  - rewrite (Pos2Z.inj_xO n).
    replace (z * 2 ^ (2 * Z.pos n)) with (z * 2 ^ Z.pos n * 2 ^ Z.pos n).
    2:{ replace (2 * Z.pos n) with (Z.pos n + Z.pos n) by lia.
        rewrite !Z.pow_add_r by lia. lia. }
    assert (0 < 2 ^ Z.pos n) by (apply Z.pow_pos_nonneg; lia).
    rewrite IH by nia. by apply IH.
  - change (2 ^ 1) with 2. rewrite (Z.mul_comm z 2). by apply shr_1_even.
Qed.

Lemma digits2_pos_unique p k :
  2 ^ (k - 1) <= Z.pos p < 2 ^ k -> Z.pos (digits2_pos p) = k.
Proof.
  intros [Hlo Hhi]. pose proof (digits2_pos_bounds p) as [Hlo' Hhi'].
  assert (0 < k).
  { destruct (Z.lt_ge_cases 0 k) as [|Hk]; [done|]. exfalso.
    destruct (Z.eq_dec k 0) as [->|Hne]; [cbn in Hhi; lia|].
    rewrite Z.pow_neg_r in Hhi by lia. lia. }
  assert (Z.pos (digits2_pos p) - 1 < k).
  { apply (Z.pow_lt_mono_r_iff 2); lia. }
  assert (k - 1 < Z.pos (digits2_pos p)).
  { apply (Z.pow_lt_mono_r_iff 2); lia. }
  lia.
Qed.

(** A mantissa of 53 bits followed by [n] zeros, at an exponent that leaves
    the result in range, is rounded to the 53 bits, exactly. *)
Lemma binary_round_aux_zeros s (M z : positive) e n :
  0 <= n -> Z.pos M = Z.pos z * 2 ^ n -> Z.pos (digits2_pos z) = 53 ->
  - 1074 <= e -> e + n <= 971 ->
  binary_round_aux Float64.prec Float64.emax s (Z.pos M) e loc_Exact
  = S754_finite s z (e + n).
Proof.
  intros Hn HM Hz He Hmax.
  assert (Z.pos (digits2_pos M) = 53 + n) as HdM.
  { apply digits2_pos_unique. pose proof (digits2_pos_bounds z) as [Hlo Hhi].
    rewrite Hz in Hlo, Hhi. rewrite HM.
    replace (53 + n - 1) with (53 - 1 + n) by lia.
    rewrite !Z.pow_add_r by lia.
    assert (0 < 2 ^ n) by (apply Z.pow_pos_nonneg; lia). nia. }
  assert (shr_fexp Float64.prec Float64.emax (Z.pos M) e loc_Exact
          = (Build_shr_record (Z.pos z) false false, e + n)) as Hshr.
  { unfold shr_fexp, shr, fexp, emin, Float64.prec, Float64.emax.
    cbn [Zdigits2 shr_record_of_loc]. rewrite HdM.
    replace (Z.max (53 + n + e - 53) (3 - 1024 - 53) - e) with n by lia.
    destruct n as [|n|n]; [|..|lia].
    - rewrite Z.add_0_r. do 2 f_equal. rewrite HM. cbn. lia.
    - rewrite HM. f_equal. by apply iter_shr_1_exact. }
  assert (shr_fexp Float64.prec Float64.emax (Z.pos z) (e + n) loc_Exact
          = (Build_shr_record (Z.pos z) false false, e + n)) as Hshr2.
  { unfold shr_fexp, shr, fexp, emin, Float64.prec, Float64.emax.
    cbn [Zdigits2 shr_record_of_loc]. rewrite Hz.
    by replace (Z.max (53 + (e + n) - 53) (3 - 1024 - 53) - (e + n))
      with 0 by lia. }
  unfold binary_round_aux. rewrite Hshr.
  cbn [shr_m loc_of_shr_record round_nearest_even]. rewrite Hshr2.
  cbn [shr_m]. unfold Float64.prec, Float64.emax.
  by destruct (Z.leb_spec (e + n) (1024 - 53)); [|lia].
Qed.

(** An integer of at most 53 bits, given with [k] zeros after it at the
    exponent [-k], is rounded to the [float64] of the integer. *)
Lemma binary_round_scaled s (M p : positive) k :
  0 <= k <= 1074 -> Z.pos M = Z.pos p * 2 ^ k -> Z.pos p < 2 ^ 53 ->
  binary_round Float64.prec Float64.emax s M (- k)
  = binary_round Float64.prec Float64.emax s p 0.
Proof.
  intros Hk HM Hp.
  destruct (binary_round_small s p Hp) as (m & -> & Hm & Hdm).
  pose proof (digits2_pos_bounds p) as [Hlo Hhi].
  assert (Z.pos (digits2_pos p) <= 53) as Hd.
  { assert (Z.pos (digits2_pos p) - 1 < 53); [|lia].
    apply (Z.pow_lt_mono_r_iff 2); lia. }
  set (t := Z.pos (digits2_pos p) - 53) in *.
  assert (Z.pos (digits2_pos M) = Z.pos (digits2_pos p) + k) as HdM.
  { apply digits2_pos_unique. rewrite HM.
    replace (Z.pos (digits2_pos p) + k - 1)
      with (Z.pos (digits2_pos p) - 1 + k) by lia.
    rewrite !Z.pow_add_r by lia.
    assert (0 < 2 ^ k) by (apply Z.pow_pos_nonneg; lia). nia. }
  unfold binary_round, shl_align, fexp, emin, Float64.prec, Float64.emax.
  rewrite HdM.
  replace (Z.max (Z.pos (digits2_pos p) + k + - k - 53) (3 - 1024 - 53))
    with t by lia.
  destruct (t - - k) as [|n|n] eqn:En.
  - replace (- k) with t by lia.
    replace t with (t + 0) at 2 by lia.
    apply binary_round_aux_zeros; try lia.
    rewrite Z.mul_1_r, Hm, HM. do 2 f_equal. lia.
  - replace t with (- k + Z.pos n) at 1 by lia.
    apply binary_round_aux_zeros; try lia.
    rewrite HM, Hm, <- Z.mul_assoc, <- Z.pow_add_r by lia. do 2 f_equal. lia.
  - assert (Pos.iter xO M n = m) as ->.
    { apply Pos2Z.inj. rewrite iter_xO_value, HM, Hm.
      rewrite <- Z.mul_assoc, <- Z.pow_add_r by lia. do 2 f_equal. lia. }
    apply binary_round_aux_exact; [|lia]. rewrite Hdm. lia.
Qed.

End SmallInts.

Section SmallInts2.

(** The [float64] of a non-zero integer of at most 53 bits. *)
Lemma of_int_small x :
  - 2 ^ 53 < x < 2 ^ 53 -> x ≠ 0 ->
  ∃ m e, Float64.of_int x = S754_finite (x <? 0) m e
         /\ - 52 <= e <= 0
         /\ Z.pos m = Z.abs x * 2 ^ (- e)
         /\ Z.pos (digits2_pos m) = 53.
Proof.
  intros Hx Hne. unfold Float64.of_int.
  assert (∀ p, Z.pos p < 2 ^ 53 -> - 52 <= Z.pos (digits2_pos p) - 53 <= 0)
    as Hexp.
  { intros p Hp. pose proof (digits2_pos_bounds p) as [Hlo _].
    assert (Z.pos (digits2_pos p) - 1 < 53); [|lia].
    apply (Z.pow_lt_mono_r_iff 2); lia. }
  destruct x as [|p|p]; [done|..]; cbn [binary_normalize].
  - destruct (binary_round_small false p) as (m & -> & Hm & Hd); [lia|].
    exists m, (Z.pos (digits2_pos p) - 53).
    split; [done|]. split; [apply Hexp; lia|]. split; [|done].
    rewrite Hm. cbn [Z.abs]. do 2 f_equal. lia.
  - destruct (binary_round_small true p) as (m & -> & Hm & Hd); [lia|].
    exists m, (Z.pos (digits2_pos p) - 53).
    split; [done|]. split; [apply Hexp; lia|]. split; [|done].
    rewrite Hm. cbn [Z.abs]. do 2 f_equal. lia.
Qed.

Lemma shl_align_value m e e' :
  e' <= e -> Z.pos (shl_align m e e').1 = Z.pos m * 2 ^ (e - e').
Proof.
  intros He. unfold shl_align. destruct (e' - e) as [|d|d] eqn:Ed; [|lia|].
  - replace (e - e') with 0 by lia. cbn. lia.
  - cbn [fst]. rewrite iter_xO_value. do 2 f_equal. lia.
Qed.

Lemma cond_Zopp_sign x k : cond_Zopp (x <? 0) (Z.abs x * k) = x * k.
Proof. destruct (Z.ltb_spec x 0); cbn [cond_Zopp]; lia. Qed.

(** The sum of two integers is computed exactly as long as the three
    numbers have at most 53 bits. *)
Lemma add_of_int a b :
  - 2 ^ 53 < a < 2 ^ 53 -> - 2 ^ 53 < b < 2 ^ 53 ->
  - 2 ^ 53 < a + b < 2 ^ 53 ->
  Float64.add (Float64.of_int a) (Float64.of_int b) = Float64.of_int (a + b).
Proof.
  intros Ha Hb Hab.
  destruct (Z.eq_dec a 0) as [->|Hane].
  { rewrite Z.add_0_l. change (Float64.of_int 0) with (S754_zero false).
    destruct (Z.eq_dec b 0) as [->|Hbne]; [done|].
    by destruct (of_int_small b Hb Hbne) as (m & e & -> & _). }
  destruct (Z.eq_dec b 0) as [->|Hbne].
  { rewrite Z.add_0_r. change (Float64.of_int 0) with (S754_zero false).
    by destruct (of_int_small a Ha Hane) as (m & e & -> & _). }
  destruct (of_int_small a Ha Hane) as (ma & ea & -> & Hea & Hma & _).
  destruct (of_int_small b Hb Hbne) as (mb & eb & -> & Heb & Hmb & _).
  unfold Float64.add. cbn [SFadd]. cbv zeta.
  set (ez := Z.min ea eb).
  rewrite !shl_align_value by lia. rewrite Hma, Hmb.
  rewrite <- !Z.mul_assoc, <- !Z.pow_add_r by lia.
  replace (- ea + (ea - ez)) with (- ez) by lia.
  replace (- eb + (eb - ez)) with (- ez) by lia.
  rewrite !cond_Zopp_sign, <- Z.mul_add_distr_r.
  assert (0 < 2 ^ (- ez)) as Hpow by (apply Z.pow_pos_nonneg; lia).
  unfold Float64.of_int.
  destruct (a + b) as [|p|p] eqn:Es.
  - done.
  - destruct (Z.pos p * 2 ^ (- ez)) as [|M|M] eqn:EM; [nia| |nia].
    cbn [binary_normalize]. rewrite <- (Z.opp_involutive ez) at 1.
    apply binary_round_scaled; [lia|done|lia].
  - destruct (Z.neg p * 2 ^ (- ez)) as [|M|M] eqn:EM; [nia|nia|].
    cbn [binary_normalize]. rewrite <- (Z.opp_involutive ez) at 1.
    apply binary_round_scaled; [lia| |lia].
    assert (Z.pos M = - Z.neg M) as -> by done. rewrite <- EM.
    rewrite <- Z.mul_opp_l. done.
Qed.

(** A quotient that is an integer is computed exactly. *)
Lemma div_of_int dx dy s :
  0 < dy < 2 ^ 53 -> - 2 ^ 53 < dx < 2 ^ 53 -> dx = s * dy ->
  Float64.div (Float64.of_int dx) (Float64.of_int dy) = Float64.of_int s.
Proof.
  intros Hdy Hdx Hs.
  destruct (of_int_small dy) as (m2 & e2 & -> & He2 & Hm2 & Hd2); [lia..|].
  destruct (Z.ltb_spec dy 0) as [|_]; [lia|].
  destruct (Z.eq_dec s 0) as [->|Hsne].
  { subst dx. done. }
  assert (- 2 ^ 53 < s < 2 ^ 53) as Hs53 by nia.
  assert (dx ≠ 0) as Hdxne by nia.
  assert ((dx <? 0) = (s <? 0)) as Hsign.
  { destruct (Z.ltb_spec dx 0), (Z.ltb_spec s 0); try done; nia. }
  destruct (of_int_small dx Hdx Hdxne) as (m1 & e1 & -> & He1 & Hm1 & Hd1).
  destruct (of_int_small s Hs53 Hsne) as (m & t & -> & Ht & Hm & Hd).
  rewrite Hsign. unfold Float64.div. cbn [SFdiv].
  unfold SFdiv_core_binary. cbn [Zdigits2]. rewrite Hd1, Hd2. cbv zeta.
  unfold fexp, emin, Float64.prec, Float64.emax.
  replace (Z.min (Z.max (53 + e1 - (53 + e2) - 53) (3 - 1024 - 53)) (e1 - e2))
    with (e1 - e2 - 53) by lia.
  replace (e1 - e2 - (e1 - e2 - 53)) with 53 by lia.
  rewrite Z.shiftl_mul_pow2 by lia.
  assert (Z.abs dx = Z.abs s * dy) as Habs by nia.
  set (n := e2 - e1 + 53 + t).
  assert (0 < 2 ^ (- e1) /\ 0 < 2 ^ (- e2) /\ 0 < 2 ^ (- t))
    as (Hp1 & Hp2 & Hp3) by (repeat split; apply Z.pow_pos_nonneg; lia).
  pose proof (digits2_pos_bounds m1) as [Hlo1 Hhi1].
  pose proof (digits2_pos_bounds m2) as [Hlo2 Hhi2].
  pose proof (digits2_pos_bounds m) as [Hlo Hhi].
  rewrite Hd1 in Hlo1, Hhi1. rewrite Hd2 in Hlo2, Hhi2.
  rewrite Hd in Hlo, Hhi.
  change (2 ^ (53 - 1)) with 4503599627370496 in *.
  change (2 ^ 53) with 9007199254740992 in *.
  assert (0 <= n) as Hn.
  { destruct (Z.lt_ge_cases n 0) as [Hneg|]; [exfalso|done].
    assert (Z.pos m * Z.pos m2 = Z.pos m1 * 2 ^ (- t - e2 + e1)) as Hprod.
    { rewrite Hm, Hm2, Hm1, Habs.
      replace (Z.abs s * 2 ^ (- t) * (Z.abs dy * 2 ^ (- e2)))
        with (Z.abs s * Z.abs dy * (2 ^ (- t) * 2 ^ (- e2))) by lia.
      rewrite <- Z.pow_add_r by lia.
      replace (Z.abs s * dy * 2 ^ (- e1) * 2 ^ (- t - e2 + e1))
        with (Z.abs s * dy * (2 ^ (- e1) * 2 ^ (- t - e2 + e1))) by lia.
      rewrite <- Z.pow_add_r by lia.
      replace (Z.abs dy) with dy by lia. do 2 f_equal. lia. }
    assert (2 ^ 54 <= 2 ^ (- t - e2 + e1)) as Hbig
      by (apply Z.pow_le_mono_r; lia).
    change (2 ^ 54) with 18014398509481984 in Hbig. nia. }
  assert (Z.pos m1 * 9007199254740992 = Z.pos m * 2 ^ n * Z.pos m2) as Hq.
  { rewrite Hm, Hm2, Hm1, Habs. replace (Z.abs dy) with dy by lia.
    change 9007199254740992 with (2 ^ 53).
    replace (Z.abs s * dy * 2 ^ (- e1) * 2 ^ 53)
      with (Z.abs s * dy * (2 ^ (- e1) * 2 ^ 53)) by lia.
    replace (Z.abs s * 2 ^ (- t) * 2 ^ n * (dy * 2 ^ (- e2)))
      with (Z.abs s * dy * (2 ^ (- t) * 2 ^ n * 2 ^ (- e2))) by lia.
    rewrite <- !Z.pow_add_r by lia. do 2 f_equal. unfold n. lia. }
  destruct (Z.div_eucl (Z.pos m1 * 9007199254740992) (Z.pos m2))
    as [q r] eqn:Ediv.
  assert (q = Z.pos m * 2 ^ n /\ r = 0) as [-> ->].
  { assert (Z.pos m1 * 9007199254740992 / Z.pos m2 = q) as <-
      by (unfold Z.div; by rewrite Ediv).
    assert ((Z.pos m1 * 9007199254740992) mod Z.pos m2 = r) as <-
      by (unfold Z.modulo; by rewrite Ediv).
    rewrite Hq. split; [apply Z.div_mul; lia | apply Z.mod_mul; lia]. }
  assert (new_location (Z.pos m2) 0 = loc_Exact) as ->.
  { unfold new_location, new_location_even, new_location_odd.
    by destruct (Z.even (Z.pos m2)). }
  assert (0 < 2 ^ n) as Hpn by (apply Z.pow_pos_nonneg; lia).
  destruct (Z.pos m * 2 ^ n) as [|Q|Q] eqn:EQ; [nia| |nia].
  rewrite xorb_false_r.
  replace t with (e1 - e2 - 53 + n) at 1 by (unfold n; lia).
  apply binary_round_aux_zeros; try done; unfold n; lia.
Qed.

End SmallInts2.

(** ** Edges of integer slope *)

Lemma length_line x s n : length (line x s n) = Z.to_nat n.
Proof. unfold line. by rewrite length_fmap, length_seqZ. Qed.

Lemma index_line x s n r :
  0 <= r < n -> index (line x s n) r = Some (x + s * r).
Proof.
  intros Hr. apply index_Some. split; [lia|]. unfold line.
  rewrite list_lookup_fmap, lookup_seqZ_lt by lia. cbn.
  by rewrite Z2Nat.id by lia.
Qed.

Lemma line_cons x s n : 0 < n -> line x s n = x :: line (x + s) s (n - 1).
Proof.
  intros Hn. unfold line. rewrite seqZ_cons by lia. cbn [fmap list_fmap].
  f_equal; [lia|].
  rewrite <- (fmap_add_seqZ 1 0), <- list_fmap_compose.
  replace (Z.pred n) with (n - 1) by lia.
  apply list_fmap_ext. intros _ i _. cbn. lia.
Qed.

Lemma values_integer (n : nat) x s :
  - 2 ^ 53 < s < 2 ^ 53 ->
  (∀ i, 0 <= i < Z.of_nat n -> - 2 ^ 53 < x + s * i < 2 ^ 53) ->
  Triangle.values n (Float64.of_int x) (Float64.of_int s)
  = line x s (Z.of_nat n).
Proof.
  intros Hs. revert x. induction n as [|n IH]; intros x Hx; [done|].
  rewrite line_cons by lia. cbn [Triangle.values].
  pose proof (Hx 0 ltac:(lia)) as Hx0. rewrite Z.mul_0_r, Z.add_0_r in Hx0.
  rewrite to_int_of_int by lia. f_equal.
  replace (Z.of_nat (S n) - 1) with (Z.of_nat n) by lia.
  destruct n as [|n]; [done|].
  pose proof (Hx 1 ltac:(lia)) as Hx1. rewrite Z.mul_1_r in Hx1.
  rewrite add_of_int by lia. apply IH. intros i Hi.
  replace (x + s + s * i) with (x + s * (i + 1)) by lia. apply Hx. lia.
Qed.

(** The edge between two rows, when its slope is an integer. *)
Lemma edge_integer y0 x0 y1 x1 s :
  y0 < y1 -> y1 - y0 < 2 ^ 53 ->
  - 2 ^ 53 < x0 < 2 ^ 53 -> - 2 ^ 53 < x1 < 2 ^ 53 ->
  - 2 ^ 53 < x1 - x0 < 2 ^ 53 -> x1 - x0 = s * (y1 - y0) ->
  edge y0 x0 y1 x1 = line x0 s (y1 - y0 + 1).
Proof.
  intros Hy Hrows Hx0 Hx1 Hdx Hs. unfold edge.
  assert (2 ^ 53 < GoInt.max_int) as H53 by (by vm_compute).
  unfold GoInt.sub. rewrite !wrap_int by (int_numerals; lia).
  rewrite (div_of_int (x1 - x0) (y1 - y0) s) by lia.
  rewrite values_integer; [f_equal; lia|nia|].
  intros i Hi. nia.
Qed.

Lemma edge_one_row y x0 x1 :
  - 2 ^ 53 <= x0 <= 2 ^ 53 -> edge y x0 y x1 = [x0].
Proof.
  intros Hx0. unfold edge. replace (y - y + 1) with 1 by lia.
  change (Z.to_nat 1) with 1%nat. cbn [Triangle.values].
  by rewrite to_int_of_int.
Qed.

(** X11.  An edge of integer slope is followed exactly: for [y0 < y1] below
    the largest int, fewer than [2^53] rows apart, [x0], [x1] and
    [x1 - x0] of at most 53 bits, and [x1 - x0 = s (y1 - y0)] for an
    integer [s], [interpolate(y0, x0, y1, x1)] returns [x0], [x0 + s],
    [x0 + 2s], ..., [x1]: neither the division nor the repeated addition in
    [float64] loses anything. *)
Theorem interpolate_integer_slope {S} y0 x0 y1 x1 s (st : S) :
  y0 < y1 -> y1 < GoInt.max_int -> y1 - y0 < 2 ^ 53 ->
  - 2 ^ 53 < x0 < 2 ^ 53 -> - 2 ^ 53 < x1 < 2 ^ 53 ->
  - 2 ^ 53 < x1 - x0 < 2 ^ 53 -> x1 - x0 = s * (y1 - y0) ->
  Triangle.interpolate y0 x0 y1 x1 st
  = Returns (line x0 s (y1 - y0 + 1)) st
  /\ Z.of_nat (length (line x0 s (y1 - y0 + 1))) = y1 - y0 + 1
  /\ ∀ r, 0 <= r <= y1 - y0 ->
        index (line x0 s (y1 - y0 + 1)) r = Some (x0 + s * r).
Proof.
  intros Hy Hmax Hrows Hx0 Hx1 Hdx Hs.
  assert (2 ^ 53 < GoInt.max_int) as H53 by (by vm_compute).
  split; [|split].
  - rewrite <- (edge_integer y0 x0 y1 x1 s) by done.
    unfold Triangle.interpolate, edge.
    unfold GoInt.sub at 1. rewrite (wrap_int (y1 - y0)) by (int_numerals; lia).
    unfold GoInt.add. rewrite wrap_int by (int_numerals; lia).
    destruct (Z.ltb_spec (y1 - y0 + 1) 0); [lia|]. cbv zeta.
    destruct (Z.eqb_spec y1 GoInt.max_int); [lia|].
    by rewrite andb_false_r.
  - rewrite length_line. lia.
  - intros r Hr. apply index_line. lia.
Qed.

Lemma interpolate_integer_slope_witness :
  Triangle.interpolate 0 1 3 7 tt = Returns [1; 3; 5; 7] tt.
Proof.
  destruct (interpolate_integer_slope 0 1 3 7 2 tt) as [Hrun _];
    [int_numerals; lia..|].
  exact Hrun.
Defined.

(** ** The colour table *)

(** X12.  The colour table has exactly the nine named colours, the ints 0
    to 8; each of its entries has its three channels in the range of a
    [uint8]; and no two colours share an entry, so that a pixel of the file
    names one colour. *)
Theorem colorMap_table :
  (∀ c, is_Some (colorMap !! c) <-> 0 <= c <= 8)
  /\ (∀ c rgb, colorMap !! c = Some rgb ->
        0 <= RGB.R rgb <= 255 /\ 0 <= RGB.G rgb <= 255
        /\ 0 <= RGB.B rgb <= 255)
  /\ (∀ c1 c2 rgb, colorMap !! c1 = Some rgb -> colorMap !! c2 = Some rgb ->
        c1 = c2).
Proof.
  assert (∀ c rgb, colorMap !! c = Some rgb ->
            (c, rgb) ∈ [ (red, RGB.mk 255 0 0); (green, RGB.mk 0 255 0);
                         (blue, RGB.mk 0 0 255); (yellow, RGB.mk 255 255 0);
                         (orange, RGB.mk 255 164 0);
                         (purple, RGB.mk 128 0 128);
                         (brown, RGB.mk 165 42 42); (black, RGB.mk 0 0 0);
                         (white, RGB.mk 255 255 255) ]) as Hin.
  { intros c rgb. apply elem_of_list_to_map_2. }
  assert (∀ c rgb, colorMap !! c = Some rgb ->
            (c = 0 /\ rgb = RGB.mk 255 0 0) \/ (c = 1 /\ rgb = RGB.mk 0 255 0)
            \/ (c = 2 /\ rgb = RGB.mk 0 0 255)
            \/ (c = 3 /\ rgb = RGB.mk 255 255 0)
            \/ (c = 4 /\ rgb = RGB.mk 255 164 0)
            \/ (c = 5 /\ rgb = RGB.mk 128 0 128)
            \/ (c = 6 /\ rgb = RGB.mk 165 42 42)
            \/ (c = 7 /\ rgb = RGB.mk 0 0 0)
            \/ (c = 8 /\ rgb = RGB.mk 255 255 255)) as Hcases.
  { intros c rgb Hc. apply Hin in Hc.
    repeat (apply elem_of_cons in Hc as [[= -> ->]|Hc]; [tauto|]).
    by apply elem_of_nil in Hc. }
  split; [|split].
  - intros c. split.
    + intros [rgb Hc]. apply Hcases in Hc. lia.
    + intros Hc.
      assert (c = 0 \/ c = 1 \/ c = 2 \/ c = 3 \/ c = 4 \/ c = 5 \/ c = 6
              \/ c = 7 \/ c = 8) as Hv by lia.
      repeat (destruct Hv as [->|Hv]; [by eexists|]). subst c. by eexists.
  - intros c rgb Hc. apply Hcases in Hc.
    repeat (destruct Hc as [[_ ->]|Hc]; [cbn; lia|]).
    destruct Hc as [_ ->]. cbn. lia.
  - intros c1 c2 rgb H1 H2. apply Hcases in H1, H2.
    repeat destruct H1 as [H1|H1]; repeat destruct H2 as [H2|H2];
      destruct H1 as [-> H1], H2 as [-> H2]; congruence.
Qed.

Lemma colorMap_table_witness :
  0 <= RGB.G (RGB.mk 255 164 0) <= 255
  /\ ∀ c, colorMap !! c = Some (RGB.mk 255 164 0) -> c = orange.
Proof.
  destruct colorMap_table as (_ & Hbytes & Hinj).
  split.
  - by destruct (Hbytes orange (RGB.mk 255 164 0)) as (_ & ? & _).
  - intros c Hc. by apply (Hinj c orange (RGB.mk 255 164 0)).
Defined.

(** ** [screenShot] and the file system *)

Section OneFile.
Context (file : string) (o0 : OS.t).

Lemma untouched_refl : untouched file o0 o0.
Proof. by split; [|split]. Qed.

Lemma Create_untouched : preserves (untouched file o0) (OS.Create file).
Proof.
  intros o e o' (Hl & Hm & Hf). unfold OS.Create.
  case_decide; intros [= _ <-]; [done|].
  split; [done|]. split; [done|]. intros path Hne. cbn.
  rewrite lookup_insert_ne by done. by apply Hf.
Qed.

Lemma Fprint_untouched text :
  preserves (untouched file o0) (OS.Fprint file text).
Proof.
  intros o e o' (Hl & Hm & Hf). unfold OS.Fprint.
  destruct (OS.files o !! file) as [old|]; [|by intros [= _ <-]].
  case_decide; intros [= _ <-];
    (split; [done|]; split; [done|]; intros path Hne; cbn;
     rewrite lookup_insert_ne by done; by apply Hf).
Qed.

End OneFile.

(** X13.  [screenShot(name)] touches one file.  Whatever the display and
    whatever the call returns, every path other than [name + ".ppm"] has the
    contents it had, and what can be created or written is as before.  When
    that path cannot be created the call returns the error of [os.Create]
    and the file system is exactly as it was. *)
Theorem screenShot_one_file filename d o :
  (∀ e o', Screen.screenShot filename d o = Returns e o' ->
     OS.locked o' = OS.locked o /\ OS.limit o' = OS.limit o
     /\ ∀ path, path ≠ filename +:+ ".ppm" ->
          OS.files o' !! path = OS.files o !! path)
  /\ (filename +:+ ".ppm" ∈ OS.locked o ->
      Screen.screenShot filename d o
      = Returns (Some (IOError (filename +:+ ".ppm"))) o).
Proof.
  split.
  - intros e o' Hrun.
    change (untouched (filename +:+ ".ppm") o o').
    assert (preserves (untouched (filename +:+ ".ppm") o)
              (Screen.screenShot filename d)) as Hkeeps.
    { unfold Screen.screenShot. cbv zeta.
      apply preserves_check; [apply Create_untouched|].
      apply preserves_check; [apply Fprint_untouched|].
      apply preserves_for_lt. intros y.
      apply preserves_check; [|apply Fprint_untouched].
      apply preserves_for_lt. intros x.
      apply preserves_bind; [apply preserves_at_index|]. intros row.
      apply preserves_bind; [apply preserves_at_index|]. intros v.
      destruct (colorMap !! v); [apply Fprint_untouched|apply preserves_ret]. }
    exact (Hkeeps o e o' (untouched_refl _ o) Hrun).
  - intros Hlocked. unfold Screen.screenShot. cbv zeta.
    unfold check at 1. unfold bind, OS.Create.
    by rewrite decide_True by done.
Qed.

Lemma screenShot_one_file_witness :
  Screen.screenShot "out" (fresh 2 2)
    (OS.mk {["a.txt" := "kept"]} {["out.ppm"]} 10)
  = Returns (Some (IOError "out.ppm"))
      (OS.mk {["a.txt" := "kept"]} {["out.ppm"]} 10).
Proof.
  destruct (screenShot_one_file "out" (fresh 2 2)
              (OS.mk {["a.txt" := "kept"]} {["out.ppm"]} 10)) as [_ Hlocked].
  apply Hlocked. cbn. by apply elem_of_singleton.
Defined.

(** ** The file that [screenShot] leaves behind *)

Lemma first_bytes_nil n : OS.first_bytes n "" = ""%string.
Proof. by destruct n. Qed.

Lemma first_bytes_all n s :
  (String.length s <= n)%nat -> OS.first_bytes n s = s.
Proof.
  revert n. induction s as [|c s IH]; intros n Hn; [apply first_bytes_nil|].
  destruct n as [|n]; cbn in *; [lia|]. rewrite IH; [done|lia].
Qed.

Lemma first_bytes_app n a b :
  (String.length a <= n)%nat ->
  OS.first_bytes n (a +:+ b)
  = a +:+ OS.first_bytes (n - String.length a) b.
Proof.
  revert n. induction a as [|c a IH]; intros n Hn.
  { cbn. by rewrite Nat.sub_0_r. }
  destruct n as [|n]; cbn in Hn; [lia|].
  change (String c (OS.first_bytes n (a +:+ b))
          = String c (a +:+ OS.first_bytes (n - String.length a) b)).
  rewrite IH; [done|lia].
Qed.

Lemma first_bytes_short n a b :
  (n <= String.length a)%nat ->
  OS.first_bytes n (a +:+ b) = OS.first_bytes n a.
Proof.
  revert n. induction a as [|c a IH]; intros n Hn.
  { cbn in Hn. by replace n with 0%nat by lia. }
  destruct n as [|n]; [done|]. cbn in Hn.
  change (String c (OS.first_bytes n (a +:+ b))
          = String c (OS.first_bytes n a)).
  rewrite IH; [done|lia].
Qed.

Lemma first_bytes_prefix n s : ∃ rest, s = OS.first_bytes n s +:+ rest.
Proof.
  revert n. induction s as [|c s IH]; intros n.
  { exists ""%string. by rewrite first_bytes_nil. }
  destruct n as [|n]; [by exists (String c s)|].
  destruct (IH n) as [rest Hrest]. exists rest.
  change (String c s = String c (OS.first_bytes n s +:+ rest)).
  by rewrite <- Hrest.
Qed.

Lemma prefix_first_bytes w rest :
  OS.first_bytes (String.length w) (w +:+ rest) = w.
Proof.
  rewrite first_bytes_app by done.
  by rewrite Nat.sub_diag, string_app_nil_r.
Qed.

Lemma length_first_bytes n s :
  String.length (OS.first_bytes n s) = (n `min` String.length s)%nat.
Proof.
  revert n. induction s as [|c s IH]; intros n.
  { rewrite first_bytes_nil. cbn. lia. }
  destruct n as [|n]; [done|]. cbn. rewrite IH. lia.
Qed.

Lemma text_of_app (a b : list string) :
  text_of (a ++ b) = text_of a +:+ text_of b.
Proof.
  induction a as [|piece a IH]; [done|].
  change (piece +:+ text_of (a ++ b) = (piece +:+ text_of a) +:+ text_of b).
  by rewrite IH, string_app_assoc.
Qed.

Lemma printed_text c : printed c = pixel_text c.
Proof.
  unfold printed. destruct (colorMap !! c) as [color|] eqn:Hc.
  - by apply triple_text.
  - unfold pixel_text. by rewrite Hc.
Qed.

Lemma text_of_pixels (row : list Color) :
  text_of (printed <$> row) = cells_text row.
Proof.
  induction row as [|c row IH]; [done|].
  change (printed c +:+ text_of (printed <$> row)
          = pixel_text c +:+ cells_text row).
  by rewrite IH, printed_text.
Qed.

Lemma text_of_row (row : list Color) : text_of (row_chunks row) = row_text row.
Proof.
  unfold row_chunks, row_text. rewrite text_of_app, text_of_pixels.
  change (text_of [nl]) with (nl +:+ "").
  by rewrite string_app_nil_r, nl_LF.
Qed.

Lemma text_of_rows (m : list (list Color)) :
  text_of (m ≫= row_chunks) = rows_text m.
Proof.
  induction m as [|row m IH]; [done|].
  change (text_of (row_chunks row ++ (m ≫= row_chunks))
          = row_text row +:+ rows_text m).
  by rewrite text_of_app, text_of_row, IH.
Qed.

Lemma text_of_chunks d : text_of (chunks d) = ppm_text d.
Proof.
  change (Screen.header (Display.maxX d) (Display.maxY d)
          +:+ text_of (Display.matrix d ≫= row_chunks) = ppm_text d).
  by rewrite text_of_rows, header_text.
Qed.

Section Prints.
Context (file : string).

Lemma for_each_snoc {A} (l : list A) (a : A) (body : A -> M OS.t err) o :
  check (for_each l body) (body a) o = for_each (l ++ [a]) body o.
Proof.
  rewrite for_each_app. unfold check, bind.
  destruct (for_each l body o) as [[e|] s| |]; try done.
  cbn. by destruct (body a s) as [[e|] s'| |].
Qed.

Context (d : Display.t).

Lemma pixels_print y row :
  index (Display.matrix d) y = Some row -> Forall known row ->
  ∀ (n k : nat) o,
    (k + n = length row)%nat ->
    for_each (seqZ (Z.of_nat k) (Z.of_nat n)) (pixel_step file d y) o
    = for_each (printed <$> drop k row) (OS.Fprint file) o.
Proof.
  intros Hrow Hknown n.
  induction n as [|n IH]; intros k o Hlen.
  { by rewrite drop_ge by lia. }
  destruct (lookup_lt_is_Some_2 row k) as [c Hc]; [lia|].
  rewrite (drop_S _ _ _ Hc). rewrite seqZ_cons by lia.
  cbn [for_each fmap list_fmap].
  replace (Z.succ (Z.of_nat k)) with (Z.of_nat (S k)) by lia.
  replace (Z.pred (Z.of_nat (S n))) with (Z.of_nat n) by lia.
  assert (pixel_step file d y (Z.of_nat k) o
          = OS.Fprint file (printed c) o) as ->.
  { unfold pixel_step, bind, at_index. rewrite Hrow. cbn.
    assert (index row (Z.of_nat k) = Some c) as ->.
    { apply index_Some. split; [lia|]. by rewrite Nat2Z.id. }
    cbn. destruct (Forall_lookup_1 _ _ _ _ Hknown Hc) as [rgb Hrgb].
    unfold printed. by rewrite Hrgb. }
  destruct (OS.Fprint file (printed c) o) as [[e|] s| |]; try done.
  apply IH. lia.
Qed.

Lemma rows_print :
  Forall (λ row : list Color, length row = Z.to_nat (Display.maxX d))
         (Display.matrix d) ->
  Forall (Forall known) (Display.matrix d) ->
  ∀ (n k : nat) o,
    (k + n = length (Display.matrix d))%nat ->
    for_each (seqZ (Z.of_nat k) (Z.of_nat n)) (row_step file d) o
    = for_each (drop k (Display.matrix d) ≫= row_chunks) (OS.Fprint file) o.
Proof.
  intros Hcols Hknown n.
  induction n as [|n IH]; intros k o Hlen.
  { by rewrite drop_ge by lia. }
  destruct (lookup_lt_is_Some_2 (Display.matrix d) k) as [row Hrow]; [lia|].
  rewrite (drop_S _ _ _ Hrow). rewrite seqZ_cons by lia.
  cbn [for_each mbind list_bind].
  replace (Z.succ (Z.of_nat k)) with (Z.of_nat (S k)) by lia.
  replace (Z.pred (Z.of_nat (S n))) with (Z.of_nat n) by lia.
  pose proof (Forall_lookup_1 _ _ _ _ Hcols Hrow) as Hwidth. cbn in Hwidth.
  pose proof (Forall_lookup_1 _ _ _ _ Hknown Hrow) as Hkrow.
  assert (row_step file d (Z.of_nat k) o
          = for_each (row_chunks row) (OS.Fprint file) o) as ->.
  { unfold row_step, row_chunks. rewrite <- for_each_snoc.
    unfold check, bind, for_lt.
    assert (index (Display.matrix d) (Z.of_nat k) = Some row) as Hidx.
    { apply index_Some. split; [lia|]. by rewrite Nat2Z.id. }
    pose proof (pixels_print _ _ Hidx Hkrow (length row) 0 o) as Hpix.
    rewrite drop_0 in Hpix.
    replace (seqZ 0 (Display.maxX d - 0))
      with (seqZ (Z.of_nat 0) (Z.of_nat (length row)))
      by (apply seqZ_to_nat; lia).
    by rewrite Hpix by lia. }
  rewrite for_each_app.
  destruct (for_each (row_chunks row) (OS.Fprint file) o) as [[e|] s| |];
    try done.
  apply IH. lia.
Qed.

(** Printing pieces one after the other to a file that holds [old]: the
    file ends as [old] followed by the bytes of the pieces that still fit
    under the limit, and the run fails exactly when some do not. *)
Lemma prints_result pieces :
  ∀ old o, OS.files o !! file = Some old ->
    (String.length old <= OS.limit o)%nat ->
    ∃ e,
      for_each pieces (OS.Fprint file) o
      = Returns e
          (appended file old
             (OS.first_bytes (OS.limit o - String.length old)
                             (text_of pieces)) o)
      /\ ((String.length (old +:+ text_of pieces) <= OS.limit o)%nat ->
          e = None)
      /\ ((OS.limit o < String.length (old +:+ text_of pieces))%nat ->
          e = Some (IOError file)).
Proof.
  induction pieces as [|piece pieces IH]; intros old o Hold Hfits.
  { exists None. cbn. rewrite first_bytes_nil, appended_nil by done.
    rewrite string_app_nil_r. split; [done|]. split; [done|lia]. }
  cbn [for_each text_of foldr]. fold (text_of pieces).
  unfold OS.Fprint at 1. rewrite Hold. case_decide as Hpiece.
  - fold (appended file old piece o).
    destruct (IH (old +:+ piece) (appended file old piece o))
      as (e & Hrun & Hok & Hfail).
    { apply appended_files. }
    { done. }
    exists e. rewrite Hrun, appended_twice.
    change (OS.limit (appended file old piece o)) with (OS.limit o) in *.
    rewrite string_length_app in Hpiece.
    rewrite first_bytes_app by lia.
    rewrite string_length_app.
    replace (OS.limit o - (String.length old + String.length piece))%nat
      with (OS.limit o - String.length old - String.length piece)%nat
      by lia.
    split; [done|]. rewrite <- !string_app_assoc. by split.
  - exists (Some (IOError file)). cbv zeta.
    rewrite string_length_app in Hpiece.
    rewrite first_bytes_short by lia.
    split; [done|]. rewrite !string_length_app. split; [lia|done].
Qed.

End Prints.

Lemma screenShot_prints filename d o :
  wf d ->
  Screen.screenShot filename d o
  = check (OS.Create (filename +:+ ".ppm"))
      (for_each (chunks d) (OS.Fprint (filename +:+ ".ppm"))) o.
Proof.
  intros [_ [HY _] Hrows Hcols Hknown].
  rewrite (screenShot_unfold (filename +:+ ".ppm")) by done.
  set (file := filename +:+ ".ppm").
  unfold check at 1 3, bind.
  destruct (OS.Create file o) as [[e|] o1| |]; try done.
  unfold chunks, check, bind. cbn [for_each].
  destruct (OS.Fprint file _ o1) as [[e|] o2| |]; try done.
  unfold for_lt.
  replace (seqZ 0 (Display.maxY d - 0))
    with (seqZ (Z.of_nat 0) (Z.of_nat (length (Display.matrix d))))
    by (apply seqZ_to_nat; lia).
  rewrite (rows_print file d Hcols Hknown) by lia. by rewrite drop_0.
Qed.

(** X14.  What [screenShot] leaves in the file.  For a display in use and a
    path that can be created, the call returns, and the file then holds,
    whatever it held before, a beginning of the text [ppm_text] of the
    display: the whole text when it fits the size that the file cannot pass,
    and otherwise its first bytes up to that size, cut in the middle of the
    header, of a pixel or wherever the limit falls, since the write that
    meets the limit leaves behind the bytes that still fit.  The call
    succeeds exactly when the whole text fits; otherwise it returns the I/O
    error and the cut file stays behind. *)
Theorem screenShot_truncates filename d o :
  initialized d -> filename +:+ ".ppm" ∉ OS.locked o ->
  ∃ e written rest,
    Screen.screenShot filename d o
    = Returns e
        (OS.set_files (<[filename +:+ ".ppm" := written]> (OS.files o)) o)
    /\ ppm_text d = written +:+ rest
    /\ String.length written
       = (OS.limit o `min` String.length (ppm_text d))%nat
    /\ (e = None <-> (String.length (ppm_text d) <= OS.limit o)%nat)
    /\ (e = None -> rest = ""%string)
    /\ (e ≠ None -> e = Some (IOError (filename +:+ ".ppm"))).
Proof.
  intros Hinit Hfree. pose proof (initialized_wf d Hinit) as Hwf.
  rewrite screenShot_prints by done.
  set (file := filename +:+ ".ppm") in *.
  unfold check, bind, OS.Create. rewrite decide_False by done.
  set (o1 := OS.set_files (<[file := ""%string]> (OS.files o)) o).
  destruct (prints_result file (chunks d) ""%string o1)
    as (e & Hrun & Hok & Hfail).
  { apply lookup_insert_eq. }
  { cbn. lia. }
  rewrite text_of_chunks in *. change (OS.limit o1) with (OS.limit o) in *.
  change (String.length "") with 0%nat in *. rewrite Nat.sub_0_r in Hrun.
  change ("" +:+ ppm_text d)%string with (ppm_text d) in *.
  destruct (first_bytes_prefix (OS.limit o) (ppm_text d)) as [rest Hrest].
  exists e, (OS.first_bytes (OS.limit o) (ppm_text d)), rest. split.
  { rewrite Hrun. f_equal. unfold appended, o1, OS.set_files. cbn.
    by rewrite insert_insert_eq. }
  split; [done|]. split; [apply length_first_bytes|].
  destruct (le_lt_dec (String.length (ppm_text d)) (OS.limit o)) as [Hle|Hgt].
  - rewrite (Hok Hle). split; [done|]. split; [|done].
    intros _. rewrite (first_bytes_all _ _ Hle) in Hrest.
    apply (f_equal String.length) in Hrest.
    rewrite string_length_app in Hrest.
    destruct rest; [done|]. cbn in Hrest. lia.
  - rewrite (Hfail Hgt). split; [split; [done|lia]|]. by split.
Qed.

Lemma screenShot_truncates_witness :
  Screen.screenShot "out" (fresh 2 2) (OS.mk {["out.ppm" := "old"]} ∅ 20)
  = Returns (Some (IOError "out.ppm"))
      (OS.mk {["out.ppm" := "P3" +:+ LF +:+ "2 2" +:+ LF +:+ "255" +:+ LF
                            +:+ "255 255 2"]} ∅ 20).
Proof.
  destruct (screenShot_truncates "out" (fresh 2 2)
              (OS.mk {["out.ppm" := "old"]} ∅ 20))
    as (e & written & rest & Hrun & Htext & Hlen & Hiff & _ & Hfail).
  - apply initialized_fresh; unfold GoInt.max_int; lia.
  - apply not_elem_of_empty.
  - assert (e ≠ None) as Hne.
    { intros He. apply Hiff in He. revert He. vm_compute. lia. }
    rewrite (Hfail Hne) in Hrun. rewrite Hrun.
    assert (written = OS.first_bytes 20 (ppm_text (fresh 2 2))) as ->.
    { change (String.length written = 20%nat) in Hlen.
      rewrite <- Hlen, Htext. symmetry. apply prefix_first_bytes. }
    reflexivity.
Defined.

(** ** When a circle can be drawn *)

(** X15.  For a circle with a centre of ints and a radius [0 <= R < 2^31],
    on a display in use: [draw] returns success exactly when the colour is
    in the table and the circle fits the square of side [min(maxX, maxY)]
    at the origin, that is [0 <= CP.X - R], [0 <= CP.Y - R] and both
    [CP.X + R] and [CP.Y + R] are below [maxX] and below [maxY].  The
    shape-level check wants [CP.X + R < maxX] and [CP.Y + R < maxY];
    [drawPixel] wants them the other way round. *)
Theorem circle_draw_succeeds_iff c d :
  initialized d ->
  GoInt.is_int (X (Circle.CP c)) -> GoInt.is_int (Y (Circle.CP c)) ->
  0 <= Circle.R c < 2 ^ 31 ->
  (∃ d', Circle.draw c d = Returns None d')
  <-> is_Some (colorMap !! Circle.C c)
      /\ 0 <= X (Circle.CP c) - Circle.R c
      /\ 0 <= Y (Circle.CP c) - Circle.R c
      /\ X (Circle.CP c) + Circle.R c < Z.min (Display.maxX d) (Display.maxY d)
      /\ Y (Circle.CP c) + Circle.R c < Z.min (Display.maxX d) (Display.maxY d).
Proof.
  intros Hinit HcX HcY HR. pose proof (initialized_wf d Hinit) as Hwf.
  pose proof (wf_maxX d Hwf) as [_ HmX]. pose proof (wf_maxY d Hwf) as [_ HmY].
  assert (Circle.R c < GoInt.max_int) as HRmax by (int_numerals; lia).
  assert ((X (Circle.CP c), Y (Circle.CP c)) ∈ circle_points c) as Hcentre.
  { apply elem_of_circle_points; [done|]. exists 0, 0.
    split; [nia|]. unfold GoInt.add. by rewrite !Z.add_0_r, !wrap_int. }
  split.
  - intros [d' Hrun].
    destruct (Circle.out_of_bounds c (Display.maxX d) (Display.maxY d)) eqn:Hb.
    { by rewrite circle_draw_rejects in Hrun. }
    rewrite circle_draw_paint in Hrun by done.
    pose proof (paint_painted _ _ _ _ _ Hwf Hrun) as Hp.
    destruct (proj1 (painted_ok _ _ _ _ _ Hp) eq_refl) as [Hall Hk].
    destruct (circle_no_wrap c d Hwf HcX HcY HR Hall)
      as (HxL & HxR & HyL & HyR).
    split.
    { apply Hk. intros Hnil. rewrite Hnil in Hcentre.
      by apply elem_of_nil in Hcentre. }
    split; [done|]. split; [done|].
    unfold Circle.out_of_bounds in Hb. rewrite !orb_false_iff in Hb.
    destruct Hb as [[[_ HbX] _] HbY].
    rewrite Z.geb_leb in HbX, HbY. apply Z.leb_gt in HbX, HbY.
    unfold GoInt.add in HbX, HbY.
    rewrite wrap_int in HbX, HbY by (int_numerals; lia).
    rewrite Forall_forall in Hall.
    assert ((X (Circle.CP c) + Circle.R c, Y (Circle.CP c)) ∈ circle_points c)
      as Hright.
    { apply elem_of_circle_points; [done|]. exists (Circle.R c), 0.
      split; [nia|]. unfold GoInt.add.
      by rewrite Z.add_0_r, !wrap_int by (int_numerals; lia). }
    assert ((X (Circle.CP c), Y (Circle.CP c) + Circle.R c) ∈ circle_points c)
      as Hup.
    { apply elem_of_circle_points; [done|]. exists 0, (Circle.R c).
      split; [nia|]. unfold GoInt.add.
      by rewrite Z.add_0_r, !wrap_int by (int_numerals; lia). }
    apply Hall in Hright as [? _]. apply Hall in Hup as [_ ?]. cbn in *. lia.
  - intros (Hk & HxL & HyL & HxR & HyR).
    assert (Circle.out_of_bounds c (Display.maxX d) (Display.maxY d) = false)
      as Hb.
    { unfold Circle.out_of_bounds, GoInt.add, GoInt.sub.
      rewrite !wrap_int by (int_numerals; lia).
      rewrite !orb_false_iff, !Z.geb_leb.
      repeat split; first [apply Z.ltb_ge | apply Z.leb_gt]; lia. }
    rewrite circle_draw_paint by done.
    destruct (paint_runs (Circle.C c) (circle_points c) d Hwf)
      as (e & d' & -> & Hp).
    exists d'. f_equal. apply (painted_ok _ _ _ _ _ Hp). split; [|done].
    apply Forall_forall. intros [i j] Hm.
    apply elem_of_circle_points in Hm as (x & y & Hxy & -> & ->); [|done].
    assert (- Circle.R c <= x <= Circle.R c /\ - Circle.R c <= y <= Circle.R c)
      as [Hx Hy] by nia.
    unfold in_grid, GoInt.add. cbn.
    rewrite !wrap_int by (int_numerals; lia). lia.
Qed.

Lemma circle_draw_succeeds_iff_witness :
  ~ ∃ d', Circle.draw (Circle.mk (mkPoint 3 1) 1 red) (fresh 5 3)
          = Returns None d'.
Proof.
  intros Hrun.
  apply (circle_draw_succeeds_iff (Circle.mk (mkPoint 3 1) 1 red) (fresh 5 3))
    in Hrun as (_ & _ & _ & Hx & _).
  - rewrite fresh_eq in Hx by lia. cbn in Hx. lia.
  - apply initialized_fresh; unfold GoInt.max_int; lia.
  - int_numerals. cbn. lia.
  - int_numerals. cbn. lia.
  - int_numerals. cbn. lia.
Defined.

(** ** The triangle on a vertical line *)

Lemma sorted_same_x t x :
  X (Triangle.Pt0 t) = x -> X (Triangle.Pt1 t) = x ->
  X (Triangle.Pt2 t) = x ->
  ∃ y0 y1 y2, Triangle.sorted t = ((x, y0), (x, y1), (x, y2)).
Proof.
  intros H0 H1 H2. unfold Triangle.sorted. rewrite H0, H1, H2.
  repeat match goal with
         | |- context [?a <? ?b] => destruct (a <? b); cbv beta iota zeta
         end; by eexists _, _, _.
Qed.

Lemma line_still x n : line x 0 n = replicate (Z.to_nat n) x.
Proof.
  unfold line. apply list_eq. intros i. rewrite list_lookup_fmap.
  destruct (decide (i < Z.to_nat n)%nat) as [Hi|Hi].
  - rewrite lookup_seqZ_lt, lookup_replicate_2 by lia. cbn. f_equal. lia.
  - rewrite lookup_seqZ_ge by lia. symmetry. apply lookup_replicate_None. lia.
Qed.

Lemma edge_vertical y0 y1 x :
  y0 <= y1 -> y1 - y0 < 2 ^ 53 -> - 2 ^ 53 < x < 2 ^ 53 ->
  edge y0 x y1 x = replicate (Z.to_nat (y1 - y0 + 1)) x.
Proof.
  intros Hy Hrows Hx. destruct (Z.eq_dec y0 y1) as [->|Hne].
  - rewrite edge_one_row by lia. by replace (y1 - y1 + 1) with 1 by lia.
  - rewrite (edge_integer y0 x y1 x 0) by lia. apply line_still.
Qed.

Lemma scan_points_column (n : nat) x y0 i j :
  (i, j) ∈ scan_points (replicate n x) (replicate n x) y0
  <-> i = x /\ y0 <= j < y0 + Z.of_nat n.
Proof.
  unfold scan_points. rewrite list_elem_of_bind, length_replicate. split.
  - intros (y & Hin & Hy). apply elem_of_seqZ in Hy.
    rewrite index_replicate in Hin by lia.
    apply list_elem_of_fmap in Hin as (x' & [= -> ->] & Hx).
    apply elem_of_seqZ in Hx. lia.
  - intros [-> Hj]. exists j. rewrite index_replicate by lia.
    split; [|apply elem_of_seqZ; lia].
    apply list_elem_of_fmap. exists x. split; [done|].
    apply elem_of_seqZ. lia.
Qed.

(** X16.  A triangle whose three vertices share their [X] is drawn as the
    vertical segment between its lowest and its highest vertex: with
    [X < 2^53] and fewer than [2^53] rows between the two, when [draw]
    returns success on a display in use, exactly the cells of the points
    [(X, y)] with [y] from the least to the greatest [Y] hold the triangle's
    colour and every other cell is as before. *)
Theorem triangle_vertical_segment t d d' x :
  initialized d ->
  X (Triangle.Pt0 t) = x -> X (Triangle.Pt1 t) = x ->
  X (Triangle.Pt2 t) = x -> x < 2 ^ 53 ->
  Z.max (Y (Triangle.Pt0 t)) (Z.max (Y (Triangle.Pt1 t)) (Y (Triangle.Pt2 t)))
  - Z.min (Y (Triangle.Pt0 t)) (Z.min (Y (Triangle.Pt1 t)) (Y (Triangle.Pt2 t)))
  < 2 ^ 53 ->
  Triangle.draw t d = Returns None d' ->
  ∀ i j,
    cell d' i j
    = if decide (i = x
                 /\ Z.min (Y (Triangle.Pt0 t))
                          (Z.min (Y (Triangle.Pt1 t)) (Y (Triangle.Pt2 t)))
                    <= j
                    <= Z.max (Y (Triangle.Pt0 t))
                             (Z.max (Y (Triangle.Pt1 t)) (Y (Triangle.Pt2 t))))
      then Some (Triangle.C t) else cell d i j.
Proof.
  intros Hinit H0 H1 H2 Hx53 Hrows. pose proof (initialized_wf d Hinit) as Hwf.
  destruct (sorted_same_x t x H0 H1 H2) as (y0 & y1 & y2 & Hs).
  destruct (sorted_ordered _ _ _ _ _ _ _ Hs) as (Hord & Hmin & Hmax).
  rewrite <- Hmin, <- Hmax in *. clear Hmin Hmax.
  unfold Triangle.draw, Display.getMaxXY. rewrite Hs.
  destruct (Triangle.out_of_bounds _ _ _ _ _ _ _ _) eqn:Hb; [done|].
  destruct (triangle_in_bounds _ _ _ _ _ _ _ _ Hb) as [Hy0 Hy2].
  unfold Triangle.out_of_bounds in Hb. rewrite !orb_false_iff in Hb.
  destruct Hb as [[[[[[[[[[[Hx0 _] _] _] _] _] _] _] _] _] _] _].
  apply Z.ltb_ge in Hx0.
  pose proof (wf_maxY d Hwf) as [_ HmY].
  assert (2 ^ 53 < GoInt.max_int) as H53 by (by vm_compute).
  destruct (fill_scan (Triangle.C t) x y0 x y1 x y2)
    as (left & right & Hedges & _ & _ & _ & Hfill); [lia..|].
  rewrite !edge_vertical in Hedges by lia.
  rewrite drop_replicate, <- replicate_add in Hedges.
  replace (Z.to_nat (y1 - y0 + 1) + (Z.to_nat (y2 - y1 + 1) - 1))%nat
    with (Z.to_nat (y2 - y0 + 1)) in Hedges by lia.
  assert (left = replicate (Z.to_nat (y2 - y0 + 1)) x
          /\ right = replicate (Z.to_nat (y2 - y0 + 1)) x) as [-> ->].
  { by destruct Hedges as [[= -> ->]|[= -> ->]]. }
  rewrite Hfill. intros Hrun i j.
  rewrite (paint_exact _ _ _ _ Hwf Hrun).
  destruct (decide ((i, j) ∈ _)) as [Hm|Hm];
    rewrite scan_points_column in Hm.
  - rewrite decide_True; [done|]. lia.
  - rewrite decide_False; [done|]. lia.
Qed.

Lemma triangle_vertical_segment_witness :
  ∃ d', Triangle.draw
          (Triangle.mk (mkPoint 1 2) (mkPoint 1 0) (mkPoint 1 1) red)
          (fresh 3 3) = Returns None d'
        /\ cell d' 1 0 = Some red /\ cell d' 1 2 = Some red
        /\ cell d' 0 1 = Some white.
Proof.
  assert (∃ d', Triangle.draw
                  (Triangle.mk (mkPoint 1 2) (mkPoint 1 0) (mkPoint 1 1) red)
                  (fresh 3 3) = Returns None d') as [d' Hrun]
    by (eexists; vm_compute; reflexivity).
  exists d'. split; [done|].
  pose proof (triangle_vertical_segment
                (Triangle.mk (mkPoint 1 2) (mkPoint 1 0) (mkPoint 1 1) red)
                (fresh 3 3) d' 1) as Hcell.
  split; [|split].
  - rewrite Hcell; [done|apply initialized_fresh; unfold GoInt.max_int; lia
                    |done|done|done|lia|cbn; lia|done].
  - rewrite Hcell; [done|apply initialized_fresh; unfold GoInt.max_int; lia
                    |done|done|done|lia|cbn; lia|done].
  - rewrite Hcell; [|apply initialized_fresh; unfold GoInt.max_int; lia
                    |done|done|done|lia|cbn; lia|done].
    rewrite decide_False; [apply cell_fresh; lia | cbn; lia].
Defined.

(** ** Two rectangles *)

Lemma paint_commute c1 pts1 c2 pts2 d d1 d12 :
  wf d ->
  paint c1 pts1 d = Returns None d1 -> paint c2 pts2 d1 = Returns None d12 ->
  c1 = c2 \/ (∀ p, p ∈ pts1 -> p ∉ pts2) ->
  ∃ d2, paint c2 pts2 d = Returns None d2
        /\ paint c1 pts1 d2 = Returns None d12.
Proof.
  intros Hwf Hrun1 Hrun2 Hfree.
  destruct (paint_painted _ _ _ _ _ Hwf Hrun1) as [Hwf1 HX1 HY1 _ _ Hok1 _ _].
  destruct (proj1 Hok1 eq_refl) as [Hall1 Hk1].
  destruct (paint_painted _ _ _ _ _ Hwf1 Hrun2)
    as [Hwf12 HX12 HY12 _ _ Hok2 _ _].
  destruct (proj1 Hok2 eq_refl) as [Hall2 Hk2].
  destruct (paint_runs c2 pts2 d Hwf) as (e & d2 & Hrun2' & Hp2).
  assert (e = None) as ->.
  { apply (painted_ok _ _ _ _ _ Hp2). split; [|done].
    eapply Forall_impl; [exact Hall2|]. intros [i j]. cbn.
    by apply in_grid_same_size. }
  destruct Hp2 as [Hwf2 HX2 HY2 _ _ _ _ _].
  exists d2. split; [done|].
  destruct (paint_runs c1 pts1 d2 Hwf2) as (e & d21 & Hrun1' & Hp1).
  assert (e = None) as ->.
  { apply (painted_ok _ _ _ _ _ Hp1). split; [|done].
    eapply Forall_impl; [exact Hall1|]. intros [i j]. cbn.
    intros Hin. by apply (in_grid_same_size d). }
  rewrite Hrun1'. f_equal.
  apply display_ext; [exact (painted_wf _ _ _ _ _ Hp1)|done| |].
  - unfold Display.getMaxXY.
    rewrite (painted_maxX _ _ _ _ _ Hp1), (painted_maxY _ _ _ _ _ Hp1).
    congruence.
  - intros i j.
    rewrite (paint_exact _ _ _ _ Hwf2 Hrun1'), (paint_exact _ _ _ _ Hwf Hrun2').
    rewrite (paint_exact _ _ _ _ Hwf1 Hrun2), (paint_exact _ _ _ _ Hwf Hrun1).
    destruct (decide ((i, j) ∈ pts1)) as [Hm1|Hm1],
      (decide ((i, j) ∈ pts2)) as [Hm2|Hm2]; try done.
    destruct Hfree as [->|Hfree]; [done|]. by destruct (Hfree _ Hm1).
Qed.

(** X17.  Two rectangles in either order.  On a display in use, when a
    rectangle and then a second one are drawn with success, and the two
    have the same colour or share no point, then drawing the second first
    and the first second succeeds as well and gives the same display. *)
Theorem rectangle_draw_commute r1 r2 d d1 d12 :
  initialized d ->
  Rectangle.draw r1 d = Returns None d1 ->
  Rectangle.draw r2 d1 = Returns None d12 ->
  Rectangle.C r1 = Rectangle.C r2
  \/ X (Rectangle.UR r1) < X (Rectangle.LL r2)
  \/ X (Rectangle.UR r2) < X (Rectangle.LL r1)
  \/ Y (Rectangle.UR r1) < Y (Rectangle.LL r2)
  \/ Y (Rectangle.UR r2) < Y (Rectangle.LL r1) ->
  ∃ d2, Rectangle.draw r2 d = Returns None d2
        /\ Rectangle.draw r1 d2 = Returns None d12.
Proof.
  intros Hinit Hrun1 Hrun2 Hfree. pose proof (initialized_wf d Hinit) as Hwf.
  destruct (Rectangle.out_of_bounds r1 (Display.maxX d) (Display.maxY d))
    eqn:Hb1; [by rewrite rectangle_draw_rejects in Hrun1|].
  rewrite rectangle_draw_paint in Hrun1 by done.
  destruct (paint_painted _ _ _ _ _ Hwf Hrun1) as [Hwf1 HX1 HY1 _ _ _ _ _].
  destruct (Rectangle.out_of_bounds r2 (Display.maxX d1) (Display.maxY d1))
    eqn:Hb2; [by rewrite rectangle_draw_rejects in Hrun2|].
  rewrite rectangle_draw_paint in Hrun2 by done.
  destruct (paint_commute _ _ _ _ d d1 d12 Hwf Hrun1 Hrun2)
    as (d2 & Hrun2' & Hrun1').
  { destruct Hfree as [?|Hfree]; [by left|right].
    intros [i j] Hm1 Hm2. apply elem_of_rectangle_points in Hm1, Hm2. lia. }
  destruct (paint_painted _ _ _ _ _ Hwf Hrun2') as [Hwf2 HX2 HY2 _ _ _ _ _].
  exists d2. rewrite HX1, HY1 in Hb2.
  split.
  - by rewrite rectangle_draw_paint.
  - rewrite rectangle_draw_paint; [done..|]. by rewrite HX2, HY2.
Qed.

Lemma rectangle_draw_commute_witness :
  ∃ d1 d12 d2,
    Rectangle.draw (Rectangle.mk (mkPoint 0 0) (mkPoint 0 1) red) (fresh 3 3)
    = Returns None d1
    /\ Rectangle.draw (Rectangle.mk (mkPoint 1 0) (mkPoint 2 2) blue) d1
       = Returns None d12
    /\ Rectangle.draw (Rectangle.mk (mkPoint 1 0) (mkPoint 2 2) blue)
                      (fresh 3 3) = Returns None d2
    /\ Rectangle.draw (Rectangle.mk (mkPoint 0 0) (mkPoint 0 1) red) d2
       = Returns None d12.
Proof.
  assert (∃ d1 d12,
            Rectangle.draw (Rectangle.mk (mkPoint 0 0) (mkPoint 0 1) red)
                           (fresh 3 3) = Returns None d1
            /\ Rectangle.draw (Rectangle.mk (mkPoint 1 0) (mkPoint 2 2) blue)
                              d1 = Returns None d12)
    as (d1 & d12 & Hrun1 & Hrun2).
  { eexists _, _. split; vm_compute; reflexivity. }
  assert (initialized (fresh 3 3)) as Hinit by
    (apply initialized_fresh; unfold GoInt.max_int; lia).
  destruct (rectangle_draw_commute _ _ (fresh 3 3) d1 d12 Hinit Hrun1 Hrun2)
    as (d2 & Hrun2' & Hrun1').
  - right. left. cbn. lia.
  - by exists d1, d12, d2.
Defined.

(** ** The invalid-colour report of [screenShot] *)

Section Reports.
Context {S : Type} (R : error -> Prop).

Lemma reports_check (m k : M S err) :
  steps (λ _, True) R m -> steps (λ _, True) R k ->
  steps (λ _, True) R (check m k).
Proof.
  intros Hm Hk s e s' _. unfold check, bind.
  destruct (m s) as [[er|] s1| |] eqn:E; [| |done..].
  - intros [= <- <-]. by apply (Hm s (Some er) s1).
  - by apply Hk.
Qed.

Lemma reports_for_each {A} (l : list A) (body : A -> M S err) :
  (∀ a, a ∈ l -> steps (λ _, True) R (body a)) ->
  steps (λ _, True) R (for_each l body).
Proof.
  induction l as [|a l IH]; intros Hb; [apply steps_ret_None|].
  intros s e s' _. cbn.
  destruct (body a s) as [[er|] s1| |] eqn:E; [| |done..].
  - intros [= <- <-]. apply (Hb a (list_elem_of_here _ _) s (Some er) s1 I E).
  - apply IH; [|done]. intros b Hin. apply Hb. by apply list_elem_of_further.
Qed.

End Reports.

Lemma Create_reports d file : steps (λ _, True) (bad_cell d) (OS.Create file).
Proof.
  intros o e o' _. unfold OS.Create.
  case_decide; intros [= <- <-]; (split; [done|]); by intros er [= <-] x y.
Qed.

Lemma Fprint_reports d file text :
  steps (λ _, True) (bad_cell d) (OS.Fprint file text).
Proof.
  intros o e o' _. unfold OS.Fprint.
  destruct (OS.files o !! file); [case_decide|]; intros [= <- <-];
    (split; [done|]); by intros er [= <-] x y.
Qed.

(** X18.  The invalid-colour failure of [screenShot] is never a false
    alarm and names the cell the way [getPixel] does: whatever the display,
    if the call returns the failure for pixel [[x, y]] then [x] is below
    [maxX], [y] is below [maxY], and the cell of row [y] and column [x]
    holds a colour that is not in the colour table. *)
Theorem screenShot_invalid_colour filename d o x y o' :
  Screen.screenShot filename d o = Returns (Some (InvalidColor x y)) o' ->
  0 <= x < Display.maxX d /\ 0 <= y < Display.maxY d
  /\ ∃ v, (index (Display.matrix d) y ≫= λ row : list Color, index row x)
          = Some v
          /\ colorMap !! v = None.
Proof.
  intros Hrun.
  assert (steps (λ _, True) (bad_cell d) (Screen.screenShot filename d))
    as Hsteps.
  { unfold Screen.screenShot. cbv zeta.
    apply reports_check; [apply Create_reports|].
    apply reports_check; [apply Fprint_reports|].
    apply reports_for_each. intros y' Hy'. apply elem_of_seqZ in Hy'.
    apply reports_check; [|apply Fprint_reports].
    apply reports_for_each. intros x' Hx'. apply elem_of_seqZ in Hx'.
    intros s e s' _. unfold bind, at_index.
    destruct (index (Display.matrix d) y') as [row|] eqn:Hrow; [|done].
    cbn. destruct (index row x') as [v|] eqn:Hv; [|done]. cbn.
    destruct (colorMap !! v) as [rgb|] eqn:Hc.
    - apply Fprint_reports. done.
    - intros [= <- <-]. split; [done|]. intros er [= <-] x0 y0 [= <- <-].
      split; [lia|]. split; [lia|]. exists v. rewrite Hrow. by split. }
  destruct (Hsteps o _ o' I Hrun) as [_ Hbad].
  by apply (Hbad _ eq_refl).
Qed.

Lemma screenShot_invalid_colour_witness :
  ∃ v, (index [[white; 42]] 0 ≫= λ row : list Color, index row 1) = Some v
       /\ colorMap !! v = None.
Proof.
  destruct (screenShot_invalid_colour "out" (Display.mk 2 1 [[white; 42]])
              (OS.mk ∅ ∅ 100) 1 0
              (OS.mk {["out.ppm" := "P3" +:+ nl +:+ "2 1" +:+ nl +:+ "255"
                                      +:+ nl +:+ "255 255 255 "]} ∅ 100))
    as (_ & _ & Hv).
  - vm_compute. reflexivity.
  - exact Hv.
Defined.

(** ** The bounds check of the triangle *)

Lemma sorted_vertices_perm t : sorted_vertices t ≡ₚ vertices t.
Proof.
  unfold sorted_vertices, vertices, Triangle.sorted.
  repeat match goal with
         | |- context [?a <? ?b] => destruct (a <? b); cbv beta iota zeta
         end; solve_Permutation.
Qed.

(** X19.  The bounds check of [Triangle.draw] does not depend on the order
    in which the vertices are given: it passes exactly when each of the
    three vertices has [0 <= X < maxX] and [0 <= Y < maxY].  When one of
    them has not, [draw] returns the geometry failure and the display is as
    it was. *)
Theorem triangle_check_any_order t d :
  (triangle_rejected t d = false
   <-> ∀ v, v ∈ vertices t ->
         0 <= v.1 < Display.maxX d /\ 0 <= v.2 < Display.maxY d)
  /\ (∀ v, v ∈ vertices t ->
        ~ (0 <= v.1 < Display.maxX d /\ 0 <= v.2 < Display.maxY d) ->
        Triangle.draw t d = Returns (Some GeometryOutOfBounds) d).
Proof.
  assert (triangle_rejected t d = false
          <-> Forall (λ v, 0 <= v.1 < Display.maxX d
                           /\ 0 <= v.2 < Display.maxY d)
                     (sorted_vertices t)) as Hcheck.
  { unfold triangle_rejected, sorted_vertices.
    destruct (Triangle.sorted t) as [[[x0 y0] [x1 y1]] [x2 y2]].
    unfold Triangle.out_of_bounds.
    rewrite !orb_false_iff, !Z.ltb_ge, !Z.geb_leb, !Z.leb_gt.
    rewrite !Forall_cons, Forall_nil. cbn. intuition lia. }
  assert (triangle_rejected t d = false
          <-> ∀ v, v ∈ vertices t ->
                0 <= v.1 < Display.maxX d /\ 0 <= v.2 < Display.maxY d)
    as Hany.
  { rewrite Hcheck, (sorted_vertices_perm t). apply Forall_forall. }
  split; [exact Hany|].
  intros v Hv Hout.
  destruct (triangle_rejected t d) eqn:Hr.
  - revert Hr. unfold triangle_rejected, Triangle.draw, Display.getMaxXY.
    destruct (Triangle.sorted t) as [[[x0 y0] [x1 y1]] [x2 y2]].
    by intros ->.
  - destruct Hout. by apply Hany.
Qed.

Lemma triangle_check_any_order_witness :
  Triangle.draw (Triangle.mk (mkPoint 1 1) (mkPoint 5 0) (mkPoint 0 2) red)
                (fresh 3 3)
  = Returns (Some GeometryOutOfBounds) (fresh 3 3).
Proof.
  destruct (triangle_check_any_order
              (Triangle.mk (mkPoint 1 1) (mkPoint 5 0) (mkPoint 0 2) red)
              (fresh 3 3)) as [_ Hout].
  apply (Hout (5, 0)).
  - apply list_elem_of_further, list_elem_of_here.
  - rewrite fresh_eq by lia. cbn. lia.
Defined.

(** ** The triangle with edges of integer slope *)

Section MoreSlices.
Context {A : Type}.

Lemma index_app (l1 l2 : list A) i :
  0 <= i ->
  index (l1 ++ l2) i
  = if i <? Z.of_nat (length l1) then index l1 i
    else index l2 (i - Z.of_nat (length l1)).
Proof.
  intros Hi. unfold index. destruct (Z.ltb_spec i 0); [lia|].
  destruct (Z.ltb_spec i (Z.of_nat (length l1))).
  - apply lookup_app_l. lia.
  - destruct (Z.ltb_spec (i - Z.of_nat (length l1)) 0); [lia|].
    rewrite lookup_app_r by lia. f_equal. lia.
Qed.

Lemma index_drop (l : list A) (n : nat) i :
  0 <= i -> index (drop n l) i = index l (Z.of_nat n + i).
Proof.
  intros Hi. unfold index. destruct (Z.ltb_spec i 0); [lia|].
  destruct (Z.ltb_spec (Z.of_nat n + i) 0); [lia|].
  rewrite lookup_drop. f_equal. lia.
Qed.

End MoreSlices.

Lemma elem_of_scan_points_iff left right y0 x y :
  (x, y) ∈ scan_points left right y0
  <-> y0 <= y < y0 + Z.of_nat (length left)
      /\ ∃ lo hi, index left (y - y0) = Some lo
                  /\ index right (y - y0) = Some hi /\ lo <= x <= hi.
Proof.
  unfold scan_points. rewrite list_elem_of_bind. split.
  - intros (y' & Hin & Hy). apply elem_of_seqZ in Hy.
    destruct (index left (y' - y0)) as [lo|] eqn:Hlo;
      [|by apply elem_of_nil in Hin].
    destruct (index right (y' - y0)) as [hi|] eqn:Hhi;
      [|by apply elem_of_nil in Hin].
    apply list_elem_of_fmap in Hin as (x' & [= -> ->] & Hx).
    apply elem_of_seqZ in Hx. split; [lia|]. exists lo, hi.
    split; [done|]. split; [done|]. lia.
  - intros (Hy & lo & hi & Hlo & Hhi & Hx). exists y.
    rewrite Hlo, Hhi. split; [|apply elem_of_seqZ; lia].
    apply list_elem_of_fmap. exists x. split; [done|].
    apply elem_of_seqZ. lia.
Qed.

Lemma triangle_in_bounds_all x0 y0 x1 y1 x2 y2 maxX maxY :
  Triangle.out_of_bounds x0 y0 x1 y1 x2 y2 maxX maxY = false
  <-> (0 <= x0 < maxX /\ 0 <= y0 < maxY)
      /\ (0 <= x1 < maxX /\ 0 <= y1 < maxY)
      /\ (0 <= x2 < maxX /\ 0 <= y2 < maxY).
Proof.
  unfold Triangle.out_of_bounds.
  rewrite !orb_false_iff, !Z.ltb_ge, !Z.geb_leb, !Z.leb_gt. intuition lia.
Qed.

(** The two boundaries do not cross: the long edge and the broken edge meet
    at the first and at the last row only. *)
Lemma boundaries_ordered x0 x1 x2 s01 s12 s02 r1 L m r :
  0 < r1 <= L -> x1 - x0 = s01 * r1 -> x2 - x0 = s02 * L ->
  r1 = L \/ x2 - x1 = s12 * (L - r1) ->
  0 < m <= L -> (r1 < L -> m < L) -> 0 <= r <= L ->
  let A := λ r, x0 + s02 * r in
  let B := λ r, if r <=? r1 then x0 + s01 * r else x1 + s12 * (r - r1) in
  if A m <? B m then A r <= B r else B r <= A r.
Proof.
  intros Hr1 H01 H02 H12 Hm HmL Hr. cbv beta zeta.
  assert (∀ r, 0 <= r <= L -> r1 < r ->
            x1 + s12 * (r - r1) - (x0 + s02 * r) = (s02 - s12) * (L - r))
    as Hhigh.
  { intros r' Hr' Hlt. destruct H12 as [->|H12]; [lia|]. nia. }
  assert (r1 < L -> (s01 - s02) * r1 = (s02 - s12) * (L - r1)) as Hmid.
  { intros Hlt. destruct H12 as [->|H12]; [lia|].
    replace ((s01 - s02) * r1) with (s01 * r1 - s02 * r1) by ring.
    replace ((s02 - s12) * (L - r1))
      with (s02 * L - s02 * r1 - s12 * (L - r1)) by ring.
    lia. }
  destruct (Z.leb_spec m r1) as [Hmlo|Hmhi].
  - destruct (Z.ltb_spec (x0 + s02 * m) (x0 + s01 * m)) as [Hlt|Hge].
    + assert (0 < s01 - s02) as HD by nia.
      destruct (Z.leb_spec r r1); [nia|].
      pose proof (Hhigh r Hr ltac:(lia)) as Hg.
      pose proof (Hmid ltac:(lia)) as Hm1.
      assert (0 < s02 - s12) by nia. nia.
    + assert (s01 - s02 <= 0) as HD by nia.
      destruct (Z.leb_spec r r1); [nia|].
      pose proof (Hhigh r Hr ltac:(lia)) as Hg.
      pose proof (Hmid ltac:(lia)) as Hm1.
      assert (s02 - s12 <= 0) by nia. nia.
  - pose proof (Hhigh m ltac:(lia) Hmhi) as Hgm.
    pose proof (Hmid ltac:(lia)) as Hm1.
    destruct (Z.ltb_spec (x0 + s02 * m) (x1 + s12 * (m - r1))) as [Hlt|Hge].
    + assert (0 < s02 - s12) as HE by nia.
      assert (0 < s01 - s02) as HD by nia.
      destruct (Z.leb_spec r r1); [nia|].
      pose proof (Hhigh r Hr ltac:(lia)) as Hg. nia.
    + assert (s02 - s12 <= 0) as HE by nia.
      assert (s01 - s02 <= 0) as HD by nia.
      destruct (Z.leb_spec r r1); [nia|].
      pose proof (Hhigh r Hr ltac:(lia)) as Hg. nia.
Qed.

(** The two boundaries do not cross: the long edge and the broken edge meet
    at the first and at the last row only. *)
Lemma boundaries_in_order x0 x1 x2 s01 s12 s02 r1 L m r :
  0 <= r1 <= L ->
  r1 = 0 \/ x1 - x0 = s01 * r1 -> L = 0 \/ x2 - x0 = s02 * L ->
  r1 = L \/ x2 - x1 = s12 * (L - r1) ->
  0 <= m <= L -> (0 < L -> 0 < m) -> (r1 < L -> 1 < L -> m < L) ->
  0 <= r <= L ->
  let A := λ r, x0 + s02 * r in
  let B := λ r, if r <=? r1 then x0 + s01 * r else x1 + s12 * (r - r1) in
  if A m <? B m then A r <= B r else B r <= A r.
Proof.
  intros Hr1 H01 H02 H12 Hm Hm0 HmL Hr. cbv beta zeta.
  destruct (Z.eq_dec L 0) as [->|HL].
  { assert (r = 0) as -> by lia. assert (r1 = 0) as -> by lia.
    assert (m = 0) as -> by lia. cbn. rewrite !Z.mul_0_r, Z.ltb_irrefl. lia. }
  destruct H02 as [?|H02]; [lia|].
  destruct (Z.eq_dec r1 0) as [->|Hr1ne].
  - destruct H12 as [?|H12]; [lia|]. rewrite Z.sub_0_r in H12.
    destruct (Z.leb_spec m 0) as [|_]; [lia|].
    destruct (Z.leb_spec r 0) as [Hr0|Hrpos].
    { assert (r = 0) as -> by lia. rewrite !Z.mul_0_r.
      destruct (_ <? _); lia. }
    rewrite !Z.sub_0_r.
    assert (∀ r, x1 + s12 * r - (x0 + s02 * r) = (s02 - s12) * (L - r))
      as Hhigh by (intros r'; nia).
    pose proof (Hhigh m) as Hgm. pose proof (Hhigh r) as Hgr.
    destruct (Z.ltb_spec (x0 + s02 * m) (x1 + s12 * m)) as [Hlt|Hge].
    + assert (0 < s02 - s12) by nia. nia.
    + destruct (Z.eq_dec m L) as [->|HmL'].
      * assert (L = 1) as -> by lia. assert (r = 1) as -> by lia. lia.
      * assert (s02 - s12 <= 0) by nia. nia.
  - destruct H01 as [?|H01]; [lia|].
    apply (boundaries_ordered x0 x1 x2 s01 s12 s02 r1 L m r); try done; lia.
Qed.

(** With integer slopes the scanlines are those of [in_triangle]. *)
Lemma integer_fill c x0 y0 x1 y1 x2 y2 s01 s12 s02 :
  0 <= y0 -> y0 <= y1 <= y2 -> y2 < 2 ^ 53 ->
  0 <= x0 < 2 ^ 53 -> 0 <= x1 < 2 ^ 53 -> 0 <= x2 < 2 ^ 53 ->
  y0 = y1 \/ x1 - x0 = s01 * (y1 - y0) ->
  y1 = y2 \/ x2 - x1 = s12 * (y2 - y1) ->
  y0 = y2 \/ x2 - x0 = s02 * (y2 - y0) ->
  ∃ pts,
    (∀ d, Triangle.fill c x0 y0 x1 y1 x2 y2 d = paint c pts d)
    /\ ∀ x y, (x, y) ∈ pts <-> in_triangle x0 y0 x1 y1 y2 s01 s12 s02 x y.
Proof.
  intros Hy0 Hord Hy2 Hx0 Hx1 Hx2 H01 H12 H02.
  assert (2 ^ 53 < GoInt.max_int) as H53 by (by vm_compute).
  destruct (fill_sides c x0 y0 x1 y1 x2 y2)
    as (left & right & a & b & Ha & Hb & Hsides & _ & _ & _ & Hfill);
    [lia..|].
  exists (scan_points left right y0). split; [exact Hfill|]. clear Hfill.
  set (L := y2 - y0). set (r1 := y1 - y0).
  set (A := λ r, x0 + s02 * r).
  set (B := λ r, if r <=? r1 then x0 + s01 * r else x1 + s12 * (r - r1)).
  assert (∀ r, 0 <= r <= L -> index (edge y0 x0 y2 x2) r = Some (A r)) as HA.
  { intros r Hr. unfold A. destruct H02 as [<-|H02].
    - rewrite edge_one_row by lia. assert (r = 0) as -> by lia.
      by rewrite Z.mul_0_r, Z.add_0_r.
    - destruct (Z.eq_dec y0 y2) as [<-|Hne].
      + rewrite edge_one_row by lia. assert (r = 0) as -> by lia.
        by rewrite Z.mul_0_r, Z.add_0_r.
      + rewrite (edge_integer y0 x0 y2 x2 s02) by lia.
        apply index_line. lia. }
  assert (∀ r, 0 <= r <= r1 -> index (edge y0 x0 y1 x1) r
                             = Some (x0 + s01 * r)) as H01r.
  { intros r Hr. destruct (Z.eq_dec y0 y1) as [<-|Hne].
    - rewrite edge_one_row by lia. assert (r = 0) as -> by lia.
      by rewrite Z.mul_0_r, Z.add_0_r.
    - destruct H01 as [?|H01]; [lia|].
      rewrite (edge_integer y0 x0 y1 x1 s01) by lia.
      apply index_line. lia. }
  assert (∀ r, 0 <= r <= L ->
            index (edge y0 x0 y1 x1 ++ drop 1 (edge y1 x1 y2 x2)) r
            = Some (B r)) as HB.
  { intros r Hr. rewrite index_app by lia.
    pose proof (length_edge y0 x0 y1 x1 ltac:(lia)) as Hlen01.
    rewrite Hlen01. fold r1.
    unfold B. destruct (Z.leb_spec r r1) as [Hlo|Hhi].
    - destruct (Z.ltb_spec r (r1 + 1)); [|lia]. apply H01r. lia.
    - destruct (Z.ltb_spec r (r1 + 1)); [lia|].
      destruct H12 as [->|H12]; [lia|].
      rewrite (edge_integer y1 x1 y2 x2 s12) by lia.
      rewrite index_drop by lia. rewrite index_line by lia.
      do 2 f_equal. lia. }
  assert (0 <= (y2 - y0 + 1) `quot` 2 <= L
          /\ (0 < L -> 0 < (y2 - y0 + 1) `quot` 2)
          /\ (1 < L -> (y2 - y0 + 1) `quot` 2 < L)) as (Hm & Hm0 & HmL).
  { rewrite Z.quot_div_nonneg by lia.
    pose proof (Z.div_mod (y2 - y0 + 1) 2 ltac:(lia)).
    pose proof (Z.mod_pos_bound (y2 - y0 + 1) 2 ltac:(lia)). lia. }
  set (m := (y2 - y0 + 1) `quot` 2) in *.
  rewrite HA in Ha by lia. rewrite HB in Hb by lia.
  injection Ha as <-. injection Hb as <-.
  assert (∀ r, 0 <= r <= L -> if A m <? B m then A r <= B r else B r <= A r)
    as Hsign.
  { intros r Hr.
    assert (r1 = 0 \/ x1 - x0 = s01 * r1) as H01'
      by (destruct H01 as [?|?]; [left; lia | by right]).
    assert (L = 0 \/ x2 - x0 = s02 * L) as H02'
      by (destruct H02 as [?|?]; [left; lia | by right]).
    assert (r1 = L \/ x2 - x1 = s12 * (L - r1)) as H12'.
    { destruct H12 as [?|H12]; [left; lia | right].
      rewrite H12. f_equal. lia. }
    apply (boundaries_in_order x0 x1 x2 s01 s12 s02 r1 L m r); try done; lia. }
  assert (∀ r, 0 <= r <= L ->
            ∃ lo hi, index left r = Some lo /\ index right r = Some hi
                     /\ lo = Z.min (A r) (B r) /\ hi = Z.max (A r) (B r))
    as Hrow.
  { intros r Hr. specialize (Hsign r Hr).
    destruct (A m <? B m); injection Hsides as -> ->.
    - exists (A r), (B r). rewrite HA, HB by done.
      split; [done|]. split; [done|]. lia.
    - exists (B r), (A r). rewrite HA, HB by done.
      split; [done|]. split; [done|]. lia. }
  assert (Z.of_nat (length left) = L + 1) as Hlen.
  { assert (Z.of_nat (length (edge y0 x0 y2 x2)) = L + 1) as H02len
      by (apply length_edge; lia).
    assert (Z.of_nat (length (edge y0 x0 y1 x1
                              ++ drop 1 (edge y1 x1 y2 x2))) = L + 1)
      as H012len.
    { rewrite length_app, length_drop.
      pose proof (length_edge y0 x0 y1 x1 ltac:(lia)).
      pose proof (length_edge y1 x1 y2 x2 ltac:(lia)). lia. }
    by destruct (A m <? B m); injection Hsides as -> ->. }
  intros x y.
  assert ((if y <=? y1 then x0 + s01 * (y - y0) else x1 + s12 * (y - y1))
          = B (y - y0)) as HBy.
  { unfold B, r1.
    destruct (Z.leb_spec y y1), (Z.leb_spec (y - y0) (y1 - y0)); lia. }
  rewrite elem_of_scan_points_iff, Hlen. unfold in_triangle.
  rewrite HBy. fold (A (y - y0)). split.
  - intros (Hy & lo & hi & Hlo & Hhi & Hx).
    destruct (Hrow (y - y0) ltac:(lia)) as (lo' & hi' & Hlo' & Hhi' & -> & ->).
    split; [lia|]. congruence.
  - intros [Hy Hx]. split; [lia|].
    destruct (Hrow (y - y0) ltac:(lia)) as (lo & hi & Hlo & Hhi & -> & ->).
    by exists (Z.min (A (y - y0)) (B (y - y0))),
              (Z.max (A (y - y0)) (B (y - y0))).
Qed.

Lemma between_ends a b s r L :
  0 <= r <= L -> b - a = s * L -> Z.min a b <= a + s * r <= Z.max a b.
Proof.
  intros Hr Hs. destruct (Z.le_gt_cases 0 s).
  - assert (0 <= s * r <= s * L)
      by (split; [apply Z.mul_nonneg_nonneg
                 |apply Z.mul_le_mono_nonneg_l]; lia).
    lia.
  - assert (s * L <= s * r <= 0)
      by (split; [apply Z.mul_le_mono_nonpos_l
                 |apply Z.mul_nonpos_nonneg]; lia).
    lia.
Qed.

(** The rows of [in_triangle] stay between the least and the greatest [X]
    of the vertices. *)
Lemma in_triangle_box x0 y0 x1 y1 x2 y2 s01 s12 s02 x y :
  y0 <= y1 <= y2 ->
  y0 = y1 \/ x1 - x0 = s01 * (y1 - y0) ->
  y1 = y2 \/ x2 - x1 = s12 * (y2 - y1) ->
  y0 = y2 \/ x2 - x0 = s02 * (y2 - y0) ->
  in_triangle x0 y0 x1 y1 y2 s01 s12 s02 x y ->
  Z.min x0 (Z.min x1 x2) <= x <= Z.max x0 (Z.max x1 x2).
Proof.
  intros Hord H01 H12 H02 [Hy Hx].
  assert (Z.min x0 x2 <= x0 + s02 * (y - y0) <= Z.max x0 x2) as HA.
  { destruct H02 as [?|H02];
      [|apply (between_ends _ _ _ _ (y2 - y0)); [lia|done]].
    assert (y - y0 = 0) as -> by lia. lia. }
  assert (Z.min x0 (Z.min x1 x2)
          <= (if y <=? y1 then x0 + s01 * (y - y0) else x1 + s12 * (y - y1))
          <= Z.max x0 (Z.max x1 x2)) as HB.
  { destruct (Z.leb_spec y y1).
    - destruct H01 as [?|H01].
      + assert (y - y0 = 0) as -> by lia. lia.
      + pose proof (between_ends x0 x1 s01 (y - y0) (y1 - y0) ltac:(lia) H01).
        lia.
    - destruct H12 as [?|H12]; [lia|].
      pose proof (between_ends x1 x2 s12 (y - y1) (y2 - y1) ltac:(lia) H12).
      lia. }
  lia.
Qed.

Lemma scaled_nonneg a b : 0 < a -> 0 <= a * b <-> 0 <= b.
Proof. intros. split; nia. Qed.

Lemma scaled_nonpos a b : 0 < a -> a * b <= 0 <-> b <= 0.
Proof. intros. split; nia. Qed.

(** Without a flat top the rows of [in_triangle] are the closed triangle. *)
Lemma in_triangle_closed x0 y0 x1 y1 x2 y2 s01 s12 s02 x y :
  y0 < y1 -> y1 <= y2 ->
  x1 - x0 = s01 * (y1 - y0) ->
  y1 = y2 \/ x2 - x1 = s12 * (y2 - y1) ->
  x2 - x0 = s02 * (y2 - y0) ->
  in_triangle x0 y0 x1 y1 y2 s01 s12 s02 x y
  <-> in_closed_triangle (x0, y0) (x1, y1) (x2, y2) (x, y).
Proof.
  intros Hy01 Hy12 H01 H12 H02.
  unfold in_triangle, in_closed_triangle, orient. cbn [fst snd].
  rewrite (Z.min_l y0), (Z.max_r y0), (Z.max_r y1) by lia.
  remember (y - y0) as r eqn:Er. remember (y1 - y0) as r1 eqn:Er1.
  remember (y2 - y0) as L eqn:EL. remember (x - x0) as u eqn:Eu.
  assert (0 < r1 <= L) as Hr1 by lia.
  assert ((x1 - x0) * r - r1 * u = r1 * (s01 * r - u))
    as -> by (rewrite H01; ring).
  assert ((x0 - x2) * (y - y2) - (y0 - y2) * (x - x2) = L * (u - s02 * r))
    as ->.
  { replace (x0 - x2) with (- (s02 * L)) by lia.
    replace (x - x2) with (u - s02 * L) by lia.
    replace (y - y2) with (r - L) by lia.
    replace (y0 - y2) with (- L) by lia. ring. }
  rewrite !scaled_nonneg, !scaled_nonpos by lia.
  assert ((y <=? y1) = (r <=? r1)) as ->.
  { destruct (Z.leb_spec y y1), (Z.leb_spec r r1); (done || lia). }
  assert (y0 <= y <= y2 <-> 0 <= r <= L) as -> by lia.
  assert (∀ lo hi, lo <= x <= hi <-> lo - x0 <= u <= hi - x0) as Hshift
    by (intros; lia).
  rewrite Hshift. clear Hshift.
  destruct (Z.eq_dec y1 y2) as [Hflat|Hne].
  - (* flat bottom *)
    assert (r1 = L) as Hr1L by lia.
    assert ((x2 - x1) * (y - y1) - (y2 - y1) * (x - x1)
            = L * ((s01 - s02) * (L - r))) as ->.
    { replace (y2 - y1) with 0 by lia.
      replace (x2 - x1) with ((s02 - s01) * L)
        by (rewrite Z.mul_sub_distr_r, <- H02, <- Hr1L, <- H01; lia).
      replace (y - y1) with (r - L) by lia. ring. }
    rewrite !scaled_nonneg, !scaled_nonpos by lia.
    split.
    + intros [Hr Hx]. split; [done|].
      destruct (Z.leb_spec r r1); [|lia].
      destruct (Z.le_gt_cases s02 s01) as [Hle|Hgt].
      * left. assert (s02 * r <= s01 * r) by nia.
        rewrite Z.min_l, Z.max_r in Hx by lia.
        split; [lia|]. split; [nia|lia].
      * right. assert (s01 * r <= s02 * r) by nia.
        rewrite Z.min_r, Z.max_l in Hx by lia.
        split; [lia|]. split; [nia|lia].
    + intros [Hr Hsides]. split; [done|].
      destruct (Z.leb_spec r r1); [|lia]. lia.
  - destruct H12 as [?|H12]; [done|].
    assert (r1 < L) as Hr1L by lia.
    assert ((x2 - x1) * (y - y1) - (y2 - y1) * (x - x1)
            = (L - r1) * (s01 * r1 + s12 * (r - r1) - u)) as ->.
    { rewrite H12. replace (x - x1) with (u - s01 * r1) by lia.
      replace (y - y1) with (r - r1) by lia.
      replace (y2 - y1) with (L - r1) by lia. ring. }
    rewrite !scaled_nonneg, !scaled_nonpos by lia.
    assert (x1 + s12 * (y - y1) = x0 + (s01 * r1 + s12 * (r - r1))) as ->.
    { replace (y - y1) with (r - r1) by lia. lia. }
    assert ((s01 - s02) * r1 = (s02 - s12) * (L - r1)) as Hmid.
    { replace ((s01 - s02) * r1) with (s01 * r1 - s02 * r1) by ring.
      replace ((s02 - s12) * (L - r1))
        with (s02 * L - s02 * r1 - s12 * (L - r1)) by ring.
      replace (y2 - y1) with (L - r1) in H12 by lia. lia. }
    assert (s01 * r1 + s12 * (r - r1) - s02 * r = (s02 - s12) * (L - r))
      as Hhigh.
    { replace ((s02 - s12) * (L - r))
        with ((s02 - s12) * (L - r1) - (s02 - s12) * (r - r1)) by ring.
      rewrite <- Hmid. ring. }
    assert (s01 * r - (s01 * r1 + s12 * (r - r1)) = (s01 - s12) * (r - r1))
      as Hbend by ring.
    assert (s01 * r - s02 * r = (s01 - s02) * r) as Hlow by ring.
    split.
    + intros [Hr Hx]. split; [done|].
      destruct (Z.lt_trichotomy (s01 - s02) 0) as [HD|[HD|HD]].
      * assert (s02 - s12 < 0) as HE by nia.
        right. destruct (Z.leb_spec r r1).
        -- assert ((s01 - s02) * r <= 0) by nia.
           assert (0 <= (s01 - s12) * (r - r1)) by nia.
           rewrite Z.min_r, Z.max_l in Hx by lia. lia.
        -- assert ((s02 - s12) * (L - r) <= 0) by nia.
           assert ((s01 - s12) * (r - r1) <= 0) by nia.
           rewrite Z.min_r, Z.max_l in Hx by lia. lia.
      * assert (s02 - s12 = 0) as HE by nia.
        rewrite HD, Z.mul_0_l in Hlow. rewrite HE, Z.mul_0_l in Hhigh.
        left. destruct (Z.leb_spec r r1); lia.
      * assert (0 < s02 - s12) as HE by nia.
        left. destruct (Z.leb_spec r r1).
        -- assert (0 <= (s01 - s02) * r) by nia.
           assert ((s01 - s12) * (r - r1) <= 0) by nia.
           rewrite Z.min_l, Z.max_r in Hx by lia. lia.
        -- assert (0 <= (s02 - s12) * (L - r)) by nia.
           assert (0 <= (s01 - s12) * (r - r1)) by nia.
           rewrite Z.min_l, Z.max_r in Hx by lia. lia.
    + intros [Hr Hsides]. split; [done|].
      destruct (Z.leb_spec r r1); lia.
Qed.

(** X20.  A triangle whose edges have integer slopes.  On a display in use
    of at most [2^53] rows and columns, let [(x0, y0)], [(x1, y1)],
    [(x2, y2)] be the vertices as ordered by the swaps and [s01], [s12],
    [s02] integers with [x1 - x0 = s01 (y1 - y0)], [x2 - x1 = s12 (y2 - y1)]
    and [x2 - x0 = s02 (y2 - y0)], each needed only for an edge between two
    different rows.  When [draw] returns success, the cell of a point
    [(x, y)] holds the triangle's colour exactly when [y0 <= y <= y2] and
    [x] lies, on row [y], between the edge from the first to the last
    vertex and the two other edges, and every other cell is as before.  On
    a square display the draw of such a triangle, in a colour of the table
    and past the bounds check, does return success.  For [y0 < y1] the
    points painted are those of the closed triangle: the points on a row of
    the triangle that are on the same side of its three edges, or on them.
    For a flat top, [y0 = y1], the only point painted on row [y0] is
    [(x0, y0)]. *)
Theorem triangle_integer_slopes t d x0 y0 x1 y1 x2 y2 s01 s12 s02 :
  initialized d -> Display.maxX d <= 2 ^ 53 -> Display.maxY d <= 2 ^ 53 ->
  Triangle.sorted t = ((x0, y0), (x1, y1), (x2, y2)) ->
  y0 = y1 \/ x1 - x0 = s01 * (y1 - y0) ->
  y1 = y2 \/ x2 - x1 = s12 * (y2 - y1) ->
  y0 = y2 \/ x2 - x0 = s02 * (y2 - y0) ->
  (∀ d', Triangle.draw t d = Returns None d' ->
     ∀ x y,
       cell d' x y
       = if decide (in_triangle x0 y0 x1 y1 y2 s01 s12 s02 x y)
         then Some (Triangle.C t) else cell d x y)
  /\ (triangle_rejected t d = false ->
      Display.maxX d = Display.maxY d ->
      is_Some (colorMap !! Triangle.C t) ->
      ∃ d', Triangle.draw t d = Returns None d')
  /\ (y0 < y1 ->
      ∀ x y, in_triangle x0 y0 x1 y1 y2 s01 s12 s02 x y
             <-> in_closed_triangle (x0, y0) (x1, y1) (x2, y2) (x, y))
  /\ (y0 = y1 ->
      ∀ x, in_triangle x0 y0 x1 y1 y2 s01 s12 s02 x y0 <-> x = x0).
Proof.
  intros Hinit HmX HmY Hs H01 H12 H02.
  destruct (sorted_ordered _ _ _ _ _ _ _ Hs) as (Hord & _ & _).
  rewrite (and_assoc _ _ (_ /\ _)). split; [|split].
  2:{ intros Hlt x y. apply in_triangle_closed; [lia|lia| |done|].
      - destruct H01; [lia|done].
      - destruct H02; [lia|done]. }
  2:{ intros Heq x. unfold in_triangle.
      destruct (Z.leb_spec y0 y1); [|lia].
      rewrite Z.sub_diag, !Z.mul_0_r, !Z.add_0_r, Z.min_id, Z.max_id. lia. }
  pose proof (initialized_wf d Hinit) as Hwf.
  unfold triangle_rejected, Triangle.draw, Display.getMaxXY. rewrite Hs.
  destruct (Triangle.out_of_bounds _ _ _ _ _ _ _ _) eqn:Hb;
    [by split; [intros d' [=]|intros [=]]|].
  apply triangle_in_bounds_all in Hb as ([Hx0 Hy0] & [Hx1 Hy1] & [Hx2 Hy2]).
  destruct (integer_fill (Triangle.C t) x0 y0 x1 y1 x2 y2 s01 s12 s02)
    as (pts & Hfill & Hpts); [lia..|done|done|done|].
  rewrite Hfill. split.
  - intros d' Hrun x y. rewrite (paint_exact _ _ _ _ Hwf Hrun).
    destruct (decide ((x, y) ∈ pts)) as [Hin|Hout]; rewrite Hpts in *.
    + by rewrite decide_True.
    + by rewrite decide_False.
  - intros _ Hsquare Hknown.
    destruct (paint_runs (Triangle.C t) pts d Hwf) as (e & d' & -> & Hp).
    exists d'. f_equal. apply (painted_ok _ _ _ _ _ Hp). split; [|done].
    apply Forall_forall. intros [x y] Hin. apply Hpts in Hin.
    pose proof (in_triangle_box _ _ _ _ _ _ _ _ _ _ _ Hord H01 H12 H02 Hin)
      as Hbox.
    destruct Hin as [Hy _]. unfold in_grid. cbn. lia.
Qed.

Lemma triangle_integer_slopes_witness :
  ∃ d', Triangle.draw
          (Triangle.mk (mkPoint 0 4) (mkPoint 2 2) (mkPoint 0 0) red)
          (fresh 5 5) = Returns None d'
        /\ cell d' 1 2 = Some red /\ cell d' 2 1 = Some white.
Proof.
  assert (initialized (fresh 5 5)) as Hinit by
    (apply initialized_fresh; unfold GoInt.max_int; lia).
  pose proof (triangle_integer_slopes
                (Triangle.mk (mkPoint 0 4) (mkPoint 2 2) (mkPoint 0 0) red)
                (fresh 5 5) 0 0 2 2 0 4 1 (-1) 0 Hinit) as Hfill.
  rewrite fresh_eq in Hfill at 1 2 by lia.
  destruct Hfill as (Hcell & Hruns & _);
    [cbn; lia|cbn; lia|reflexivity|right; lia|right; lia|right; lia|].
  destruct Hruns as [d' Hrun];
    [reflexivity|by rewrite fresh_eq by lia|by eexists|].
  exists d'. split; [exact Hrun|]. split.
  - rewrite (Hcell d' Hrun).
    by rewrite decide_True by (unfold in_triangle; cbn; lia).
  - rewrite (Hcell d' Hrun).
    rewrite decide_False by (unfold in_triangle; cbn; lia).
    apply cell_fresh; lia.
Defined.
